(** * Structural topology optimisation (stopt_2025.py): index plumbing,
      adjoint rule and driver bookkeeping

    A shallow embedding of [src/stopt_2025.py].  numpy arrays are lists
    (a 2-D array is a list of rows, a 3-D array a list of 2-D arrays);
    index arrays hold naturals (the program only builds them from [range],
    [arange] and [flatnonzero], so no entry is negative, and every one is
    bounded by the size of an array that exists in memory, far below the
    int64 range).  Python exceptions are an explicit result type.

    float64 arithmetic is kept abstract: the class [Scalar] lists the
    operations the program applies to floating-point values and assumes no
    law about them, so the structural theorems hold for whatever these
    operations compute.  The instance over [Q] (exact rationals) is used to
    run the definitions and for the one order-theoretic property. *)

From Stdlib Require Import ZArith QArith Qround Qpower Lia.
From Stdlib Require Import Rbase Rfunctions R_Ifp Rtrigo_def Exp_prop Rpower Lra.
From stdpp Require Import base list strings gmap sorting.

Close Scope Q_scope.
Close Scope R_scope.
Open Scope nat_scope.

(** ** Python results *)

Inductive exn : Type :=
  | IndexError | TypeError | ValueError | ZeroDivisionError
  | NotImplementedError | RuntimeError.

Inductive pyresult (A : Type) : Type :=
  | Ok (a : A)
  | Raise (e : exn).
Arguments Ok {A} a.
Arguments Raise {A} e.

#[export] Instance pyresult_bind : MBind pyresult := λ A B k r,
  match r with
  | Ok a => k a
  | Raise e => Raise e
  end.

(** ** float64 values, abstractly *)

Class Scalar (F : Type) := {
  fzero : F;
  fone : F;
  fadd : F → F → F;
  fsub : F → F → F;
  fmul : F → F → F;
  fdiv : F → F → F;
  fopp : F → F;
  fpow : F → F → F;          (* x ** p *)
  fnonzero : F → bool;       (* x != 0 *)
  fint : Z → F;              (* a Python int used as a float *)
  flit : Q → F               (* a decimal literal of the program text *)
}.

(** Exact rational arithmetic, fractions kept in lowest terms.  [x ** p] is
    exact for the integer-valued exponents the program uses ([penal = 3],
    [nu ** 2]). *)
#[export] Instance Q_scalar : Scalar Q := {
  fzero := 0%Q;
  fone := 1%Q;
  fadd := λ x y, Qred (x + y)%Q;
  fsub := λ x y, Qred (x - y)%Q;
  fmul := λ x y, Qred (x * y)%Q;
  fdiv := λ x y, Qred (x / y)%Q;
  fopp := Qopp;
  fpow := λ x p, Qred (Qpower x (Qfloor p));
  fnonzero := λ x, negb (Qnum x =? 0)%Z;
  fint := inject_Z;
  flit := Qred
}.

(** ** numpy helpers *)

(** [a[ix]] for an integer index array [ix]: IndexError when an index is
    out of bounds. *)
Fixpoint take_ix {A} (a : list A) (ix : list nat) : pyresult (list A) :=
  match ix with
  | [] => Ok []
  | i :: ix' =>
      match a !! i with
      | Some v => r ← take_ix a ix'; Ok (v :: r)
      | None => Raise IndexError
      end
  end.

(** Apply a fallible function to every entry, left to right. *)
Fixpoint mapM_py {A B} (f : A → pyresult B) (l : list A) : pyresult (list B) :=
  match l with
  | [] => Ok []
  | a :: l' => b ← f a; r ← mapM_py f l'; Ok (b :: r)
  end.

(** [a[mask]] for a boolean mask: IndexError unless the mask has the
    length of [a]. *)
Fixpoint mask_filter {A} (a : list A) (mask : list bool) : list A :=
  match a, mask with
  | v :: a', b :: mask' => if b then v :: mask_filter a' mask' else mask_filter a' mask'
  | _, _ => []
  end.

Definition select_mask {A} (a : list A) (mask : list bool) : pyresult (list A) :=
  if decide (length a = length mask) then Ok (mask_filter a mask)
  else Raise IndexError.

(** An elementwise binary operation on 1-D arrays, with numpy broadcasting
    of a length-1 side; ValueError when the shapes do not agree. *)
Definition broadcast2 {A B C} (f : A → B → C) (a : list A) (b : list B)
    : pyresult (list C) :=
  if decide (length a = length b) then Ok (zip_with f a b)
  else match a, b with
       | [v], _ => Ok (f v <$> b)
       | _, [v] => Ok ((λ w, f w v) <$> a)
       | _, _ => Raise ValueError
       end.

(** [np.arange(n)] *)
Definition arange (n : Z) : list nat := seq 0 (Z.to_nat n).

(** [np.flatnonzero(a)]: positions of the entries with [a != 0]. *)
Fixpoint flatnonzero_from `{Scalar F} (i : nat) (a : list F) : list nat :=
  match a with
  | [] => []
  | v :: a' =>
      if fnonzero v then i :: flatnonzero_from (S i) a'
      else flatnonzero_from (S i) a'
  end.
Definition flatnonzero `{Scalar F} (a : list F) : list nat := flatnonzero_from 0 a.

(** [np.isin(a, s)] *)
Definition isin (a s : list nat) : list bool := (λ d, bool_decide (d ∈ s)) <$> a.

(** A 3-D array: its shape and its C-order buffer ([ravel]). *)
Record ndarray3 (A : Type) := mk_ndarray3 {
  shape3 : nat * nat * nat;
  ravel : list A
}.
Arguments mk_ndarray3 {A} _ _.
Arguments shape3 {A} _.
Arguments ravel {A} _.

Definition wf_ndarray3 {A} (a : ndarray3 A) : Prop :=
  length (ravel a) = (shape3 a).1.1 * (shape3 a).1.2 * (shape3 a).2.

(** ** Problem setup *)

Record Args (F : Type) := mk_args {
  young : F; young_min : F; poisson : F; g : F;
  density : F; xmin : F; xmax : F;
  nelx : Z; nely : Z; mask : F; penal : F; filter_width : F;
  freedofs : list nat; fixdofs : list nat; forces : list F;
  opt_steps : nat; print_every : nat
}.
Arguments mk_args {F}.
Arguments young {F}. Arguments young_min {F}. Arguments poisson {F}.
Arguments density {F}. Arguments nelx {F}. Arguments nely {F}.
Arguments mask {F}. Arguments penal {F}. Arguments filter_width {F}.
Arguments freedofs {F}. Arguments fixdofs {F}. Arguments forces {F}.
Arguments opt_steps {F}. Arguments print_every {F}.

(** [np.sort(list(set(alldofs) - set(fixdofs)))] *)
Definition sorted_difference (alldofs fixdofs : list nat) : list nat :=
  merge_sort le
    (elements ((list_to_set alldofs : gset nat) ∖ (list_to_set fixdofs : gset nat))).

Definition get_args `{Scalar F} (normals forces_ : ndarray3 F) (density_ : F) : Args F :=
  let width := (Z.of_nat (shape3 normals).1.1 - 1)%Z in
  let height := (Z.of_nat (shape3 normals).1.2 - 1)%Z in
  let fixdofs_ := flatnonzero (ravel normals) in
  let alldofs := arange (2 * (width + 1) * (height + 1)) in
  let freedofs_ := sorted_difference alldofs fixdofs_ in
  {| young := flit 1; young_min := flit (1 # 1000000000); poisson := flit (3 # 10);
     g := flit 0;
     density := density_; xmin := flit (1 # 1000); xmax := flit 1;
     nelx := width; nely := height; mask := flit 1; penal := flit 3;
     filter_width := flit 1;
     freedofs := freedofs_; fixdofs := fixdofs_; forces := ravel forces_;
     opt_steps := 80; print_every := 10 |}.

(** Total number of degrees of freedom of a [nelx] by [nely] grid. *)
Definition total_dofs (nelx nely : Z) : nat :=
  Z.to_nat (2 * (nelx + 1) * (nely + 1)).

(** [mbb_beam]: the textbook beam; [y] and [x] select the axis (defaults
    1 and 0).  The flat position of [a[i, j, k]] is [(i*(height+1)+j)*2+k]. *)
Definition mbb_beam `{Scalar F} (width height : nat) (density_ : F) (y x : nat)
    : ndarray3 F * ndarray3 F * F :=
  let size := (width + 1) * (height + 1) * 2 in
  let pos i j k := (i * (height + 1) + j) * 2 + k in
  let normals0 := replicate size fzero in
  let normals1 := <[pos width height y := fint 1%Z]> normals0 in
  let normals2 :=
    foldl (λ a j, <[pos 0 j x := fint 1%Z]> a) normals1 (seq 0 (height + 1)) in
  let forces0 := replicate size fzero in
  let forces1 := <[pos 0 0 y := fopp (fint 1%Z)]> forces0 in
  (mk_ndarray3 (width + 1, height + 1, 2) normals2,
   mk_ndarray3 (width + 1, height + 1, 2) forces1,
   density_).

(** ** 2-D arrays *)

Definition map2 {A B} (f : A → B) (a : list (list A)) : list (list B) :=
  (λ row : list A, f <$> row) <$> a.

Definition zip2 {A B C} (f : A → B → C) (a : list (list A)) (b : list (list B))
    : list (list C) :=
  zip_with (zip_with f) a b.

(** [a[i, k]] and [a[i, k, l]], when in bounds *)
Definition lookup2 {A} (a : list (list A)) (i k : nat) : option A :=
  match a !! i with Some r => r !! k | None => None end.
Definition lookup3 {A} (a : list (list (list A))) (i k l : nat) : option A :=
  match a !! i with Some p => lookup2 p k l | None => None end.

(** [a.shape] of a 2-D array *)
Definition shape2 {A} (a : list (list A)) : nat * nat :=
  (length a, length (default [] (head a))).

(** [a.T] of a 2-D array with [ncols] columns *)
Fixpoint transpose2 {A} (ncols : nat) (a : list (list A)) : list (list A) :=
  match a with
  | [] => replicate ncols []
  | row :: a' => zip_with cons row (transpose2 ncols a')
  end.

(** [a.T] of a 3-D array of shape (d0, d1, d2): all axes reversed, so that
    [a.T[k][e][i] = a[i][e][k]]. *)
Definition transpose3 {A} (d1 d2 : nat) (a : list (list (list A)))
    : list (list (list A)) :=
  transpose2 d1 <$> transpose2 d2 (transpose2 d2 <$> a).

Fixpoint chunks {A} (rows cols : nat) (l : list A) : list (list A) :=
  match rows with
  | 0 => []
  | S r => take cols l :: chunks r cols (drop cols l)
  end.

(** [l.reshape(r, c)] of the C-order buffer [l]; one dimension may be -1. *)
Definition reshape2 {A} (l : list A) (r c : Z) : pyresult (list (list A)) :=
  let n := Z.of_nat (length l) in
  if decide (r = -1 ∧ c = -1)%Z then Raise ValueError
  else if decide (r < -1 ∨ c < -1)%Z then Raise ValueError
  else if decide (r = -1)%Z then
    if decide (0 < c ∧ n mod c = 0)%Z
    then Ok (chunks (Z.to_nat (n / c)) (Z.to_nat c) l) else Raise ValueError
  else if decide (c = -1)%Z then
    if decide (0 < r ∧ n mod r = 0)%Z
    then Ok (chunks (Z.to_nat r) (Z.to_nat (n / r)) l) else Raise ValueError
  else if decide (r * c = n)%Z
    then Ok (chunks (Z.to_nat r) (Z.to_nat c) l) else Raise ValueError.

(** [np.meshgrid(xs, ys)] (default 'xy' indexing): two arrays of shape
    (len(ys), len(xs)). *)
Definition meshgrid {A} (xs ys : list A) : list (list A) * list (list A) :=
  ((λ _, xs) <$> ys, (λ y, (λ _, y) <$> xs) <$> ys).

(** [a.reshape(-1, 1)] of a 2-D array *)
Definition reshape_col {A} (a : list (list A)) : list (list A) :=
  (λ v, [v]) <$> mjoin a.

(** [np.repeat(a, k)] on the flattened array: every entry [k] times. *)
Definition np_repeat {A} (a : list (list A)) (k : nat) : list A :=
  mjoin (replicate k <$> mjoin a).

(** [np.tile(a, k)] of a 2-D array: every row [k] times side by side. *)
Definition np_tile {A} (a : list (list A)) (k : nat) : list (list A) :=
  (λ row, mjoin (replicate k row)) <$> a.

Section arith.
Context `{Scalar F}.

(** [sum] of a 1-D array, accumulated left to right *)
Definition fsum (l : list F) : F := foldl fadd fzero l.

(** [anp.mean] of a 2-D array *)
Definition mean2 (a : list (list F)) : F :=
  fdiv (fsum (mjoin a)) (fint (Z.of_nat (length (mjoin a)))).

(** [a * b] for 1-D arrays *)
Definition mul_arrays (a b : list F) : pyresult (list F) := broadcast2 fmul a b.

(** [buf[:] = g] *)
Definition assign_slice (buf g : list F) : pyresult (list F) :=
  if decide (length g = length buf) then Ok g
  else match g with
       | [v] => Ok (replicate (length buf) v)
       | _ => Raise ValueError
       end.

(** ** Material model *)

Definition young_modulus (x e_0 e_min p : F) : F :=
  fadd e_min (fmul (fpow x p) (fsub e_0 e_min)).

(** ** Element stiffness matrix *)

Definition stiffness_coeffs (nu : F) : list F :=
  let i (z : Z) := fint z in
  [ fsub (fdiv (i 1) (i 2)) (fdiv nu (i 6));
    fadd (fdiv (i 1) (i 8)) (fdiv nu (i 8));
    fsub (fdiv (fopp (i 1)) (i 4)) (fdiv nu (i 12));
    fadd (fdiv (fopp (i 1)) (i 8)) (fdiv (fmul (i 3) nu) (i 8));
    fadd (fdiv (fopp (i 1)) (i 4)) (fdiv nu (i 12));
    fsub (fdiv (fopp (i 1)) (i 8)) (fdiv nu (i 8));
    fdiv nu (i 6);
    fsub (fdiv (i 1) (i 8)) (fdiv (fmul (i 3) nu) (i 8)) ]%Z.

Definition stiffness_layout : list (list nat) :=
  [ [0; 1; 2; 3; 4; 5; 6; 7];
    [1; 0; 7; 6; 5; 4; 3; 2];
    [2; 7; 0; 5; 6; 3; 4; 1];
    [3; 6; 5; 0; 7; 2; 1; 4];
    [4; 5; 6; 7; 0; 1; 2; 3];
    [5; 4; 3; 2; 1; 0; 7; 6];
    [6; 3; 4; 1; 2; 7; 0; 5];
    [7; 2; 1; 4; 3; 6; 5; 0] ].

(** Python's [e/(1-nu**2)] raises ZeroDivisionError when [1 - nu**2] is
    zero; the table below is the result everywhere else. *)
Definition get_stiffness_matrix (e nu : F) : list (list F) :=
  let k := stiffness_coeffs nu in
  let scale := fdiv e (fsub (fint 1%Z) (fpow nu (fint 2%Z))) in
  map2 (λ i, fmul scale (default fzero (k !! i))) stiffness_layout.

End arith.

(** ** Element-to-DOF index arrays *)

(** The four node-number arrays [n1 .. n4] computed from the coordinate
    arrays [ely], [elx] (same text in [compliance] and in [get_k]). *)
Definition node_arrays (nely : nat) (ely elx : list (list nat))
    : list (list (list nat)) :=
  let n1 := zip2 (λ x y, (nely + 1) * (x + 0) + (y + 0)) elx ely in
  let n2 := zip2 (λ x y, (nely + 1) * (x + 1) + (y + 0)) elx ely in
  let n3 := zip2 (λ x y, (nely + 1) * (x + 1) + (y + 1)) elx ely in
  let n4 := zip2 (λ x y, (nely + 1) * (x + 0) + (y + 1)) elx ely in
  [n1; n2; n3; n4].

(** [anp.array([2*n1, 2*n1+1, 2*n2, 2*n2+1, 2*n3, 2*n3+1, 2*n4, 2*n4+1])] *)
Definition dof_arrays (nodes : list (list (list nat))) : list (list (list nat)) :=
  nodes ≫= (λ n, [map2 (λ v, 2 * v) n; map2 (λ v, 2 * v + 1) n]).

(** [all_ixs] of [compliance], shape (8, nelx, nely) *)
Definition all_ixs (nely nelx : nat) : list (list (list nat)) :=
  let '(ely, elx) := meshgrid (seq 0 nely) (seq 0 nelx) in
  dof_arrays (node_arrays nely ely elx).

(** [edof] of [get_k] after [edof.T[0]], shape (nelx*nely, 8) *)
Definition edof (nely nelx : nat) : list (list nat) :=
  let '(ely, elx) := meshgrid (seq 0 nely) (seq 0 nelx) in
  let '(ely, elx) := (reshape_col ely, reshape_col elx) in
  let e := dof_arrays (node_arrays nely ely elx) in
  default [] (head (transpose3 (nelx * nely) 1 e)).

(** The eight DOF numbers of the element in column [x], row [y], as
    functions of the element coordinates. *)
Definition dof_funs (nely : nat) : list (nat → nat → nat) :=
  [λ x y, (nely + 1) * (x + 0) + (y + 0);
   λ x y, (nely + 1) * (x + 1) + (y + 0);
   λ x y, (nely + 1) * (x + 1) + (y + 1);
   λ x y, (nely + 1) * (x + 0) + (y + 1)]
  ≫= (λ n, [λ x y, 2 * n x y; λ x y, 2 * n x y + 1]).

(** Element coordinates (elx, ely) in the order of [get_k]. *)
Definition element_coords (nely nelx : nat) : list (nat * nat) :=
  seq 0 nelx ≫= (λ x, pair x <$> seq 0 nely).

Section physics.
Context `{Scalar F}.

(** *** External collaborators *)

(** [scipy.sparse.linalg.splu(a).solve(b)] for the matrix [a] (given by its
    rows); it may raise (RuntimeError on a singular matrix). *)
Variable splu_solve : list (list F) → list F → pyresult (list F).

(** [scipy.ndimage.gaussian_filter(x, width, mode='reflect')] *)
Variable ndimage_gaussian_filter : list (list F) → F → list (list F).

(** *** Compliance *)

(** [a[i, k, l]] of a 3-D float array *)
Definition at3 (a : list (list (list F))) (i k l : nat) : F :=
  default fzero (lookup3 a i k l).

Definition compliance (x_phys : list (list F)) (u : list F) (ke : list (list F))
    (penal e_min e_0 : F) : pyresult F :=
  let '(nely, nelx) := shape2 x_phys in
  let ixs := all_ixs nely nelx in
  (* u_selected = u[all_ixs] *)
  u_selected ← mapM_py (mapM_py (take_ix u)) ixs;
  (* ke_u[i][k][l] = sum_j ke[i][j] * u_selected[j][k][l] *)
  let ke_u :=
    (λ kerow,
      (λ k, (λ l,
        fsum (imap (λ j keij, fmul keij (at3 u_selected j k l)) kerow))
        <$> seq 0 nely) <$> seq 0 nelx) <$> ke in
  (* ce[j][k] = sum_i u_selected[i][j][k] * ke_u[i][j][k] *)
  let ce :=
    (λ j, (λ k,
      fsum ((λ i, fmul (at3 u_selected i j k) (at3 ke_u i j k))
              <$> seq 0 (length u_selected)))
      <$> seq 0 nely) <$> seq 0 nelx in
  let C := zip2 fmul (map2 (λ x, young_modulus x e_0 e_min penal) x_phys)
                     (transpose2 nely ce) in
  Ok (fsum (mjoin C)).

(** *** Assembly *)

Definition get_k (stiffness : list (list F)) (ke : list (list F))
    : list F * list nat * list nat :=
  let '(nely, nelx) := shape2 stiffness in
  let edof_ := edof nely nelx in
  let x_list := np_repeat edof_ 8 in
  let y_list := mjoin (np_tile edof_ 8) in
  (* kd = stiffness.T.reshape(nelx*nely, 1, 1); kd * tile(ke, kd.shape) *)
  let kd := mjoin (transpose2 nelx stiffness) in
  let value_list := kd ≫= (λ s, mjoin (map2 (fmul s) ke)) in
  (value_list, y_list, x_list).

(** [inverse_perm[indices] = np.arange(len(indices))]: the writes happen in
    order, a later one overwrites an earlier one. *)
Fixpoint scatter_arange (indices : list nat) (k : nat) (buf : list nat)
    : pyresult (list nat) :=
  match indices with
  | [] => Ok buf
  | i :: rest =>
      if decide (i < length buf) then scatter_arange rest (S k) (<[i := k]> buf)
      else Raise IndexError
  end.

Definition inverse_permutation (indices : list nat) : pyresult (list nat) :=
  scatter_arange indices 0 (replicate (length indices) 0).

Definition _get_dof_indices (freedofs fixdofs k_xlist k_ylist : list nat)
    : pyresult (list nat * list bool * list (list nat)) :=
  index_map ← inverse_permutation (freedofs ++ fixdofs);
  keep ← broadcast2 andb (isin k_xlist freedofs) (isin k_ylist freedofs);
  iy ← take_ix index_map k_ylist;
  i ← select_mask iy keep;
  jx ← take_ix index_map k_xlist;
  j ← select_mask jx keep;
  Ok (index_map, keep, [i; j]).

(** *** The sparse solve *)

(** The values a COO matrix holds for position (r, c), in entry order. *)
Fixpoint coo_contributions (entries : list F) (rows cols : list nat) (r c : nat)
    : list F :=
  match entries, rows, cols with
  | v :: entries', i :: rows', j :: cols' =>
      if decide (i = r ∧ j = c) then v :: coo_contributions entries' rows' cols' r c
      else coo_contributions entries' rows' cols' r c
  | _, _, _ => []
  end.

(** [scipy.sparse.coo_matrix((a_entries, a_indices), shape=(size,)*2).tocsc()]:
    duplicate positions are summed. *)
Definition coo_matrix (a_entries : list F) (a_indices : list (list nat)) (size : nat)
    : pyresult (list (list F)) :=
  match a_indices with
  | [rows; cols] =>
      if decide (length rows = length a_entries ∧ length cols = length a_entries
                 ∧ Forall (λ i, i < size) rows ∧ Forall (λ j, j < size) cols)
      then Ok ((λ r, (λ c, fsum (coo_contributions a_entries rows cols r c))
                       <$> seq 0 size) <$> seq 0 size)
      else Raise ValueError
  | _ => Raise ValueError
  end.

Definition _get_solver (a_entries : list F) (a_indices : list (list nat))
    (size : nat) (sym_pos : bool) : pyresult (list F → pyresult (list F)) :=
  a ← coo_matrix a_entries a_indices size;
  Ok (splu_solve a).

Definition solve_coo (a_entries : list F) (a_indices : list (list nat))
    (b : list F) (sym_pos : bool) : pyresult (list F) :=
  solver ← _get_solver a_entries a_indices (length b) sym_pos;
  solver b.

(** The reverse-mode rule registered for [a_entries]. *)
Definition grad_solve_coo_entries (ans a_entries : list F)
    (a_indices : list (list nat)) (b : list F) (sym_pos : bool)
    : list F → pyresult (list F) :=
  λ grad_ans,
    lambda_ ← solve_coo a_entries
                (if sym_pos then a_indices else reverse a_indices) grad_ans sym_pos;
    match a_indices with
    | [i; j] =>
        li ← take_ix lambda_ i;
        aj ← take_ix ans j;
        mul_arrays (fopp <$> li) aj
    | _ => Raise ValueError
    end.

(** *** Displacement *)

Definition displace (x_phys ke : list (list F)) (forces_ : list F)
    (freedofs_ fixdofs_ : list nat) (penal_ e_min e_0 : F) : pyresult (list F) :=
  let stiffness := map2 (λ x, young_modulus x e_0 e_min penal_) x_phys in
  let '(k_entries, k_ylist, k_xlist) := get_k stiffness ke in
  '(index_map, keep, indices) ← _get_dof_indices freedofs_ fixdofs_ k_ylist k_xlist;
  entries ← select_mask k_entries keep;
  b ← take_ix forces_ freedofs_;
  u_nonzero ← solve_coo entries indices b true;
  let u_values := u_nonzero ++ replicate (length fixdofs_) fzero in
  take_ix u_values index_map.

(** *** Filter and objective *)

Definition gaussian_filter (x : list (list F)) (width : F) : list (list F) :=
  ndimage_gaussian_filter x width.

Definition physical_density (x : list (list F)) (args : Args F) (use_filter : bool)
    : pyresult (list (list F)) :=
  x' ← reshape2 (mjoin x) (nely args) (nelx args);
  let x'' := map2 (fmul (mask args)) x' in
  Ok (if use_filter then gaussian_filter x'' (filter_width args) else x'').

Definition mean_density (x : list (list F)) (args : Args F) (use_filter : bool)
    : pyresult F :=
  xp ← physical_density x args use_filter;
  Ok (fdiv (mean2 xp) (mask args)).

Definition objective (x : list (list F)) (args : Args F) (use_filter : bool)
    : pyresult F :=
  x_phys ← physical_density x args use_filter;
  let ke := get_stiffness_matrix (young args) (poisson args) in
  u ← displace x_phys ke (forces args) (freedofs args) (fixdofs args)
        (penal args) (young_min args) (young args);
  compliance x_phys u ke (penal args) (young_min args) (young args).

End physics.

(** ** Compliance, element by element

    The sum the compliance stands for: the element in column [i] and row
    [j] contributes the quadratic form of [ke] on its eight displacements,
    read from [u] at the DOFs of row [i * nely + j] of [edof], times the
    modulus of [x_phys[j, i]]. *)

Section element_sum.
Context `{Scalar F}.

(** The displacements at the DOFs [dofs] *)
Definition element_displacements (u : list F) (dofs : list nat) : list F :=
  (λ d, default fzero (u !! d)) <$> dofs.

(** [ue.T @ ke @ ue] *)
Definition quadratic_form (ke : list (list F)) (ue : list F) : F :=
  fsum ((λ a, fmul (default fzero (ue !! a))
                (fsum (imap (λ b keab, fmul keab (default fzero (ue !! b)))
                         (default [] (ke !! a)))))
          <$> seq 0 (length ue)).

Definition compliance_by_elements (x_phys : list (list F)) (u : list F)
    (ke : list (list F)) (penal e_min e_0 : F) : F :=
  let '(nely, nelx) := shape2 x_phys in
  fsum (mjoin (imap (λ j xrow,
                 imap (λ i x,
                   fmul (young_modulus x e_0 e_min penal)
                        (quadratic_form ke
                           (element_displacements u
                              (default [] (edof nely nelx !! (i * nely + j))))))
                   xrow)
                 x_phys)).

End element_sum.

(** ** The optimisation driver *)

(** What a Python list of the driver holds, and what it prints.  The
    elapsed time of the progress line is not modelled. *)
Inductive pyitem (F : Type) : Type :=
  | ItemFloat (v : F)
  | ItemArray (a : list (list F)).
Arguments ItemFloat {F} v.
Arguments ItemArray {F} a.

Inductive output (F : Type) : Type :=
  | OutText (s : string)
  | OutNodes (n : nat)
  | OutStep (step : nat) (loss : F).
Arguments OutText {F} s.
Arguments OutNodes {F} n.
Arguments OutStep {F} step loss.

(** The mutable state the driver touches: the Python list objects (by
    address), standard output, and the inputs at which reverse-mode
    differentiation ([autograd.value_and_grad]) was run. *)
Record world (F : Type) := mk_world {
  heap : list (list (pyitem F));
  stdout : list (output F);
  autograd_calls : list (list F)
}.
Arguments mk_world {F}.
Arguments heap {F}. Arguments stdout {F}. Arguments autograd_calls {F}.

(** A callback invocation by the external optimizer: the point [x] and the
    gradient buffer [grad] it passes (empty when no gradient is wanted). *)
Inductive request (F : Type) : Type :=
  | EvalObjective (x grad : list F)
  | EvalConstraint (x grad : list F).
Arguments EvalObjective {F} x grad.
Arguments EvalConstraint {F} x grad.

Section driver.
Context `{Scalar F}.

Variable splu_solve : list (list F) → list F → pyresult (list F).
Variable ndimage_gaussian_filter : list (list F) → F → list (list F).

(** The gradient [autograd] computes for a scalar function. *)
Variable autograd_grad : (list F → pyresult F) → list F → pyresult (list F).

Definition value_and_grad (func : list F → pyresult F) (x : list F)
    : pyresult (F * list F) :=
  value ← func x;
  g ← autograd_grad func x;
  Ok (value, g).

(** [l.append(item)] and [len(l)] for the list object at address [l] *)
Definition list_append (l : nat) (item : pyitem F) (w : world F) : world F :=
  mk_world (alter (λ items, items ++ [item]) l (heap w)) (stdout w) (autograd_calls w).

Definition list_len (l : nat) (w : world F) : nat :=
  length (default [] (heap w !! l)).

Definition print (o : output F) (w : world F) : world F :=
  mk_world (heap w) (stdout w ++ [o]) (autograd_calls w).

Definition note_autograd (x : list F) (w : world F) : world F :=
  mk_world (heap w) (stdout w) (autograd_calls w ++ [x]).

(** The two halves of the body of [wrapper]: the evaluation (the
    [if grad.size > 0] statement) and the bookkeeping that follows it. *)
Definition wrapper_evaluate (func : list F → pyresult F) (x grad : list F)
    (w : world F) : pyresult F * list F * world F :=
  if decide (0 < length grad) then
    let w' := note_autograd x w in
    match value_and_grad func x with
    | Ok (value, g) =>
        match assign_slice grad g with
        | Ok grad' => (Ok value, grad', w')
        | Raise e => (Raise e, grad, w')
        end
    | Raise e => (Raise e, grad, w')
    end
  else (func x, grad, w).

Definition wrapper_record (args : Args F) (verbose : bool)
    (losses frames : option nat) (x : list F) (value : F) (w : world F)
    : pyresult F * world F :=
  let w2 := match losses with
            | Some l => list_append l (ItemFloat value) w
            | None => w
            end in
  match frames with
  | None => (Ok value, w2)
  | Some fl =>
      match reshape2 x (nely args) (nelx args) with
      | Raise e => (Raise e, w2)
      | Ok fr =>
          let w3 := list_append fl (ItemArray fr) w2 in
          if verbose then
            if decide (print_every args = 0)
            then (Raise ZeroDivisionError, w3)
            else if decide (list_len fl w3 mod print_every args = 0)
            then (Ok value, print (OutStep (list_len fl w3) value) w3)
            else (Ok value, w3)
          else (Ok value, w3)
      end
  end.

(** [wrap_autograd_func(func, losses, frames)]: the callback handed to the
    optimizer.  It returns the value (or raises), the gradient buffer after
    the call, and the new state. *)
Definition wrap_autograd_func (args : Args F) (verbose : bool)
    (func : list F → pyresult F) (losses frames : option nat)
    (x grad : list F) (w : world F) : pyresult F * list F * world F :=
  let '(r, grad1, w1) := wrapper_evaluate func x grad w in
  match r with
  | Raise e => (Raise e, grad1, w1)
  | Ok value =>
      let '(r', w2) := wrapper_record args verbose losses frames x value w1 in
      (r', grad1, w2)
  end.

(** [objective_fn] and [constraint] of [fast_stopt] *)
Definition objective_fn (args : Args F) (x : list F) : pyresult F :=
  x2 ← reshape2 x (nely args) (nelx args);
  objective splu_solve ndimage_gaussian_filter x2 args true.

Definition constraint (args : Args F) (params : list F) : pyresult F :=
  x2 ← reshape2 params (nely args) (nelx args);
  m ← mean_density ndimage_gaussian_filter x2 args true;
  Ok (fsub m (density args)).

(** The optimizer's run: it invokes the two callbacks in some order; an
    exception in a callback ends the run.  The result lists, for every
    call, the value returned and the gradient buffer after the call. *)
Fixpoint run_callbacks (obj con : list F → list F → world F → pyresult F * list F * world F)
    (reqs : list (request F)) (w : world F)
    : pyresult (list (F * list F)) * world F :=
  match reqs with
  | [] => (Ok [], w)
  | req :: reqs' =>
      let '(r, grad', w') :=
        match req with
        | EvalObjective x grad => obj x grad w
        | EvalConstraint x grad => con x grad w
        end in
      match r with
      | Raise e => (Raise e, w')
      | Ok v =>
          let '(rs, w'') := run_callbacks obj con reqs' w' in
          (resp ← rs; Ok ((v, grad') :: resp), w'')
      end
  end.

(** The objective values and the design snapshots of the objective calls
    among [reqs], in call order. *)
Definition recorded_losses (obj_fn : list F → pyresult F) (reqs : list (request F))
    : list F :=
  omap (λ req, match req with
               | EvalObjective x _ =>
                   match obj_fn x with Ok v => Some v | Raise _ => None end
               | EvalConstraint _ _ => None
               end) reqs.

Definition recorded_frames (args : Args F) (reqs : list (request F))
    : list (list (list F)) :=
  omap (λ req, match req with
               | EvalObjective x _ =>
                   match reshape2 x (nely args) (nelx args) with
                   | Ok fr => Some fr
                   | Raise _ => None
                   end
               | EvalConstraint _ _ => None
               end) reqs.

Definition is_objective (req : request F) : bool :=
  match req with EvalObjective _ _ => true | EvalConstraint _ _ => false end.

(** [fast_stopt(args, x, verbose)].  [optimizer] stands for nlopt: the
    callback invocations it makes when started from the flattened initial
    design.  The debugger breakpoint of the source is not modelled. *)
Definition initial_design (args : Args F) (x : option (list (list F)))
    : list (list F) :=
  match x with
  | Some x0 => x0
  | None => replicate (Z.to_nat (nely args))
              (replicate (Z.to_nat (nelx args)) (fmul fone (density args)))
  end.

Definition float_items (items : list (pyitem F)) : list F :=
  omap (λ it, match it with ItemFloat v => Some v | ItemArray _ => None end) items.

Definition array_items (items : list (pyitem F)) : list (list (list F)) :=
  omap (λ it, match it with ItemArray a => Some a | ItemFloat _ => None end) items.

Definition fast_stopt (args : Args F) (x : option (list (list F))) (verbose : bool)
    (optimizer : list F → list (request F)) (w : world F)
    : pyresult (list F * list (list F) * list (list (list F))) * world F :=
  let x0 := initial_design args x in
  let losses := length (heap w) in
  let frames := S (length (heap w)) in
  let w0 := mk_world (heap w ++ [[]; []]) (stdout w) (autograd_calls w) in
  let w1 := print (OutNodes (length (forces args))) w0 in
  let obj := wrap_autograd_func args verbose (objective_fn args) (Some losses) (Some frames) in
  let con := wrap_autograd_func args verbose (constraint args) None None in
  let '(r, w2) := run_callbacks obj con (optimizer (mjoin x0)) w1 in
  match r with
  | Raise e => (Raise e, w2)
  | Ok _ =>
      let losses_items := default [] (heap w2 !! losses) in
      let frames_items := default [] (heap w2 !! frames) in
      match last (array_items frames_items) with
      | None => (Raise IndexError, w2)
      | Some fr =>
          (fr' ← reshape2 (mjoin fr) (nely args) (nelx args);
           Ok (float_items losses_items, fr', array_items frames_items), w2)
      end
  end.

End driver.

(** ** Registration of the reverse-mode rules of [solve_coo] *)

(** Python values that reach the rule makers. *)
Inductive pyval (F : Type) : Type :=
  | VNone
  | VBool (b : bool)
  | VFloats (a : list F)
  | VIndices (a : list (list nat))
  | VClosure (f : list F → pyresult (list F)).
Arguments VNone {F}.
Arguments VBool {F} b.
Arguments VFloats {F} a.
Arguments VIndices {F} a.
Arguments VClosure {F} f.

(** A Python function: its parameter names, the defaults of the trailing
    ones, and its body, run on the bound parameters. *)
Record pyfunction (F : Type) := mk_pyfunction {
  fn_params : list string;
  fn_defaults : list (string * pyval F);
  fn_body : list (string * pyval F) → list (output F) → pyresult (pyval F) * list (output F)
}.
Arguments mk_pyfunction {F}.
Arguments fn_params {F}. Arguments fn_defaults {F}. Arguments fn_body {F}.

Definition assoc {V} (k : string) (l : list (string * V)) : option V :=
  (λ p, p.2.2) <$> list_find (λ p, p.1 = k) l.

Section calls.
Context `{Scalar F}.

(** Calling [fn] with positional arguments [args] and keyword arguments
    [kwargs]: TypeError when there are too many positional
    arguments, an unknown or doubly bound keyword, or an unbound
    parameter. *)
Definition call (fn : pyfunction F) (args : list (pyval F))
    (kwargs : list (string * pyval F)) (out : list (output F))
    : pyresult (pyval F) * list (output F) :=
  let positional := zip (fn_params fn) args in
  if decide (length (fn_params fn) < length args) then (Raise TypeError, out)
  else if decide (Forall (λ kw, kw.1 ∈ drop (length args) (fn_params fn)) kwargs
                  ∧ NoDup (kwargs.*1))
  then
    let bound := positional ++ kwargs in
    let env := bound ++ filter (λ d, d.1 ∉ bound.*1) (fn_defaults fn) in
    if decide (Forall (λ p, p ∈ env.*1) (fn_params fn))
    then fn_body fn env out
    else (Raise TypeError, out)
  else (Raise TypeError, out).

Variable splu_solve : list (list F) → list F → pyresult (list F).

(** [grad_solve_coo_entries], as the function object handed to [defvjp] *)
Definition grad_solve_coo_entries_fn : pyfunction F :=
  mk_pyfunction ["ans"; "a_entries"; "a_indices"; "b"; "sym_pos"]
    [("sym_pos", VBool false)]
    (λ env out,
       match assoc "ans" env, assoc "a_entries" env, assoc "a_indices" env,
             assoc "b" env, assoc "sym_pos" env with
       | Some (VFloats ans), Some (VFloats a_entries), Some (VIndices a_indices),
         Some (VFloats b), Some (VBool sym_pos) =>
           (Ok (VClosure (grad_solve_coo_entries splu_solve ans a_entries a_indices
                            b sym_pos)), out)
       | _, _, _, _, _ => (Raise TypeError, out)
       end).

(** [lambda: print('err: gradient undefined')] and
    [lambda: print('err: gradient not implemented')] *)
Definition lambda_gradient_undefined : pyfunction F :=
  mk_pyfunction [] [] (λ _ out, (Ok VNone, out ++ [OutText "err: gradient undefined"])).

Definition lambda_gradient_not_implemented : pyfunction F :=
  mk_pyfunction [] []
    (λ _ out, (Ok VNone, out ++ [OutText "err: gradient not implemented"])).

(** [autograd.extend.defvjp(solve_coo, ...)]: the rule makers, by position
    of the differentiated argument. *)
Definition solve_coo_vjpmakers : list (pyfunction F) :=
  [grad_solve_coo_entries_fn; lambda_gradient_undefined;
   lambda_gradient_not_implemented].

(** What autograd does when the gradient with respect to argument
    [argnum] of a call of [solve_coo] is wanted: it calls the maker
    registered for [argnum] with [ans], then the positional arguments of
    that call, then its keyword arguments, and applies the function the
    maker returns to the incoming gradient [g]. *)
Definition solve_coo_vjp (argnum : nat) (ans : list F) (args : list (pyval F))
    (kwargs : list (string * pyval F)) (g : list F) (out : list (output F))
    : pyresult (list F) * list (output F) :=
  match solve_coo_vjpmakers !! argnum with
  | None => (Raise NotImplementedError, out)
  | Some maker =>
      match call maker (VFloats ans :: args) kwargs out with
      | (Ok (VClosure vjp), out') => (vjp g, out')
      | (Ok _, out') => (Raise TypeError, out')
      | (Raise e, out') => (Raise e, out')
      end
  end.

End calls.

(** ** Reference instances of the external collaborators

    Used to run the program on concrete inputs: a dense Gauss-Jordan solver
    for [splu(a).solve], central differences for the gradient, and no
    smoothing for the filter.  The properties below hold for every solver,
    gradient and filter; these instances serve the worked examples. *)

Section reference.
Context `{Scalar F}.

Fixpoint find_pivot (col : nat) (rows : list (list F))
    : option (list F * list (list F)) :=
  match rows with
  | [] => None
  | r :: rs =>
      if fnonzero (default fzero (r !! col)) then Some (r, rs)
      else match find_pivot col rs with
           | Some (p, rest) => Some (p, r :: rest)
           | None => None
           end
  end.

Fixpoint eliminate (cols : list nat) (done todo : list (list F))
    : pyresult (list (list F)) :=
  match cols with
  | [] => Ok done
  | c :: cols' =>
      match find_pivot c todo with
      | None => Raise RuntimeError
      | Some (p, rest) =>
          let p' := (λ v, fdiv v (default fzero (p !! c))) <$> p in
          let clear r :=
            zip_with (λ a b, fsub a (fmul (default fzero (r !! c)) b)) r p' in
          eliminate cols' ((clear <$> done) ++ [p']) (clear <$> rest)
      end
  end.

Definition gauss_solve (a : list (list F)) (b : list F) : pyresult (list F) :=
  let n := length b in
  rows ← eliminate (seq 0 n) [] (zip_with (λ r v, r ++ [v]) a b);
  Ok ((λ i, default fzero (lookup2 rows i n)) <$> seq 0 n).

Definition fd_grad (h : F) (f : list F → pyresult F) (x : list F)
    : pyresult (list F) :=
  mapM_py (λ i,
    up ← f (alter (λ v, fadd v h) i x);
    down ← f (alter (λ v, fsub v h) i x);
    Ok (fdiv (fsub up down) (fmul (fint 2) h)))
    (seq 0 (length x)).

Definition no_filter (x : list (list F)) (width : F) : list (list F) := x.

End reference.

(** The 2 by 1 beam used in the examples below. *)
Definition beam_2x1 : ndarray3 Q * ndarray3 Q * Q := mbb_beam 2 1 (4 # 10)%Q 1 0.
Definition args_2x1 : Args Q := get_args beam_2x1.1.1 beam_2x1.1.2 beam_2x1.2.

(** Its initial density field and its element matrix. *)
Definition x_phys_2x1 : list (list Q) := [[(2 # 5)%Q; (2 # 5)%Q]].
Definition ke_2x1 : list (list Q) := get_stiffness_matrix 1%Q (3 # 10)%Q.

(** An optimizer that evaluates the constraint once, then the objective
    once, both at the starting point and without asking for a gradient. *)
Definition two_calls (x : list Q) : list (request Q) :=
  [EvalConstraint x []; EvalObjective x []].


(** ** The external smoothing filter

    [scipy.ndimage.gaussian_filter(x, sigma, mode='reflect')] as the SciPy
    documentation and sources describe it, over the reals: a scalar [sigma]
    is used for both axes; an axis is smoothed only when [sigma > 1e-15];
    the kernel has radius [int(4.0 * sigma + 0.5)] and weights
    [exp(-0.5 / sigma**2 * k**2)] divided by their sum; out-of-range
    positions are read by half-sample reflection.

    SciPy computes the radius in float64.  The radius below is computed
    over the reals: the two agree unless [4 * sigma + 1/2] lies within
    rounding distance below a whole number (as for sigma just under 1/8),
    and the properties of the filter are stated for widths where they
    agree, or do not depend on the radius. *)

Module Scipy.

(** Position read for index [i] outside [0 .. n-1] under mode 'reflect'
    (d c b a | a b c d | d c b a). *)
Definition reflect (n : nat) (i : Z) : nat :=
  let m := (i mod (2 * Z.of_nat n))%Z in
  Z.to_nat (if (m <? Z.of_nat n)%Z then m else (2 * Z.of_nat n - 1 - m)%Z).

Definition Rsum (l : list R) : R := foldr Rplus 0%R l.

Definition offsets (lw : nat) : list Z :=
  (λ t, (Z.of_nat t - Z.of_nat lw)%Z) <$> seq 0 (2 * lw + 1).

Definition gaussian_kernel1d (sigma : R) (lw : nat) : list R :=
  let phi := (λ k, exp (- / 2 / (sigma * sigma) * (IZR k * IZR k)))%R <$> offsets lw in
  (λ p, p / Rsum phi)%R <$> phi.

Definition correlate1d (weights : list R) (x : list R) : list R :=
  let lw := length weights / 2 in
  (λ i, Rsum (imap (λ j wj,
                (wj * nth (reflect (length x)
                             (Z.of_nat i + Z.of_nat j - Z.of_nat lw)) x 0)%R)
                weights))
    <$> seq 0 (length x).

Definition ndimage_gaussian_filter1d (sigma : R) (x : list R) : list R :=
  let lw := Z.to_nat (Int_part (4 * sigma + / 2)) in
  correlate1d (reverse (gaussian_kernel1d sigma lw)) x.

Definition ndimage_gaussian_filter (x : list (list R)) (sigma : R) : list (list R) :=
  if Rlt_dec (/ 1000000000000000) sigma then
    let '(nrows, ncols) := shape2 x in
    let x0 := transpose2 nrows (ndimage_gaussian_filter1d sigma <$> transpose2 ncols x) in
    ndimage_gaussian_filter1d sigma <$> x0
  else x.

End Scipy.

(** The unnormalised kernel weights. *)
Definition phis (sigma : R) (lw : nat) : list R :=
  (λ k, exp (- / 2 / (sigma * sigma) * (IZR k * IZR k)))%R <$> Scipy.offsets lw.




(** The mask [_get_dof_indices] computes for row DOFs [xs] and column DOFs
    [ys]. *)
Definition keep_mask (free xs ys : list nat) : list bool :=
  zip_with andb (isin ys free) (isin xs free).

(** [freedofs] and [fixdofs] split the DOFs [0 .. n-1]. *)
Definition valid_partition (n : nat) (freedofs fixdofs : list nat) : Prop :=
  freedofs ++ fixdofs ≡ₚ seq 0 n.

(** * Properties *)

(** ** Index arrays of the structured grid *)

Lemma join_cons {A} (x : list A) (ls : list (list A)) :
  mjoin (x :: ls) = x ++ mjoin ls.
Proof. done. Qed.

Section grids.
Context {A B C : Type}.

Lemma map2_zip2 {D} (f : C → D) (g : A → B → C) a b :
  map2 f (zip2 g a b) = zip2 (λ x y, f (g x y)) a b.
Proof.
  unfold map2, zip2. revert b; induction a as [|ra a IH]; intros [|rb b]; simpl; auto.
  f_equal; [|apply IH].
  revert rb; induction ra as [|x ra IHr]; intros [|y rb]; simpl; auto.
  f_equal. apply IHr.
Qed.

Lemma zip2_meshgrid (h : A → A → C) (xs ys : list A) :
  zip2 h (meshgrid xs ys).2 (meshgrid xs ys).1
  = (λ y, (λ x, h y x) <$> xs) <$> ys.
Proof.
  unfold zip2, meshgrid; simpl.
  induction ys as [|y ys IH]; simpl; [done|]. f_equal; [|done].
  clear. induction xs as [|x xs IH]; simpl; [done|]. by f_equal.
Qed.

Lemma zip_with_join (h : A → B → C) (a : list (list A)) (b : list (list B)) :
  Forall2 (λ ra rb, length ra = length rb) a b →
  zip_with h (mjoin a) (mjoin b) = mjoin (zip2 h a b).
Proof.
  unfold zip2. induction 1 as [|ra rb a b Hl _ IH]; simpl; [done|].
  rewrite zip_with_app by done. by f_equal.
Qed.

Lemma zip2_reshape_col (h : A → B → C) (a : list (list A)) (b : list (list B)) :
  zip2 h (reshape_col a) (reshape_col b)
  = (λ v, [v]) <$> zip_with h (mjoin a) (mjoin b).
Proof.
  unfold zip2, reshape_col.
  generalize (mjoin a) (mjoin b). clear.
  induction l as [|x l IH]; intros [|y l']; simpl; auto. by f_equal.
Qed.
End grids.

Lemma dof_arrays_funs nely (ely elx : list (list nat)) :
  dof_arrays (node_arrays nely ely elx) = (λ h, zip2 h elx ely) <$> dof_funs nely.
Proof.
  unfold dof_arrays, node_arrays, dof_funs. simpl.
  rewrite !map2_zip2. reflexivity.
Qed.

Lemma all_ixs_closed nely nelx :
  all_ixs nely nelx
  = (λ h : nat → nat → nat, (λ x, (λ y, h x y) <$> seq 0 nely) <$> seq 0 nelx)
      <$> dof_funs nely.
Proof.
  unfold all_ixs.
  change (dof_arrays (node_arrays nely (meshgrid (seq 0 nely) (seq 0 nelx)).1
                                       (meshgrid (seq 0 nely) (seq 0 nelx)).2) = 
  (λ h : nat → nat → nat, (λ x, (λ y, h x y) <$> seq 0 nely) <$> seq 0 nelx)
      <$> dof_funs nely).
  rewrite dof_arrays_funs.
  apply list_fmap_ext. intros _ h _. apply zip2_meshgrid.
Qed.

Section transpose.
Context {A : Type}.

Lemma transpose2_column (l : list A) :
  transpose2 1 ((λ v, [v]) <$> l) = [l].
Proof.
  induction l as [|x l IH]; [done|].
  rewrite fmap_cons. cbn [transpose2]. by rewrite IH.
Qed.

Lemma transpose2_column_fmap {H} (g : H → A) (hs : list H) :
  transpose2 1 ((λ h, [g h]) <$> hs) = [g <$> hs].
Proof.
  rewrite <- transpose2_column. f_equal. by rewrite <- list_fmap_compose.
Qed.

Lemma transpose2_table {P H} (g : H → P → A) (L : list P) (hs : list H) :
  transpose2 (length L) ((λ h, g h <$> L) <$> hs)
  = (λ p, (λ h, g h p) <$> hs) <$> L.
Proof.
  induction hs as [|h hs IH].
  - simpl. induction L as [|p L IHL]; simpl; [done|]. by f_equal.
  - rewrite fmap_cons. cbn [transpose2]. rewrite IH. clear.
    induction L as [|p L IHL]; simpl; [done|]. by f_equal.
Qed.
End transpose.

Lemma length_element_coords nely nelx :
  length (element_coords nely nelx) = nelx * nely.
Proof.
  unfold element_coords. rewrite <- (length_seq nelx 0) at 2.
  induction (seq 0 nelx) as [|x l IH]; [done|].
  rewrite bind_cons, length_app, length_fmap, length_seq, IH. done.
Qed.

Lemma zip_meshgrid_coords {C} (h : nat → nat → C) nely nelx :
  zip_with h (mjoin (meshgrid (seq 0 nely) (seq 0 nelx)).2)
             (mjoin (meshgrid (seq 0 nely) (seq 0 nelx)).1)
  = (λ p, h p.1 p.2) <$> element_coords nely nelx.
Proof.
  rewrite zip_with_join.
  - rewrite zip2_meshgrid. unfold element_coords.
    generalize (seq 0 nelx). intros l.
    induction l as [|x l IH]; [done|].
    rewrite fmap_cons, join_cons, bind_cons, fmap_app, IH. f_equal.
    by rewrite <- list_fmap_compose.
  - unfold meshgrid; simpl. generalize (seq 0 nelx). intros l.
    induction l as [|x l IH]; simpl; constructor; [|done].
    by rewrite length_fmap.
Qed.

Lemma edof_closed nely nelx :
  edof nely nelx
  = (λ p, (λ h : nat → nat → nat, h p.1 p.2) <$> dof_funs nely)
      <$> element_coords nely nelx.
Proof.
  unfold edof.
  change (default [] (head (transpose3 (nelx * nely) 1
            (dof_arrays (node_arrays nely
               (reshape_col (meshgrid (seq 0 nely) (seq 0 nelx)).1)
               (reshape_col (meshgrid (seq 0 nely) (seq 0 nelx)).2)))))
          = (λ p, (λ h : nat → nat → nat, h p.1 p.2) <$> dof_funs nely)
              <$> element_coords nely nelx).
  rewrite dof_arrays_funs. generalize (dof_funs nely); intros hs.
  erewrite list_fmap_ext; last first.
  { intros _ h _. rewrite zip2_reshape_col, zip_meshgrid_coords. reflexivity. }
  unfold transpose3.
  rewrite <- list_fmap_compose.
  erewrite (list_fmap_ext (transpose2 1 ∘ _)); last first.
  { intros _ h _. simpl. rewrite transpose2_column. reflexivity. }
  rewrite (transpose2_column_fmap
             (λ h : nat → nat → nat, (λ p, h p.1 p.2) <$> element_coords nely nelx)).
  simpl.
  rewrite <- length_element_coords.
  apply (transpose2_table (λ (h : nat → nat → nat) p, h p.1 p.2)).
Qed.

Section lookups.

Lemma lookup_bind_uniform {A B} (f : A → list B) (l : list A) (w r c : nat) :
  Forall (λ x, length (f x) = w) l → c < w →
  (l ≫= f) !! (r * w + c) = match l !! r with Some x => f x !! c | None => None end.
Proof.
  intros Hl Hc. revert r. induction Hl as [|x l Hx Hl IH]; intros r; [done|].
  rewrite bind_cons. destruct r as [|r]; simpl.
  - apply lookup_app_l. lia.
  - rewrite lookup_app_r by lia. rewrite <- IH. f_equal. lia.
Qed.

Lemma lookup_join_uniform {A} (rows : list (list A)) (w r c : nat) :
  Forall (λ x, length x = w) rows → c < w →
  mjoin rows !! (r * w + c) = lookup2 rows r c.
Proof.
  intros Hl Hc. rewrite list_join_bind.
  by rewrite (lookup_bind_uniform id rows w).
Qed.
End lookups.

Lemma lookup2_fmap {A B} (f : A → list B) (l : list A) i k :
  lookup2 (f <$> l) i k = match l !! i with Some x => f x !! k | None => None end.
Proof. unfold lookup2. rewrite list_lookup_fmap. by destruct (l !! i). Qed.

Lemma lookup_fmap_seq {B} (f : nat → B) n i :
  i < n → (f <$> seq 0 n) !! i = Some (f i).
Proof. intros. by rewrite list_lookup_fmap, lookup_seq_lt. Qed.

Lemma element_coords_lookup nely nelx i j :
  i < nelx → j < nely → element_coords nely nelx !! (i * nely + j) = Some (i, j).
Proof.
  intros Hi Hj. unfold element_coords.
  rewrite (lookup_bind_uniform _ _ nely) by
    (try done; apply Forall_forall; intros; by rewrite length_fmap, length_seq).
  rewrite lookup_seq_lt by done. by rewrite lookup_fmap_seq.
Qed.

Lemma dof_funs_length nely : length (dof_funs nely) = 8.
Proof. done. Qed.

Lemma edof_lookup nely nelx i j a h :
  i < nelx → j < nely → dof_funs nely !! a = Some h →
  lookup2 (edof nely nelx) (i * nely + j) a = Some (h i j).
Proof.
  intros Hi Hj Ha. rewrite edof_closed, lookup2_fmap.
  rewrite element_coords_lookup by done.
  by rewrite list_lookup_fmap, Ha.
Qed.

Lemma all_ixs_lookup nely nelx i j a h :
  i < nelx → j < nely → dof_funs nely !! a = Some h →
  lookup3 (all_ixs nely nelx) a i j = Some (h i j).
Proof.
  intros Hi Hj Ha. unfold lookup3.
  rewrite all_ixs_closed, list_lookup_fmap, Ha.
  change (lookup2 ((λ x, (λ y, h x y) <$> seq 0 nely) <$> seq 0 nelx) i j = Some (h i j)).
  rewrite lookup2_fmap, lookup_seq_lt by done. by rewrite lookup_fmap_seq.
Qed.

Lemma edof_rows nely nelx : Forall (λ r, length r = 8) (edof nely nelx).
Proof.
  rewrite edof_closed. apply Forall_fmap, Forall_forall. intros p _.
  unfold compose. by rewrite length_fmap.
Qed.

Lemma np_repeat_lookup {A} (a : list (list A)) (w k e i r : nat) :
  Forall (λ x, length x = w) a → i < w → r < k →
  np_repeat a k !! (e * (w * k) + i * k + r) = lookup2 a e i.
Proof.
  intros Ha Hi Hr. unfold np_repeat.
  replace (e * (w * k) + i * k + r) with ((e * w + i) * k + r) by lia.
  rewrite (lookup_join_uniform _ k) by
    (try done; apply Forall_fmap, Forall_forall; intros; apply length_replicate).
  unfold lookup2 at 1. rewrite list_lookup_fmap.
  rewrite (lookup_join_uniform _ w) by done.
  destruct (lookup2 a e i); simpl; [|done]. by apply lookup_replicate_2.
Qed.

Lemma mjoin_replicate_lookup {A} (row : list A) (k i r : nat) :
  i < k → r < length row →
  mjoin (replicate k row) !! (i * length row + r) = row !! r.
Proof.
  intros Hi Hr. rewrite (lookup_join_uniform _ (length row)); [|by apply Forall_replicate|done].
  unfold lookup2. by rewrite lookup_replicate_2.
Qed.

Lemma np_tile_lookup {A} (a : list (list A)) (w k e i r : nat) :
  Forall (λ x, length x = w) a → i < k → r < w →
  mjoin (np_tile a k) !! (e * (w * k) + i * w + r) = lookup2 a e r.
Proof.
  intros Ha Hi Hr. unfold np_tile.
  replace (e * (w * k) + i * w + r) with (e * (w * k) + (i * w + r)) by lia.
  assert (i * w + r < w * k) by nia.
  rewrite (lookup_join_uniform _ (w * k)); [|
    apply Forall_fmap; eapply Forall_impl; [exact Ha|]; simpl; intros x Hx;
    rewrite length_join, fmap_replicate, sum_list_replicate; lia | done].
  unfold lookup2. rewrite list_lookup_fmap.
  destruct (a !! e) as [row|] eqn:He; simpl; [|done].
  assert (length row = w) as <-.
  { rewrite Forall_forall in Ha. apply Ha. by eapply list_elem_of_lookup_2. }
  by apply mjoin_replicate_lookup.
Qed.


(** ** The DOF partition built by [get_args] *)

Section partition.
Context `{Scalar F}.

Lemma flatnonzero_from_bounds i (a : list F) :
  Forall (λ d, i ≤ d < i + length a) (flatnonzero_from i a).
Proof.
  revert i; induction a as [|v a IH]; intros i; simpl; [constructor|].
  specialize (IH (S i)).
  assert (Forall (λ d, i ≤ d < i + S (length a)) (flatnonzero_from (S i) a)).
  { eapply Forall_impl; [exact IH|]. simpl; intros; lia. }
  destruct (fnonzero v); [constructor; [lia|done]|done].
Qed.

Lemma flatnonzero_from_sorted i (a : list F) :
  StronglySorted lt (flatnonzero_from i a).
Proof.
  revert i; induction a as [|v a IH]; intros i; simpl; [constructor|].
  destruct (fnonzero v); [|apply IH].
  constructor; [apply IH|].
  eapply Forall_impl; [apply flatnonzero_from_bounds|]. simpl; intros; lia.
Qed.

Lemma sorted_difference_elem alldofs fixdofs d :
  d ∈ sorted_difference alldofs fixdofs ↔ d ∈ alldofs ∧ d ∉ fixdofs.
Proof.
  unfold sorted_difference. rewrite merge_sort_Permutation.
  rewrite elem_of_elements, elem_of_difference, !elem_of_list_to_set. done.
Qed.

Lemma sorted_difference_NoDup alldofs fixdofs :
  NoDup (sorted_difference alldofs fixdofs).
Proof.
  unfold sorted_difference. rewrite merge_sort_Permutation. apply NoDup_elements.
Qed.

Lemma sorted_le_NoDup_lt (l : list nat) :
  Sorted le l → NoDup l → StronglySorted lt l.
Proof.
  intros Hs Hn. apply Sorted_StronglySorted in Hs; [|intros ???; lia].
  induction Hs as [|x l Hs IH Hx]; [constructor|].
  apply NoDup_cons in Hn as [Hx' Hn]. constructor; [by apply IH|].
  rewrite Forall_forall in Hx |- *. intros y Hy.
  specialize (Hx y Hy). assert (x ≠ y) by (intros ->; done). lia.
Qed.

Lemma sorted_difference_sorted alldofs fixdofs :
  StronglySorted lt (sorted_difference alldofs fixdofs).
Proof.
  apply sorted_le_NoDup_lt; [|apply sorted_difference_NoDup].
  unfold sorted_difference. apply (Sorted_merge_sort le).
Qed.

Lemma StronglySorted_lt_NoDup (l : list nat) : StronglySorted lt l → NoDup l.
Proof.
  induction 1 as [|x l Hs IH Hx]; [constructor|].
  apply NoDup_cons; split; [|done].
  intros Hin. rewrite Forall_forall in Hx. specialize (Hx x Hin). lia.
Qed.

(** C7: for a normals array of shape (width+1, height+1, 2), the sets
    [freedofs] and [fixdofs] computed by [get_args] cover exactly the
    2*(width+1)*(height+1) DOFs, are disjoint, their lengths add up to the
    DOF count, and each is strictly increasing (sorted, no duplicates). *)
Theorem get_args_dof_partition (normals forces_ : ndarray3 F) (dens : F) :
  wf_ndarray3 normals →
  (shape3 normals).2 = 2 →
  let a := get_args normals forces_ dens in
  let n := total_dofs (nelx a) (nely a) in
  (∀ d, d ∈ freedofs a ∨ d ∈ fixdofs a ↔ d < n) ∧
  (∀ d, d ∈ freedofs a → d ∉ fixdofs a) ∧
  length (freedofs a) + length (fixdofs a) = n ∧
  StronglySorted lt (freedofs a) ∧
  StronglySorted lt (fixdofs a) ∧
  valid_partition n (freedofs a) (fixdofs a).
Proof.
  intros Hwf Hsh a n.
  assert (Hn : n = length (ravel normals)).
  { subst n a. unfold total_dofs, get_args; simpl.
    rewrite Hwf, Hsh. lia. }
  assert (Hall : arange (2 * (nelx a + 1) * (nely a + 1)) = seq 0 n) by done.
  assert (Hfix : ∀ d, d ∈ fixdofs a → d < n).
  { intros d Hd. simpl in Hd. unfold flatnonzero in Hd.
    pose proof (flatnonzero_from_bounds 0 (ravel normals)) as Hb.
    rewrite Forall_forall in Hb. specialize (Hb d Hd). lia. }
  assert (Hfree : ∀ d, d ∈ freedofs a ↔ d < n ∧ d ∉ fixdofs a).
  { intros d. simpl freedofs. rewrite sorted_difference_elem.
    fold (fixdofs a). unfold get_args in Hall; simpl in Hall. rewrite Hall.
    rewrite elem_of_seq. intuition lia. }
  assert (Hcover : ∀ d, d ∈ freedofs a ∨ d ∈ fixdofs a ↔ d < n).
  { intros d. rewrite Hfree. split; [intros [[? _]|?]; auto|].
    intros Hd. destruct (decide (d ∈ fixdofs a)); auto. }
  assert (Hdisj : ∀ d, d ∈ freedofs a → d ∉ fixdofs a).
  { intros d Hd. by apply Hfree in Hd as [_ ?]. }
  assert (Hsf : StronglySorted lt (freedofs a)) by apply sorted_difference_sorted.
  assert (Hsx : StronglySorted lt (fixdofs a)) by apply flatnonzero_from_sorted.
  assert (Hperm : valid_partition n (freedofs a) (fixdofs a)).
  { apply NoDup_Permutation.
    - apply NoDup_app; split_and!; auto using StronglySorted_lt_NoDup.
    - apply NoDup_seq.
    - intros d. rewrite elem_of_app, Hcover, elem_of_seq. lia. }
  split_and!; auto.
  rewrite <- length_app. unfold valid_partition in Hperm.
  rewrite Hperm, length_seq. done.
Qed.

End partition.

(** C7 on the supports of the 2 by 1 beam. *)
Lemma get_args_dof_partition_witness :
  let a := get_args beam_2x1.1.1 beam_2x1.1.2 beam_2x1.2 in
  let n := total_dofs (nelx a) (nely a) in
  (∀ d, d ∈ freedofs a ∨ d ∈ fixdofs a ↔ d < n) ∧
  (∀ d, d ∈ freedofs a → d ∉ fixdofs a) ∧
  length (freedofs a) + length (fixdofs a) = n ∧
  StronglySorted lt (freedofs a) ∧
  StronglySorted lt (fixdofs a) ∧
  valid_partition n (freedofs a) (fixdofs a).
Proof.
  apply (get_args_dof_partition beam_2x1.1.1 beam_2x1.1.2 beam_2x1.2).
  - reflexivity.
  - reflexivity.
Defined.
Lemma dof_funs_lookup nely a : a < 8 → is_Some (dof_funs nely !! a).
Proof. intros Ha. apply lookup_lt_is_Some. by rewrite dof_funs_length. Qed.

Lemma bind_Ok {A B} (r : pyresult A) (k : A → pyresult B) b :
  r ≫= k = Ok b → ∃ a, r = Ok a ∧ k a = Ok b.
Proof. destruct r as [a|e]; [eauto|discriminate]. Qed.

Lemma mapM_py_lookup {A B} (f : A → pyresult B) l r i x :
  mapM_py f l = Ok r → l !! i = Some x → ∃ y, r !! i = Some y ∧ f x = Ok y.
Proof.
  revert r i; induction l as [|a l IH]; intros r i Hm Hi; [done|].
  simpl in Hm.
  apply bind_Ok in Hm as (v & Hv & Hm). apply bind_Ok in Hm as (v0 & Hv0 & Hm).
  injection Hm as <-.
  destruct i as [|i]; simpl in *; [injection Hi as <-; eauto|].
  eapply IH; eauto.
Qed.

Lemma take_ix_lookup {A} (u : list A) ix r k d :
  take_ix u ix = Ok r → ix !! k = Some d → is_Some (u !! d) ∧ r !! k = u !! d.
Proof.
  revert r k; induction ix as [|i ix IH]; intros r k Ht Hk; [done|].
  simpl in Ht. destruct (u !! i) as [v|] eqn:Hv; [|done].
  apply bind_Ok in Ht as (v0 & Hv0 & Ht). injection Ht as <-.
  destruct k as [|k]; simpl in *; [injection Hk as <-; rewrite Hv; eauto|].
  eapply IH; eauto.
Qed.

Lemma mapM_py_take_ix_lookup3 {A} (u : list A) ixs us a i j d :
  mapM_py (mapM_py (take_ix u)) ixs = Ok us →
  lookup3 ixs a i j = Some d →
  is_Some (u !! d) ∧ lookup3 us a i j = u !! d.
Proof.
  unfold lookup3, lookup2. intros Hm Hd.
  destruct (ixs !! a) as [p|] eqn:Hp; [|done].
  destruct (p !! i) as [row|] eqn:Hrow; [|done].
  destruct (mapM_py_lookup _ _ _ _ _ Hm Hp) as (p' & -> & Hm').
  destruct (mapM_py_lookup _ _ _ _ _ Hm' Hrow) as (row' & -> & Ht).
  eapply take_ix_lookup; eauto.
Qed.

(** For the element in column [i] and row [j] of a grid of shape
    (nely, nelx), the DOFs found in [all_ixs] are those of row
    [i * nely + j] of [edof], which are the row and column DOFs of that
    element's 64 triplets in [get_k]. *)
Lemma all_ixs_match_edof `{Scalar F} (stiffness ke : list (list F))
    (nely nelx i j a b : nat) :
  shape2 stiffness = (nely, nelx) →
  i < nelx → j < nely → a < 8 → b < 8 →
  let e := i * nely + j in
  ∃ da db,
    lookup3 (all_ixs nely nelx) a i j = Some da ∧
    lookup3 (all_ixs nely nelx) b i j = Some db ∧
    lookup2 (edof nely nelx) e a = Some da ∧
    lookup2 (edof nely nelx) e b = Some db ∧
    (get_k stiffness ke).2 !! (e * 64 + a * 8 + b) = Some da ∧
    (get_k stiffness ke).1.2 !! (e * 64 + a * 8 + b) = Some db ∧
    (∀ (u : list F) us,
       mapM_py (mapM_py (take_ix u)) (all_ixs nely nelx) = Ok us →
       is_Some (u !! da) ∧ lookup3 us a i j = u !! da).
Proof.
  intros Hsh Hi Hj Ha Hb e.
  destruct (dof_funs_lookup nely a Ha) as [ha Hha].
  destruct (dof_funs_lookup nely b Hb) as [hb Hhb].
  exists (ha i j), (hb i j).
  pose proof (edof_lookup nely nelx i j a ha Hi Hj Hha) as Ea.
  pose proof (edof_lookup nely nelx i j b hb Hi Hj Hhb) as Eb.
  split_and!; auto using all_ixs_lookup.
  - unfold get_k. rewrite Hsh. cbn [snd fst].
    rewrite <- Ea. apply (np_repeat_lookup _ 8 8); auto using edof_rows.
  - unfold get_k. rewrite Hsh. cbn [snd fst].
    rewrite <- Eb. apply (np_tile_lookup _ 8 8); auto using edof_rows.
  - intros u us Hus. eapply mapM_py_take_ix_lookup3; eauto using all_ixs_lookup.
Qed.

Lemma bind_ret {A B} (a : A) (k : A → pyresult B) : Ok a ≫= k = k a.
Proof. done. Qed.

Lemma take_ix_Ok {A} (a : list A) (ix : list nat) :
  Forall (λ i, i < length a) ix →
  ∃ r, take_ix a ix = Ok r ∧ length r = length ix.
Proof.
  induction 1 as [|i ix Hi _ (r & Hr & Hlen)]; simpl; [by eexists|].
  destruct (lookup_lt_is_Some_2 a i Hi) as [v ->].
  rewrite Hr. simpl. eexists; split; [done|]. simpl. by rewrite Hlen.
Qed.

Lemma scatter_arange_spec (indices : list nat) (k : nat) (buf : list nat) :
  Forall (λ i, i < length buf) indices → NoDup indices →
  ∃ im, scatter_arange indices k buf = Ok im ∧ length im = length buf ∧
        (∀ t d, indices !! t = Some d → im !! d = Some (k + t)) ∧
        (∀ d, d ∉ indices → im !! d = buf !! d).
Proof.
  intros Hb Hn. revert k buf Hb.
  induction Hn as [|i rest Hi Hn IH]; intros k buf Hb; simpl.
  - exists buf. split_and!; auto. intros ???; done.
  - apply Forall_cons in Hb as [Hib Hb].
    rewrite decide_True by done.
    destruct (IH (S k) (<[i:=k]> buf)) as (im & Him & Hlen & Hin & Hout).
    { by rewrite length_insert. }
    exists im. rewrite length_insert in Hlen. split_and!; auto.
    + intros [|t] d Hd; simpl in Hd.
      * injection Hd as <-. rewrite Hout by done.
        rewrite list_lookup_insert_eq by done. f_equal; lia.
      * rewrite (Hin t d Hd). f_equal; lia.
    + intros d Hd. apply not_elem_of_cons in Hd as [Hne Hd].
      rewrite Hout by done. by rewrite list_lookup_insert_ne.
Qed.

Lemma inverse_permutation_spec (indices : list nat) :
  indices ≡ₚ seq 0 (length indices) →
  ∃ im, inverse_permutation indices = Ok im ∧ length im = length indices ∧
        (∀ t d, indices !! t = Some d → im !! d = Some t).
Proof.
  intros Hp. unfold inverse_permutation.
  destruct (scatter_arange_spec indices 0 (replicate (length indices) 0))
    as (im & Him & Hlen & Hin & _).
  - rewrite length_replicate. rewrite Forall_forall. intros d Hd.
    rewrite Hp in Hd. apply elem_of_seq in Hd. lia.
  - rewrite Hp. apply NoDup_seq.
  - exists im. rewrite length_replicate in Hlen. split_and!; auto.
Qed.

Lemma elem_of_element_coords nely nelx p :
  p ∈ element_coords nely nelx ↔ p.1 < nelx ∧ p.2 < nely.
Proof.
  unfold element_coords. rewrite list_elem_of_bind. split.
  - intros (x & Hp & Hx). apply list_elem_of_fmap in Hp as (y & -> & Hy).
    apply elem_of_seq in Hx, Hy. simpl. lia.
  - intros [H1 H2]. exists p.1. split; [|apply elem_of_seq; lia].
    apply list_elem_of_fmap. exists p.2. split; [by destruct p|apply elem_of_seq; lia].
Qed.

Lemma edof_bound nely nelx :
  Forall (Forall (λ d, d < 2 * (nelx + 1) * (nely + 1))) (edof nely nelx).
Proof.
  rewrite edof_closed. apply Forall_fmap, Forall_forall. intros [x y] Hp.
  apply elem_of_element_coords in Hp as [Hx Hy]. simpl in Hx, Hy.
  unfold compose, dof_funs. simpl. repeat constructor; nia.
Qed.

Lemma get_k_dofs_bound `{Scalar F} (stiffness ke : list (list F)) nely nelx :
  shape2 stiffness = (nely, nelx) →
  Forall (λ d, d < 2 * (nelx + 1) * (nely + 1)) (get_k stiffness ke).1.2 ∧
  Forall (λ d, d < 2 * (nelx + 1) * (nely + 1)) (get_k stiffness ke).2.
Proof.
  intros Hsh. unfold get_k. rewrite Hsh. cbn [fst snd].
  pose proof (edof_bound nely nelx) as Hb. split.
  - unfold np_tile. apply Forall_join, Forall_fmap.
    eapply Forall_impl; [exact Hb|]. intros row Hrow. unfold compose.
    apply Forall_join. by apply Forall_replicate.
  - unfold np_repeat. apply Forall_join, Forall_fmap.
    apply Forall_join in Hb.
    eapply Forall_impl; [exact Hb|]. intros d Hd. unfold compose.
    by apply Forall_replicate.
Qed.



(** ** Triplets of the assembled system *)




Lemma fmap_join {A B} (f : A → B) (ls : list (list A)) :
  f <$> mjoin ls = mjoin (fmap f <$> ls).
Proof.
  induction ls as [|l ls IH]; [done|].
  by rewrite fmap_cons, !join_cons, fmap_app, IH.
Qed.

Section block_pick.
Context {V : Type} (g : V → V) (dr dc : nat).

Local Abbreviation P := (λ t : V * (nat * nat), t.2.1 = dr ∧ t.2.2 = dc).


End block_pick.


(** *** The triplet list of [get_k], element by element *)




(** *** Masking and reindexing, as a filter on triplets *)

Section kept.
Context {V : Type} (f : nat → nat) (free : list nat).

Local Abbreviation keep := (keep_mask free).


End kept.


Lemma take_ix_fmap (im : list nat) (ix : list nat) :
  Forall (λ i, i < length im) ix →
  take_ix im ix = Ok ((λ d, default 0 (im !! d)) <$> ix).
Proof.
  induction 1 as [|i ix Hi _ IH]; [done|]. simpl.
  destruct (lookup_lt_is_Some_2 im i Hi) as [v Hv]. rewrite Hv, IH. done.
Qed.

(** ** Displacement *)


Lemma length_join_uniform {A} (ls : list (list A)) w :
  Forall (λ r, length r = w) ls → length (mjoin ls) = length ls * w.
Proof.
  induction 1 as [|l ls Hl _ IH]; [done|].
  rewrite join_cons, length_app, IH, Hl. simpl. lia.
Qed.

Lemma Forall_zip_with_cons {A} (row : list A) (t : list (list A)) m :
  Forall (λ c, length c = m) t →
  Forall (λ c, length c = S m) (zip_with cons row t).
Proof.
  intros Ht. revert row. induction Ht as [|c t Hc Ht IH]; intros [|x row]; simpl;
    constructor; [by rewrite <- Hc|apply IH].
Qed.

Lemma transpose2_shape {A} n (a : list (list A)) :
  Forall (λ r, length r = n) a →
  length (transpose2 n a) = n ∧ Forall (λ c, length c = length a) (transpose2 n a).
Proof.
  induction 1 as [|row a Hrow Ha [IHl IHf]]; simpl.
  - split; [apply length_replicate|]. by apply Forall_replicate.
  - split; [rewrite length_zip_with; lia|]. by apply Forall_zip_with_cons.
Qed.

Lemma length_bind_uniform {A B} (f : A → list B) (l : list A) w :
  (∀ x, length (f x) = w) → length (l ≫= f) = length l * w.
Proof.
  intros Hf. induction l as [|x l IH]; [done|].
  rewrite bind_cons, length_app, IH, Hf. simpl. lia.
Qed.

Lemma length_edof nely nelx : length (edof nely nelx) = nelx * nely.
Proof. by rewrite edof_closed, length_fmap, length_element_coords. Qed.

Lemma shape2_map2 {A B} (f : A → B) (a : list (list A)) :
  shape2 (map2 f a) = shape2 a.
Proof.
  unfold shape2, map2. rewrite length_fmap. f_equal.
  destruct a; simpl; [done|]. by rewrite length_fmap.
Qed.

Lemma length_get_k `{Scalar F} (stiffness ke : list (list F)) nely nelx :
  shape2 stiffness = (nely, nelx) →
  Forall (λ r, length r = nelx) stiffness →
  length ke = 8 → Forall (λ r, length r = 8) ke →
  length (get_k stiffness ke).1.1 = nelx * nely * 64 ∧
  length (get_k stiffness ke).1.2 = nelx * nely * 64 ∧
  length (get_k stiffness ke).2 = nelx * nely * 64.
Proof.
  intros Hsh Hrect Hke Hrows. unfold get_k. rewrite Hsh. cbn [fst snd].
  assert (nely = length stiffness) as Hny by (by injection Hsh).
  pose proof (edof_rows nely nelx) as HE.
  assert (length (mjoin (edof nely nelx)) = nelx * nely * 8) as HjE.
  { by rewrite (length_join_uniform _ 8), length_edof. }
  split_and!.
  - rewrite (length_bind_uniform _ _ 64).
    + destruct (transpose2_shape nelx stiffness Hrect) as [Hl Hf].
      rewrite (length_join_uniform _ (length stiffness)), Hl by done. lia.
    + intros s. unfold map2. rewrite (length_join_uniform _ 8).
      * rewrite length_fmap. lia.
      * apply Forall_fmap. eapply Forall_impl; [exact Hrows|].
        intros r Hr. unfold compose. by rewrite length_fmap.
  - unfold np_tile. rewrite (length_join_uniform _ 64).
    + rewrite length_fmap, length_edof. done.
    + apply Forall_fmap. eapply Forall_impl; [exact HE|]. intros r Hr. unfold compose.
      rewrite (length_join_uniform _ 8); [by rewrite length_replicate|].
      by apply Forall_replicate.
  - unfold np_repeat. rewrite (length_join_uniform _ 8).
    + rewrite length_fmap, HjE. lia.
    + apply Forall_fmap, Forall_forall. intros d _. apply length_replicate.
Qed.

Lemma select_mask_Ok {A} (a : list A) (m : list bool) :
  length a = length m → select_mask a m = Ok (mask_filter a m).
Proof. intros Hl. unfold select_mask. by rewrite decide_True. Qed.

Lemma broadcast2_Ok {A B C} (f : A → B → C) a b :
  length a = length b → broadcast2 f a b = Ok (zip_with f a b).
Proof. intros Hl. unfold broadcast2. by rewrite decide_True. Qed.

Lemma get_dof_indices_spec (free fixed xs ys : list nat) (n : nat) :
  valid_partition n free fixed →
  Forall (λ d, d < n) xs → Forall (λ d, d < n) ys → length xs = length ys →
  ∃ im, length im = n ∧
        (∀ t d, (free ++ fixed) !! t = Some d → im !! d = Some t) ∧
        let f := λ d, default 0 (im !! d) in
        let keep := zip_with andb (isin xs free) (isin ys free) in
        _get_dof_indices free fixed xs ys
        = Ok (im, keep, [mask_filter (f <$> ys) keep; mask_filter (f <$> xs) keep]).
Proof.
  intros Hvp Hxs Hys Hlen.
  assert (Hn : length (free ++ fixed) = n).
  { unfold valid_partition in Hvp. by rewrite Hvp, length_seq. }
  destruct (inverse_permutation_spec (free ++ fixed)) as (im & Him & Himl & Himx).
  { by rewrite Hn. }
  rewrite Hn in Himl. exists im. split_and!; [done..|].
  intros f keep. unfold _get_dof_indices.
  rewrite Him, bind_ret, broadcast2_Ok by (unfold isin; by rewrite !length_fmap).
  rewrite bind_ret, (take_ix_fmap im ys), bind_ret by (by rewrite Himl).
  assert (length keep = length xs) as Hk.
  { unfold keep, isin. rewrite length_zip_with, !length_fmap. lia. }
  rewrite select_mask_Ok, bind_ret by (rewrite length_fmap; fold keep; lia).
  rewrite (take_ix_fmap im xs), bind_ret by (by rewrite Himl).
  rewrite select_mask_Ok, bind_ret by (rewrite length_fmap; fold keep; lia).
  done.
Qed.

Section displace.
Context `{Scalar F}.
Variable splu_solve : list (list F) → list F → pyresult (list F).
Hypothesis splu_solve_length :
  ∀ a b u, splu_solve a b = Ok u → length u = length b.


End displace.


Lemma valid_partition_2x1 :
  valid_partition (2 * (2 + 1) * (1 + 1)) (freedofs args_2x1) (fixdofs args_2x1).
Proof. unfold valid_partition. apply (bool_decide_unpack _). vm_compute. exact I. Qed.


(** ** The reduced system *)





Section reduced.
Context `{Scalar F}.

End reduced.



Section symmetric.
Context `{Scalar F}.

End symmetric.

(** ** Element matrix and adjoint rule *)


Section stiffness.
Context `{Scalar F}.

Lemma get_stiffness_matrix_shape (e nu : F) :
  length (get_stiffness_matrix e nu) = 8 ∧
  Forall (λ r, length r = 8) (get_stiffness_matrix e nu).
Proof. split; [done|]. unfold get_stiffness_matrix. simpl. repeat constructor. Qed.

Lemma get_stiffness_matrix_symmetric (e nu : F) (a b : nat) :
  lookup2 (get_stiffness_matrix e nu) a b = lookup2 (get_stiffness_matrix e nu) b a.
Proof.
  unfold get_stiffness_matrix.
  generalize (fdiv e (fsub (fint 1) (fpow nu (fint 2)))) as scale.
  generalize (stiffness_coeffs nu) as k. intros k scale.
  do 8 (destruct a as [|a]; [do 8 (destruct b as [|b]; [reflexivity|]); by destruct b|]).
  do 8 (destruct b as [|b]; [reflexivity|]). reflexivity.
Qed.
End stiffness.


Section adjoint.
Context `{Scalar F}.
Variable splu_solve : list (list F) → list F → pyresult (list F).

(** C1: the rule registered for [a_entries] solves the system with the
    same entries against the incoming gradient [grad_ans], on the index
    pattern [a_indices] when [sym_pos] holds and on the swapped pattern
    [a_indices[::-1]] otherwise; with the solution [lambda_] it returns,
    for the entry at (row, col) = (i[t], j[t]), the value
    [-lambda_[row] * ans[col]], where [ans] is the forward solution. *)
Theorem grad_solve_coo_entries_rule (ans a_entries : list F) (i j : list nat)
    (b grad_ans lambda_ : list F) (sym_pos : bool) :
  length i = length j →
  Forall (λ r, r < length lambda_) i →
  Forall (λ c, c < length ans) j →
  solve_coo splu_solve a_entries (if sym_pos then [i; j] else [j; i]) grad_ans sym_pos
    = Ok lambda_ →
  ∃ g, grad_solve_coo_entries splu_solve ans a_entries [i; j] b sym_pos grad_ans = Ok g ∧
       length g = length i ∧
       ∀ t r c, i !! t = Some r → j !! t = Some c →
         ∃ lr uc, lambda_ !! r = Some lr ∧ ans !! c = Some uc ∧
                  g !! t = Some (fmul (fopp lr) uc).
Proof.
  intros Hlen Hi Hj Hsolve.
  destruct (take_ix_Ok lambda_ i Hi) as (li & Hli & Hlil).
  destruct (take_ix_Ok ans j Hj) as (aj & Haj & Hajl).
  exists (zip_with fmul (fopp <$> li) aj). split_and!.
  - unfold grad_solve_coo_entries.
    replace (if sym_pos then [i; j] else reverse [i; j])
      with (if sym_pos then [i; j] else [j; i]) by (by destruct sym_pos).
    rewrite Hsolve, bind_ret, Hli, bind_ret, Haj, bind_ret.
    unfold mul_arrays. apply broadcast2_Ok. rewrite length_fmap. lia.
  - rewrite length_zip_with, length_fmap. lia.
  - intros t r c Hr Hc.
    destruct (take_ix_lookup _ _ _ _ _ Hli Hr) as [[lr Hlr] Hlit].
    destruct (take_ix_lookup _ _ _ _ _ Haj Hc) as [[uc Huc] Hajt].
    exists lr, uc. split_and!; [done..|].
    rewrite lookup_zip_with, list_lookup_fmap, Hlit, Hlr, Hajt, Huc. done.
Qed.

Lemma grad_solve_coo_entries_solve_fails (ans a_entries : list F) (a_indices : list (list nat))
    (b grad_ans : list F) (sym_pos : bool) e :
  solve_coo splu_solve a_entries (if sym_pos then a_indices else reverse a_indices)
    grad_ans sym_pos = Raise e →
  grad_solve_coo_entries splu_solve ans a_entries a_indices b sym_pos grad_ans = Raise e.
Proof. intros Hs. unfold grad_solve_coo_entries. by rewrite Hs. Qed.
End adjoint.

(** C1 on the system [[2, 1], [1, 3]] u = [1, 2], whose solution is
    [1/5, 3/5], with the incoming gradient [1, 0]. *)
Lemma grad_solve_coo_entries_rule_witness :
  ∃ g, grad_solve_coo_entries gauss_solve [(1 # 5)%Q; (3 # 5)%Q]
         [2%Q; 1%Q; 1%Q; 3%Q] [[0; 0; 1; 1]; [0; 1; 0; 1]] [1%Q; 2%Q] true [1%Q; 0%Q]
       = Ok g ∧
       length g = length [0; 0; 1; 1] ∧
       ∀ t r c, [0; 0; 1; 1] !! t = Some r → [0; 1; 0; 1] !! t = Some c →
         ∃ lr uc, [(3 # 5)%Q; (-1 # 5)%Q] !! r = Some lr ∧
                  [(1 # 5)%Q; (3 # 5)%Q] !! c = Some uc ∧
                  g !! t = Some (fmul (fopp lr) uc).
Proof.
  apply (grad_solve_coo_entries_rule gauss_solve [(1 # 5)%Q; (3 # 5)%Q]
           [2%Q; 1%Q; 1%Q; 3%Q] [0; 0; 1; 1] [0; 1; 0; 1] [1%Q; 2%Q] [1%Q; 0%Q]
           [(3 # 5)%Q; (-1 # 5)%Q] true).
  - reflexivity.
  - repeat constructor.
  - repeat constructor.
  - vm_compute. reflexivity.
Defined.

(** ** Reverse-mode rules that are not provided, and the callbacks *)


Section vjp.
Context `{Scalar F}.
Variable splu_solve : list (list F) → list F → pyresult (list F).

(** C6: asking for the gradient of [solve_coo] with respect to the index
    pattern (argument 1) or the right-hand side (argument 2) raises
    TypeError, because the registered handler takes no parameters; the
    handler's message is never printed. *)
Theorem unsupported_gradient_raises_TypeError (ans : list F)
    (args : list (pyval F)) (kwargs : list (string * pyval F)) (g : list F)
    (out : list (output F)) :
  solve_coo_vjp splu_solve 1 ans args kwargs g out = (Raise TypeError, out) ∧
  solve_coo_vjp splu_solve 2 ans args kwargs g out = (Raise TypeError, out).
Proof. by split. Qed.

(** Called with no argument at all, the two handlers print their message
    and return None: they do not raise. *)
Lemma unsupported_gradient_handlers_return_None (out : list (output F)) :
  call lambda_gradient_undefined [] [] out
    = (Ok VNone, out ++ [OutText "err: gradient undefined"]) ∧
  call lambda_gradient_not_implemented [] [] out
    = (Ok VNone, out ++ [OutText "err: gradient not implemented"]).
Proof. split; reflexivity. Qed.
End vjp.

Section wrapper.
Context `{Scalar F}.
Variable autograd_grad : (list F → pyresult F) → list F → pyresult (list F).

Lemma wrapper_record_result (args : Args F) verbose losses frames x value (w : world F) :
  autograd_calls (wrapper_record args verbose losses frames x value w).2
    = autograd_calls w ∧
  ((wrapper_record args verbose losses frames x value w).1 = Ok value ∨
   ∃ e, (wrapper_record args verbose losses frames x value w).1 = Raise e) ∧
  (frames = None →
   (wrapper_record args verbose losses frames x value w).1 = Ok value).
Proof.
  unfold wrapper_record.
  destruct frames as [fl|]; [|by destruct losses; split_and!; auto].
  destruct (reshape2 x (nely args) (nelx args)) as [fr|e].
  - destruct verbose; [repeat case_decide|];
      destruct losses; split_and!; eauto; done.
  - destruct losses; split_and!; eauto; done.
Qed.

Lemma wrapper_record_independent (args : Args F) verbose losses frames x value
    (w1 w2 : world F) :
  (wrapper_record args verbose losses frames x value w1).1
  = (wrapper_record args verbose losses frames x value w2).1.
Proof.
  unfold wrapper_record. destruct frames as [fl|]; [|done].
  destruct (reshape2 x (nely args) (nelx args)) as [fr|e]; [|done].
  destruct verbose; [|done]. by repeat case_decide.
Qed.

Lemma wrap_autograd_func_unfold (args : Args F) verbose func losses frames x grad w :
  wrap_autograd_func autograd_grad args verbose func losses frames x grad w
  = match (wrapper_evaluate autograd_grad func x grad w).1.1 with
    | Raise e => (Raise e, (wrapper_evaluate autograd_grad func x grad w).1.2,
                  (wrapper_evaluate autograd_grad func x grad w).2)
    | Ok value =>
        ((wrapper_record args verbose losses frames x value
            (wrapper_evaluate autograd_grad func x grad w).2).1,
         (wrapper_evaluate autograd_grad func x grad w).1.2,
         (wrapper_record args verbose losses frames x value
            (wrapper_evaluate autograd_grad func x grad w).2).2)
    end.
Proof.
  unfold wrap_autograd_func.
  destruct (wrapper_evaluate autograd_grad func x grad w) as [[[v|e] g1] w1];
    cbn [fst snd]; [|done].
  by destruct (wrapper_record args verbose losses frames x v w1).
Qed.

Lemma wrapper_evaluate_empty func x grad (w : world F) :
  length grad = 0 →
  wrapper_evaluate autograd_grad func x grad w = (func x, grad, w).
Proof. intros Hg. unfold wrapper_evaluate. by rewrite decide_False by lia. Qed.

Lemma wrapper_evaluate_nonempty func x grad (w : world F) :
  0 < length grad →
  autograd_calls (wrapper_evaluate autograd_grad func x grad w).2
    = autograd_calls w ++ [x] ∧
  heap (wrapper_evaluate autograd_grad func x grad w).2 = heap w ∧
  ∀ v g, func x = Ok v → autograd_grad func x = Ok g → length g = length grad →
         wrapper_evaluate autograd_grad func x grad w = (Ok v, g, note_autograd x w).
Proof.
  intros Hg. unfold wrapper_evaluate, value_and_grad. rewrite decide_True by lia.
  split_and!.
  - destruct (func x); [|done]. rewrite bind_ret.
    destruct (autograd_grad func x) as [g|]; [|done]. rewrite bind_ret.
    by destruct (assign_slice grad g).
  - destruct (func x); [|done]. rewrite bind_ret.
    destruct (autograd_grad func x) as [g|]; [|done]. rewrite bind_ret.
    by destruct (assign_slice grad g).
  - intros v g -> -> Hl. rewrite !bind_ret. unfold assign_slice.
    by rewrite decide_True.
Qed.

(** C10: called with an empty gradient buffer, the callback evaluates
    [func] alone (reverse-mode differentiation is not run), leaves the
    buffer as it is and returns the value of [func], unless the
    bookkeeping that follows raises; with a non-empty buffer it runs
    [value_and_grad] and overwrites the buffer with the gradient. *)
Theorem wrapper_gradient_buffer (args : Args F) (verbose : bool)
    (func : list F → pyresult F) (losses frames : option nat)
    (x grad : list F) (w : world F) :
  let res := wrap_autograd_func autograd_grad args verbose func losses frames x grad w in
  (length grad = 0 →
     res.1.2 = grad ∧
     autograd_calls res.2 = autograd_calls w ∧
     (res.1.1 = func x ∨ ∃ v e, func x = Ok v ∧ res.1.1 = Raise e) ∧
     (frames = None → res.1.1 = func x)) ∧
  (0 < length grad →
     autograd_calls res.2 = autograd_calls w ++ [x] ∧
     ∀ v g, func x = Ok v → autograd_grad func x = Ok g →
            length g = length grad → res.1.2 = g).
Proof.
  intros res. subst res. rewrite wrap_autograd_func_unfold. split.
  - intros Hg. rewrite wrapper_evaluate_empty by done. cbn [fst snd].
    destruct (func x) as [v|e] eqn:Hf; [|by split_and!; auto].
    destruct (wrapper_record_result args verbose losses frames x v w)
      as (Hcalls & Hres & Hnone).
    cbn [fst snd]. split_and!; [done|done| |done].
    destruct Hres as [->|[e ->]]; eauto.
  - intros Hg.
    destruct (wrapper_evaluate_nonempty func x grad w Hg) as (Hcalls & _ & Hev).
    split.
    + destruct (wrapper_evaluate autograd_grad func x grad w) as [[[v|e] g1] w1];
        cbn [fst snd] in *; [|done].
      destruct (wrapper_record_result args verbose losses frames x v w1) as [-> _].
      done.
    + intros v g Hv Hgr Hl. by rewrite (Hev v g).
Qed.
End wrapper.

(** C10 on the constraint callback of the 2 by 1 beam, once with an empty
    buffer and once with a buffer of two entries. *)
Lemma wrapper_gradient_buffer_witness :
  (let res := wrap_autograd_func (fd_grad (1 # 100)%Q) args_2x1 true
                (constraint no_filter args_2x1) None None
                [(2 # 5)%Q; (2 # 5)%Q] [] (mk_world [] [] []) in
   res.1.2 = [] ∧
   autograd_calls res.2 = [] ∧
   (res.1.1 = constraint no_filter args_2x1 [(2 # 5)%Q; (2 # 5)%Q] ∨
    ∃ v e, constraint no_filter args_2x1 [(2 # 5)%Q; (2 # 5)%Q] = Ok v ∧
           res.1.1 = Raise e) ∧
   ((None : option nat) = None →
    res.1.1 = constraint no_filter args_2x1 [(2 # 5)%Q; (2 # 5)%Q])) ∧
  (let res := wrap_autograd_func (fd_grad (1 # 100)%Q) args_2x1 true
                (constraint no_filter args_2x1) None None
                [(2 # 5)%Q; (2 # 5)%Q] [0%Q; 0%Q] (mk_world [] [] []) in
   autograd_calls res.2 = [] ++ [[(2 # 5)%Q; (2 # 5)%Q]] ∧
   ∀ v g, constraint no_filter args_2x1 [(2 # 5)%Q; (2 # 5)%Q] = Ok v →
          fd_grad (1 # 100)%Q (constraint no_filter args_2x1) [(2 # 5)%Q; (2 # 5)%Q] = Ok g →
          length g = length [0%Q; 0%Q] → res.1.2 = g).
Proof.
  split.
  - apply (wrapper_gradient_buffer (fd_grad (1 # 100)%Q) args_2x1 true
             (constraint no_filter args_2x1) None None
             [(2 # 5)%Q; (2 # 5)%Q] [] (mk_world [] [] [])).
    reflexivity.
  - apply (wrapper_gradient_buffer (fd_grad (1 # 100)%Q) args_2x1 true
             (constraint no_filter args_2x1) None None
             [(2 # 5)%Q; (2 # 5)%Q] [0%Q; 0%Q] (mk_world [] [] [])).
    simpl. lia.
Defined.

(** ** The optimisation trace *)


Lemma alter_alter_same {A} (f g : A → A) (i : nat) (l : list A) :
  alter f i (alter g i l) = alter (f ∘ g) i l.
Proof. revert i. induction l as [|x l IH]; intros [|i]; simpl; [done..|]. f_equal. apply IH. Qed.

Lemma alter_alter_comm {A} (f g : A → A) (i j : nat) (l : list A) :
  i ≠ j → alter f i (alter g j l) = alter g j (alter f i l).
Proof.
  revert i j. induction l as [|x l IH]; intros [|i] [|j] Hij; simpl; try done.
  f_equal. apply IH. lia.
Qed.

Section trace.
Context `{Scalar F}.
Variable autograd_grad : (list F → pyresult F) → list F → pyresult (list F).

Local Abbreviation wrap := (wrap_autograd_func autograd_grad).

Lemma wrapper_evaluate_facts func x grad (w : world F) :
  heap (wrapper_evaluate autograd_grad func x grad w).2 = heap w ∧
  (∀ v, (wrapper_evaluate autograd_grad func x grad w).1.1 = Ok v → func x = Ok v) ∧
  (∀ w2, (wrapper_evaluate autograd_grad func x grad w2).1
         = (wrapper_evaluate autograd_grad func x grad w).1).
Proof.
  unfold wrapper_evaluate, value_and_grad. case_decide; [|done].
  destruct (func x) as [v|e]; [|done]. rewrite bind_ret.
  destruct (autograd_grad func x) as [g|e]; [|done]. rewrite bind_ret.
  destruct (assign_slice grad g); split_and!; try done; by intros ? [= <-].
Qed.

Lemma wrapper_record_heap (args : Args F) verbose losses frames x value
    (w : world F) r w' :
  wrapper_record args verbose losses frames x value w = (Ok r, w') →
  r = value ∧
  heap w' = match frames with
            | Some fl =>
                match reshape2 x (nely args) (nelx args) with
                | Ok fr => alter (λ items, items ++ [ItemArray fr]) fl
                | Raise _ => id
                end
            | None => id
            end
              (match losses with
               | Some l => alter (λ items, items ++ [ItemFloat value]) l
               | None => id
               end (heap w)) ∧
  (∀ fl, frames = Some fl → is_Some (match reshape2 x (nely args) (nelx args) with
                                      | Ok fr => Some fr | Raise _ => None end)).
Proof.
  unfold wrapper_record. intros Hr.
  destruct frames as [fl|].
  - destruct (reshape2 x (nely args) (nelx args)) as [fr|e]; [|done].
    destruct verbose; [repeat case_decide|]; try done;
      injection Hr as <- <-; destruct losses; split_and!; eauto.
  - injection Hr as <- <-. destruct losses; split_and!; try done.
Qed.

Lemma wrap_independent (args : Args F) verbose func losses frames x grad (w1 w2 : world F) :
  (wrap args verbose func losses frames x grad w1).1
  = (wrap args verbose func losses frames x grad w2).1.
Proof.
  rewrite !wrap_autograd_func_unfold.
  destruct (wrapper_evaluate_facts func x grad w1) as (_ & _ & Hi).
  specialize (Hi w2).
  destruct (wrapper_evaluate autograd_grad func x grad w1) as [[r1 g1] w1'].
  destruct (wrapper_evaluate autograd_grad func x grad w2) as [[r2 g2] w2'].
  cbn [fst snd] in *. injection Hi as -> ->.
  destruct r1 as [v|e]; [|done]. cbn [fst snd].
  by rewrite (wrapper_record_independent args verbose losses frames x v w1' w2').
Qed.

Section run.
Variables (args : Args F) (verbose : bool).
Variables (obj_fn con_fn : list F → pyresult F) (l fl : nat).
Hypothesis Hlfl : l ≠ fl.

Local Abbreviation obj := (wrap args verbose obj_fn (Some l) (Some fl)).
Local Abbreviation con := (wrap args verbose con_fn None None).

Lemma run_callbacks_heap reqs (w : world F) resp w' :
  run_callbacks obj con reqs w = (Ok resp, w') →
  heap w'
  = alter (λ items, items ++ (ItemArray <$> recorded_frames args reqs)) fl
      (alter (λ items, items ++ (ItemFloat <$> recorded_losses obj_fn reqs)) l
         (heap w)) ∧
  length (recorded_losses obj_fn reqs) = length (filter is_objective reqs) ∧
  length (recorded_frames args reqs) = length (filter is_objective reqs).
Proof.
  revert w resp w'. induction reqs as [|req reqs IH]; intros w resp w' Hrun.
  { injection Hrun as <- <-. split_and!; [|done..]. simpl.
    rewrite !list_alter_id; auto using app_nil_r. }
  cbn [run_callbacks] in Hrun.
  destruct req as [x grad|x grad].
  - (* an objective call *)
    rewrite wrap_autograd_func_unfold in Hrun.
    destruct (wrapper_evaluate_facts obj_fn x grad w) as (Hheap & Hval & _).
    destruct (wrapper_evaluate autograd_grad obj_fn x grad w) as [[[v|e] g1] w1];
      cbn [fst snd] in *; [|done].
    specialize (Hval v eq_refl).
    destruct (wrapper_record args verbose (Some l) (Some fl) x v w1)
      as [[v'|e] w2] eqn:Hrec; cbn [fst snd] in Hrun; [|done].
    apply wrapper_record_heap in Hrec as (-> & Hh2 & Hfr).
    destruct (Hfr fl eq_refl) as [fr Hfr'].
    destruct (reshape2 x (nely args) (nelx args)) as [fr'|] eqn:Hresh; [|done].
    injection Hfr' as ->.
    destruct (run_callbacks obj con reqs w2) as [[resp'|e] w3] eqn:Hrest;
      [|done].
    injection Hrun as <- <-.
    destruct (IH _ _ _ Hrest) as (Hh3 & Hl1 & Hl2).
    unfold recorded_losses, recorded_frames. cbn [omap list_omap filter list_filter].
    rewrite Hval, Hresh. fold (recorded_losses obj_fn reqs).
    fold (recorded_frames args reqs).
    rewrite decide_True by done. cbn [length].
    split_and!; [|by rewrite Hl1|by rewrite Hl2].
    rewrite Hh3, Hh2, Hheap.
    rewrite (alter_alter_comm _ _ l fl) by done.
    rewrite !alter_alter_same.
    apply list_alter_ext; [|apply list_alter_ext; [|done]];
      intros; unfold compose; rewrite ?fmap_cons, <- ?app_assoc; done.
  - (* a constraint call *)
    rewrite wrap_autograd_func_unfold in Hrun.
    destruct (wrapper_evaluate_facts con_fn x grad w) as (Hheap & _ & _).
    destruct (wrapper_evaluate autograd_grad con_fn x grad w) as [[[v|e] g1] w1];
      cbn [fst snd wrapper_record] in *; [|done].
    destruct (run_callbacks obj con reqs w1) as [[resp'|e] w3] eqn:Hrest;
      [|done].
    injection Hrun as <- <-.
    destruct (IH _ _ _ Hrest) as (Hh3 & Hl1 & Hl2).
    unfold recorded_losses, recorded_frames. cbn [omap list_omap filter list_filter].
    fold (recorded_losses obj_fn reqs). fold (recorded_frames args reqs).
    rewrite decide_False by (by intros ?). rewrite Hh3, Hheap. done.
Qed.

Lemma run_callbacks_independent reqs (w1 w2 : world F) :
  (run_callbacks obj con reqs w1).1 = (run_callbacks obj con reqs w2).1.
Proof.
  revert w1 w2. induction reqs as [|req reqs IH]; intros w1 w2; [done|].
  cbn [run_callbacks].
  assert (∀ (cb : list F → list F → world F → pyresult F * list F * world F) x g,
            (∀ wa wb, (cb x g wa).1 = (cb x g wb).1) →
            (let '(r, grad', w') := cb x g w1 in
             match r with
             | Raise e => (Raise e, w')
             | Ok v => let '(rs, w'') := run_callbacks obj con reqs w' in
                       (resp ← rs; Ok ((v, grad') :: resp), w'')
             end).1
            = (let '(r, grad', w') := cb x g w2 in
               match r with
               | Raise e => (Raise e, w')
               | Ok v => let '(rs, w'') := run_callbacks obj con reqs w' in
                         (resp ← rs; Ok ((v, grad') :: resp), w'')
               end).1) as Hstep.
  { intros cb x g Hcb. specialize (Hcb w1 w2).
    destruct (cb x g w1) as [[r1 g1] w1'], (cb x g w2) as [[r2 g2] w2'].
    cbn [fst] in Hcb. injection Hcb as -> ->.
    destruct r2 as [v|e]; [|done].
    specialize (IH w1' w2').
    destruct (run_callbacks obj con reqs w1') as [rs1 ?],
             (run_callbacks obj con reqs w2') as [rs2 ?].
    cbn [fst] in *. by rewrite IH. }
  destruct req as [x g|x g]; apply Hstep; intros; apply wrap_independent.
Qed.
End run.
End trace.

Section driver_trace.
Context `{Scalar F}.
Variable splu_solve : list (list F) → list F → pyresult (list F).
Variable ndimage_gaussian_filter : list (list F) → F → list (list F).
Variable autograd_grad : (list F → pyresult F) → list F → pyresult (list F).

Lemma float_items_fmap (l : list F) : float_items (ItemFloat <$> l) = l.
Proof.
  induction l as [|v l IH]; [done|].
  change (float_items (ItemFloat <$> v :: l)) with (v :: float_items (ItemFloat <$> l)).
  by rewrite IH.
Qed.

Lemma array_items_fmap (l : list (list (list F))) :
  array_items (F:=F) (ItemArray <$> l) = l.
Proof.
  induction l as [|v l IH]; [done|].
  change (array_items (F:=F) (ItemArray <$> v :: l))
    with (v :: array_items (F:=F) (ItemArray <$> l)).
  by rewrite IH.
Qed.

(** C5, corrected: when [fast_stopt] returns, the losses and frames it
    returns are those of the objective evaluations alone, in the order the
    optimizer made them: one loss and one frame per objective evaluation,
    the frame being the design vector [x] reshaped to (nely, nelx), not
    the filtered density.  The constraint callback leaves the recorded
    lists as they are, and the values handed back to the optimizer do not
    depend on what has been recorded. *)
Theorem fast_stopt_trace (args : Args F) (x : option (list (list F)))
    (verbose : bool) (optimizer : list F → list (request F)) (w w' : world F)
    (losses : list F) (last_frame : list (list F)) (frames : list (list (list F))) :
  fast_stopt splu_solve ndimage_gaussian_filter autograd_grad args x verbose optimizer w
    = (Ok (losses, last_frame, frames), w') →
  let reqs := optimizer (mjoin (initial_design args x)) in
  let obj := wrap_autograd_func autograd_grad args verbose
               (objective_fn splu_solve ndimage_gaussian_filter args)
               (Some (length (heap w))) (Some (S (length (heap w)))) in
  let con := wrap_autograd_func autograd_grad args verbose
               (constraint ndimage_gaussian_filter args) None None in
  losses = recorded_losses (objective_fn splu_solve ndimage_gaussian_filter args) reqs ∧
  frames = recorded_frames args reqs ∧
  length losses = length (filter is_objective reqs) ∧
  length frames = length (filter is_objective reqs) ∧
  (∀ px grad w1, heap (con px grad w1).2 = heap w1) ∧
  (∀ w1 w2, (run_callbacks obj con reqs w1).1 = (run_callbacks obj con reqs w2).1).
Proof.
  intros Hrun reqs obj con.
  unfold fast_stopt in Hrun. fold reqs obj con in Hrun.
  set (w1 := print _ _) in Hrun.
  destruct (run_callbacks obj con reqs w1) as [[resp|e] w2] eqn:Hcb; [|done].
  destruct (run_callbacks_heap autograd_grad args verbose
              (objective_fn splu_solve ndimage_gaussian_filter args)
              (constraint ndimage_gaussian_filter args)
              (length (heap w)) (S (length (heap w))) ltac:(lia) reqs w1 resp w2 Hcb)
    as (Hheap & Hl1 & Hl2).
  assert (Hlo : heap w2 !! length (heap w)
                = Some (ItemFloat <$> recorded_losses
                          (objective_fn splu_solve ndimage_gaussian_filter args) reqs)).
  { rewrite Hheap. rewrite list_lookup_alter_ne by lia.
    rewrite list_lookup_alter. unfold w1; simpl.
    rewrite lookup_app_r by lia. rewrite decide_True by done.
    by rewrite Nat.sub_diag. }
  assert (Hfr : heap w2 !! S (length (heap w))
                = Some (ItemArray <$> recorded_frames args reqs)).
  { rewrite Hheap. rewrite list_lookup_alter, decide_True by done.
    rewrite list_lookup_alter_ne by lia. unfold w1; simpl.
    rewrite lookup_app_r by lia.
    by replace (S (length (heap w)) - length (heap w)) with 1 by lia. }
  rewrite Hlo, Hfr in Hrun. simpl in Hrun.
  rewrite float_items_fmap, array_items_fmap in Hrun.
  destruct (last (recorded_frames args reqs)) as [fr|]; [|done].
  destruct (reshape2 (mjoin fr) (nely args) (nelx args)) as [fr'|]; [|done].
  injection Hrun as <- <- <- <-.
  split_and!; try done.
  - intros px grad w0. unfold con. rewrite wrap_autograd_func_unfold.
    destruct (wrapper_evaluate_facts autograd_grad
                (constraint ndimage_gaussian_filter args) px grad w0) as (Hh & _ & _).
    by destruct (wrapper_evaluate autograd_grad _ px grad w0) as [[[v|e] g1] w1'].
  - intros wa wb. apply run_callbacks_independent.
Qed.
End driver_trace.


(** C5 on the 2 by 1 beam, for an optimizer that evaluates the constraint
    and then the objective. *)
Lemma fast_stopt_trace_witness :
  let reqs := two_calls (mjoin (initial_design args_2x1 None)) in
  let obj := wrap_autograd_func (fd_grad (1 # 100)%Q) args_2x1 true
               (objective_fn gauss_solve no_filter args_2x1) (Some 0) (Some 1) in
  let con := wrap_autograd_func (fd_grad (1 # 100)%Q) args_2x1 true
               (constraint no_filter args_2x1) None None in
  [(10100000000000 # 24000000351)%Q]
    = recorded_losses (objective_fn gauss_solve no_filter args_2x1) reqs ∧
  [[[(2 # 5)%Q; (2 # 5)%Q]]] = recorded_frames args_2x1 reqs ∧
  length [(10100000000000 # 24000000351)%Q] = length (filter is_objective reqs) ∧
  length [[[(2 # 5)%Q; (2 # 5)%Q]]] = length (filter is_objective reqs) ∧
  (∀ px grad w1, heap (con px grad w1).2 = heap w1) ∧
  (∀ w1 w2, (run_callbacks obj con reqs w1).1 = (run_callbacks obj con reqs w2).1).
Proof.
  apply (fast_stopt_trace gauss_solve no_filter (fd_grad (1 # 100)%Q) args_2x1 None true
           two_calls (mk_world [] [] [])
           (mk_world [[ItemFloat (10100000000000 # 24000000351)%Q];
                      [ItemArray [[(2 # 5)%Q; (2 # 5)%Q]]]]
                     [OutNodes 12] [])
           [(10100000000000 # 24000000351)%Q] [[(2 # 5)%Q; (2 # 5)%Q]]
           [[[(2 # 5)%Q; (2 # 5)%Q]]]).
  vm_compute. reflexivity.
Defined.

(** C5 fails for the constraint callback: on the 2 by 1 beam the optimizer
    [two_calls] makes two evaluation calls, one of the constraint and one
    of the objective, and the trace holds one loss and one frame. *)
Lemma constraint_call_not_recorded :
  length (two_calls (mjoin (initial_design args_2x1 None))) = 2 ∧
  ∃ losses fr frames w',
    fast_stopt gauss_solve no_filter (fd_grad (1 # 100)%Q) args_2x1 None true
      two_calls (mk_world [] [] [])
    = (Ok (losses, fr, frames), w') ∧
    length losses = 1 ∧ length frames = 1.
Proof. split; [reflexivity|]. vm_compute. by do 4 eexists. Qed.

(** ** Material model *)

Lemma Qpower_nat_mono (x y : Q) (n : nat) :
  (0 <= x)%Q → (x <= y)%Q → (x ^ Z.of_nat n <= y ^ Z.of_nat n)%Q.
Proof.
  intros Hx Hxy. induction n as [|n IH].
  - simpl. apply Qle_refl.
  - rewrite Nat2Z.inj_succ. unfold Z.succ.
    rewrite !Qpower_plus' by lia. rewrite !Qpower_1_r.
    apply Qmult_le_compat_nonneg; split; auto.
    by apply Qpower_0_le.
Qed.

Lemma young_modulus_Q (x e_0 e_min : Q) (n : nat) :
  (young_modulus x e_0 e_min (inject_Z (Z.of_nat n))
   == e_min + x ^ Z.of_nat n * (e_0 - e_min))%Q.
Proof.
  unfold young_modulus, fadd, fmul, fsub, fpow, Q_scalar.
  rewrite !Qred_correct. by rewrite Qfloor_Z.
Qed.

(** C8, corrected: over the rationals and for a whole exponent [n],
    [young_modulus] is [e_min + x ^ n * (e_0 - e_min)], and it does not
    decrease when the density grows from [x >= 0] to [y >= x], provided
    [e_min <= e_0]. *)
Theorem young_modulus_monotone (x y e_0 e_min : Q) (n : nat) :
  (0 <= x)%Q → (x <= y)%Q → (e_min <= e_0)%Q →
  (young_modulus x e_0 e_min (inject_Z (Z.of_nat n))
   == e_min + x ^ Z.of_nat n * (e_0 - e_min))%Q ∧
  (young_modulus x e_0 e_min (inject_Z (Z.of_nat n))
   <= young_modulus y e_0 e_min (inject_Z (Z.of_nat n)))%Q.
Proof.
  intros Hx Hxy He. split; [apply young_modulus_Q|].
  rewrite !young_modulus_Q.
  apply Qplus_le_compat; [apply Qle_refl|].
  apply Qmult_le_compat_r; [by apply Qpower_nat_mono|].
  unfold Qminus. rewrite <- (Qplus_opp_r e_min).
  apply Qplus_le_compat; [done|apply Qle_refl].
Qed.

(** C8 at the densities 1/2 and 1 with the default material. *)
Lemma young_modulus_monotone_witness :
  (young_modulus (1 # 2) 1 (1 # 1000000000) (inject_Z (Z.of_nat 3))
   == (1 # 1000000000) + (1 # 2) ^ Z.of_nat 3 * (1 - (1 # 1000000000)))%Q ∧
  (young_modulus (1 # 2) 1 (1 # 1000000000) (inject_Z (Z.of_nat 3))
   <= young_modulus 1 1 (1 # 1000000000) (inject_Z (Z.of_nat 3)))%Q.
Proof.
  apply (young_modulus_monotone (1 # 2)%Q 1%Q 1%Q (1 # 1000000000)%Q 3).
  - discriminate.
  - discriminate.
  - discriminate.
Defined.

(** C8 fails as worded (a larger density never increases the stiffness
    factor): with the default material the factor at density 1 is larger
    than at density 0. *)
Lemma young_modulus_increases_with_density :
  (young_modulus (F:=Q) 0 1 (1 # 1000000000) 3
   < young_modulus (F:=Q) 1 1 (1 # 1000000000) 3)%Q.
Proof. reflexivity. Qed.

(** ** The smoothing filter *)



Section scipy_facts.
Import Scipy.
Local Open Scope R_scope.

Lemma Rsum_nil : Rsum [] = 0.
Proof. done. Qed.

Lemma Rsum_cons (x : R) (l : list R) : Rsum (x :: l) = x + Rsum l.
Proof. done. Qed.

Lemma Rsum_div (phi : list R) (S : R) :
  Rsum ((λ p, p / S) <$> phi) = Rsum phi / S.
Proof.
  induction phi as [|p phi IH]; [rewrite fmap_nil, Rsum_nil; unfold Rdiv; ring|].
  rewrite fmap_cons, !Rsum_cons, IH. unfold Rdiv. ring.
Qed.

Lemma Rsum_app (l k : list R) : Rsum (l ++ k) = Rsum l + Rsum k.
Proof.
  induction l as [|x l IH]; [rewrite Rsum_nil; simpl; ring|].
  rewrite <- app_comm_cons, !Rsum_cons, IH. ring.
Qed.

Lemma Rsum_reverse (l : list R) : Rsum (reverse l) = Rsum l.
Proof.
  induction l as [|x l IH]; [done|].
  rewrite reverse_cons, Rsum_app, IH, !Rsum_cons, Rsum_nil. ring.
Qed.

Lemma Rsum_nonneg (l : list R) : Forall (λ p, 0 < p) l → 0 <= Rsum l.
Proof.
  induction 1 as [|p l Hp _ IH]; [rewrite Rsum_nil; lra|]. rewrite Rsum_cons. lra.
Qed.

Lemma Rsum_pos (l : list R) : l ≠ [] → Forall (λ p, 0 < p) l → 0 < Rsum l.
Proof.
  intros Hne Hl. destruct Hl as [|p l Hp Hl]; [done|].
  rewrite Rsum_cons. pose proof (Rsum_nonneg l Hl). lra.
Qed.

Lemma Rsum_le_length (l : list R) :
  Forall (λ p, p <= 1) l → Rsum l <= INR (length l).
Proof.
  induction 1 as [|p l Hp Hl IH]; [rewrite Rsum_nil; simpl; lra|].
  rewrite Rsum_cons, length_cons, S_INR. lra.
Qed.

Lemma gaussian_kernel1d_phis sigma lw :
  gaussian_kernel1d sigma lw = (λ p, p / Rsum (phis sigma lw)) <$> phis sigma lw.
Proof. done. Qed.

Lemma phis_pos sigma lw : Forall (λ p, 0 < p) (phis sigma lw).
Proof. apply Forall_fmap, Forall_forall. intros k _. apply exp_pos. Qed.

Lemma phis_nonempty sigma lw : phis sigma lw ≠ [].
Proof.
  unfold phis, offsets. rewrite Nat.add_1_r. simpl. done.
Qed.

Lemma kernel_sum sigma lw : Rsum (gaussian_kernel1d sigma lw) = 1.
Proof.
  rewrite gaussian_kernel1d_phis, Rsum_div.
  pose proof (Rsum_pos _ (phis_nonempty sigma lw) (phis_pos sigma lw)).
  field. lra.
Qed.

Lemma kernel_nonneg sigma lw : Forall (λ w, 0 <= w) (gaussian_kernel1d sigma lw).
Proof.
  rewrite gaussian_kernel1d_phis.
  pose proof (Rsum_pos _ (phis_nonempty sigma lw) (phis_pos sigma lw)) as HS.
  apply Forall_fmap. eapply Forall_impl; [apply phis_pos|].
  intros p Hp. unfold compose. apply Rlt_le, Rdiv_lt_0_compat; lra.
Qed.

Lemma reflect_1 (z : Z) : reflect 1 z = 0%nat.
Proof.
  unfold reflect. pose proof (Z.mod_pos_bound z (2 * Z.of_nat 1)) as Hm.
  destruct (Z.ltb_spec (z mod (2 * Z.of_nat 1)) (Z.of_nat 1)); lia.
Qed.

Lemma reflect_inside (n i : nat) : (i < n)%nat → reflect n (Z.of_nat i) = i.
Proof.
  intros Hi. unfold reflect.
  rewrite Z.mod_small by lia.
  destruct (Z.ltb_spec (Z.of_nat i) (Z.of_nat n)); lia.
Qed.

Lemma Rsum_scale (w : list R) (v : R) : Rsum ((λ wj, wj * v) <$> w) = Rsum w * v.
Proof.
  induction w as [|x w IH]; [rewrite fmap_nil, Rsum_nil; ring|].
  rewrite fmap_cons, !Rsum_cons, IH. ring.
Qed.

Lemma correlate1d_singleton (w : list R) (v : R) :
  correlate1d w [v] = [Rsum w * v].
Proof.
  unfold correlate1d. cbn [length seq fmap list_fmap]. f_equal.
  rewrite <- Rsum_scale. f_equal.
  rewrite <- imap_const. apply imap_ext. intros j wj _. cbn beta.
  by rewrite reflect_1.
Qed.

Lemma gaussian_filter1d_singleton (sigma v : R) :
  ndimage_gaussian_filter1d sigma [v] = [v].
Proof.
  unfold ndimage_gaussian_filter1d. rewrite correlate1d_singleton.
  rewrite Rsum_reverse, kernel_sum. f_equal. ring.
Qed.

Lemma exp_le_1 (x : R) : x <= 0 → exp x <= 1.
Proof.
  intros [Hx| ->]; [|rewrite exp_0; lra].
  rewrite <- exp_0. by apply Rlt_le, exp_increasing.
Qed.

Lemma phis_le_1 lw : Forall (λ p, p <= 1) (phis 1 lw).
Proof.
  apply Forall_fmap, Forall_forall. intros k _. unfold compose.
  apply exp_le_1. pose proof (Rle_0_sqr (IZR k)) as Hk. unfold Rsqr in Hk.
  replace (- / 2 / (1 * 1) * (IZR k * IZR k)) with (- (/ 2 * (IZR k * IZR k))) by field.
  lra.
Qed.

Lemma radius_at_1 : Z.to_nat (Int_part (4 * 1 + / 2)) = 4%nat.
Proof.
  rewrite <- (Int_part_spec (4 * 1 + / 2) 4); [done|]. simpl. lra.
Qed.

(** The weight next to the centre of the kernel for sigma = 1. *)
Lemma kernel_at_1_off_centre :
  ∃ w5, reverse (gaussian_kernel1d 1 4) !! 5%nat = Some w5 ∧ / 18 <= w5.
Proof.
  pose proof (Rsum_pos _ (phis_nonempty 1 4) (phis_pos 1 4)) as HS.
  pose proof (Rsum_le_length _ (phis_le_1 4)) as HS9.
  change (length (phis 1 4)) with 9%nat in HS9.
  replace (INR 9) with 9 in HS9 by (simpl; ring).
  exists (exp (- / 2 / (1 * 1) * (IZR (-1) * IZR (-1))) / Rsum (phis 1 4)).
  split; [reflexivity|].
  set (S := Rsum (phis 1 4)) in *.
  replace (- / 2 / (1 * 1) * (IZR (-1) * IZR (-1))) with (- / 2) by field.
  pose proof (exp_ineq1_le (- / 2)) as He.
  assert (/ 2 <= exp (- / 2)) as He' by lra.
  apply Rle_trans with (exp (- / 2) / 9); [lra|].
  unfold Rdiv. apply Rmult_le_compat_l; [lra|].
  apply Rinv_le_contravar; lra.
Qed.
End scipy_facts.

Section filter_width_1.
Import Scipy.
Local Open Scope R_scope.

Lemma scipy_filter_one_row (a b sigma : R) :
  / 1000000000000000 < sigma →
  Scipy.ndimage_gaussian_filter [[a; b]] sigma = [ndimage_gaussian_filter1d sigma [a; b]].
Proof.
  intros Hs. unfold Scipy.ndimage_gaussian_filter.
  destruct (Rlt_dec (/ 1000000000000000) sigma) as [_|Hn]; [|done].
  change (shape2 [[a; b]]) with (1%nat, 2%nat). cbv iota beta.
  change (transpose2 2 [[a; b]]) with [[a]; [b]].
  rewrite !fmap_cons, fmap_nil, !gaussian_filter1d_singleton.
  reflexivity.
Qed.

Lemma correlate1d_two_first (w : list R) :
  length w = 9%nat → Rsum w = 1 → Forall (λ p, 0 <= p) w →
  (∃ w5, w !! 5%nat = Some w5 ∧ / 18 <= w5) →
  ∃ v, correlate1d w [1; 0] !! 0%nat = Some v ∧ v <= 1 - / 18.
Proof.
  intros Hlen Hsum Hnn (w5 & Hw5 & Hb).
  do 9 (destruct w as [|? w]; [discriminate|]). destruct w; [|discriminate].
  repeat match goal with
         | H : Forall _ (_ :: _) |- _ => apply Forall_cons in H as [? H]
         end.
  injection Hw5 as ->.
  rewrite !Rsum_cons, Rsum_nil in Hsum.
  eexists. split; [reflexivity|].
  cbn -[Rplus Rmult Rminus Rinv Rle reflect].
  repeat match goal with
         | |- context [reflect ?n ?z] =>
             let v := eval vm_compute in (reflect n z) in
             change (reflect n z) with v
         end.
  cbv iota. lra.
Qed.

(** C4 fails at the default width 1: at that width scipy's kernel has
    radius 4, and filtering the field [[1, 0]] lowers its first entry to
    at most 17/18. *)
Lemma gaussian_filter_width_1_blurs :
  ∃ v, lookup2 (gaussian_filter Scipy.ndimage_gaussian_filter [[1; 0]] 1) 0 0 = Some v ∧
       v <= 1 - / 18.
Proof.
  unfold gaussian_filter. rewrite scipy_filter_one_row by lra.
  unfold lookup2. cbn [lookup list_lookup].
  unfold ndimage_gaussian_filter1d. rewrite radius_at_1.
  apply correlate1d_two_first.
  - by rewrite length_reverse.
  - by rewrite Rsum_reverse, kernel_sum.
  - apply Forall_reverse, kernel_nonneg.
  - apply kernel_at_1_off_centre.
Qed.
End filter_width_1.

Section transpose_involution.
Context {A : Type}.

Lemma transpose2_zip_with_cons (k : nat) (row : list A) (T : list (list A)) :
  length row = length T → Forall (λ c, length c = k) T →
  transpose2 (S k) (zip_with cons row T) = row :: transpose2 k T.
Proof.
  intros Hlen HT. revert row Hlen.
  induction HT as [|c T Hc HT IH]; intros [|a row] Hlen; try done.
  cbn [zip_with transpose2]. rewrite IH by (simpl in Hlen; lia).
  reflexivity.
Qed.

Lemma transpose2_involutive (m : nat) (x : list (list A)) :
  Forall (λ r, length r = m) x →
  transpose2 (length x) (transpose2 m x) = x.
Proof.
  induction 1 as [|row x Hrow Hx IH]; cbn [transpose2 length].
  - clear. induction m as [|m IH]; [done|]. by cbn [replicate transpose2 zip_with].
  - destruct (transpose2_shape m x Hx) as [Hl Hf].
    rewrite transpose2_zip_with_cons by (done || lia). by rewrite IH.
Qed.
End transpose_involution.

Section filter_identity.
Local Open Scope R_scope.

Lemma kernel_radius_0 (sigma : R) : Scipy.gaussian_kernel1d sigma 0 = [1].
Proof.
  unfold Scipy.gaussian_kernel1d, Scipy.offsets.
  cbn [Nat.mul Nat.add seq fmap list_fmap].
  unfold Scipy.Rsum. cbn [foldr]. f_equal.
  pose proof (exp_pos (- / 2 / (sigma * sigma) *
                       (IZR (Z.of_nat 0 - Z.of_nat 0) * IZR (Z.of_nat 0 - Z.of_nat 0)))).
  field. lra.
Qed.

Lemma correlate1d_unit (x : list R) : Scipy.correlate1d [1] x = x.
Proof.
  unfold Scipy.correlate1d. apply list_eq. intros i.
  rewrite list_lookup_fmap.
  destruct (decide (i < length x)%nat) as [Hi|Hi].
  - rewrite lookup_seq_lt by done.
    destruct (lookup_lt_is_Some_2 x i Hi) as [v Hv]. rewrite Hv.
    cbn [fmap option_fmap option_map imap length Nat.div Nat.divmod fst Nat.add].
    unfold Scipy.Rsum. cbn [foldr]. f_equal.
    replace (Z.of_nat i + Z.of_nat 0 - Z.of_nat 0)%Z with (Z.of_nat i) by lia.
    rewrite reflect_inside by done.
    rewrite (nth_lookup_Some _ _ _ _ Hv). ring.
  - rewrite lookup_seq_ge by lia. rewrite lookup_ge_None_2 by lia. done.
Qed.
End filter_identity.

Section filter_small_width.
Local Open Scope R_scope.

Lemma radius_small (sigma : R) :
  / 1000000000000000 < sigma → sigma < / 8 →
  Z.to_nat (Int_part (4 * sigma + / 2)) = 0%nat.
Proof.
  intros Hlo Hhi.
  rewrite <- (Int_part_spec (4 * sigma + / 2) 0); [done|]. simpl. lra.
Qed.

Lemma gaussian_filter1d_small (sigma : R) (x : list R) :
  / 1000000000000000 < sigma → sigma < / 8 →
  Scipy.ndimage_gaussian_filter1d sigma x = x.
Proof.
  intros Hlo Hhi. unfold Scipy.ndimage_gaussian_filter1d.
  rewrite radius_small, kernel_radius_0 by done.
  apply correlate1d_unit.
Qed.

(** C4, corrected: with scipy's filter, [gaussian_filter] returns its
    input unchanged for every width up to 1/16, and in particular for
    width 0.  At these widths [4.0 * w + 0.5] is at most 0.75, in float64
    as over the reals, so the kernel has radius 0 and the single weight 1;
    a width of at most 1e-15 is not filtered at all. *)
Theorem gaussian_filter_identity_small_width (x : list (list R)) (w : R) :
  Forall (λ r, length r = (shape2 x).2) x →
  w <= / 16 →
  gaussian_filter Scipy.ndimage_gaussian_filter x w = x.
Proof.
  intros Hrect Hw16. assert (w < / 8) as Hw by lra. unfold gaussian_filter, Scipy.ndimage_gaussian_filter.
  destruct (Rlt_dec (/ 1000000000000000) w) as [Hlo|_]; [|done].
  destruct (shape2 x) as [nrows ncols] eqn:Hsh. cbn [snd] in Hrect.
  assert (nrows = length x) as -> by (by injection Hsh).
  assert (∀ l : list (list R), Scipy.ndimage_gaussian_filter1d w <$> l = l) as Hid.
  { intros l. rewrite <- (list_fmap_id l) at 2. apply list_fmap_ext.
    intros; by apply gaussian_filter1d_small. }
  rewrite !Hid. by apply transpose2_involutive.
Qed.
End filter_small_width.

(** C4 at width 0 on the field [[1, 0]]. *)
Lemma gaussian_filter_identity_small_width_witness :
  gaussian_filter Scipy.ndimage_gaussian_filter [[1%R; 0%R]] 0%R = [[1%R; 0%R]].
Proof.
  apply (gaussian_filter_identity_small_width [[1%R; 0%R]] 0%R).
  - repeat constructor.
  - lra.
Defined.

(** * Further properties of the program *)

(** ** Inverting a permutation *)

Lemma scatter_arange_length indices k buf im :
  scatter_arange indices k buf = Ok im → length im = length buf.
Proof.
  revert k buf. induction indices as [|i rest IH]; intros k buf Hs; simpl in Hs.
  - by injection Hs as <-.
  - case_decide; [|done]. apply IH in Hs. by rewrite length_insert in Hs.
Qed.



(** X2: for a permutation [indices] of 0 .. n-1, [inverse_permutation]
    returns its inverse: [inv[d] = t] exactly when [indices[t] = d].
    Inverting the inverse gives [indices] back, and an array reordered by
    [indices] and then by [inv] is the array itself. *)
Theorem inverse_permutation_round_trip (indices : list nat) :
  indices ≡ₚ seq 0 (length indices) →
  ∃ inv, inverse_permutation indices = Ok inv ∧
         length inv = length indices ∧
         (∀ t d, indices !! t = Some d ↔ inv !! d = Some t) ∧
         inverse_permutation inv = Ok indices ∧
         (∀ A (a : list A), length a = length indices →
            ∃ b, take_ix a indices = Ok b ∧ take_ix b inv = Ok a).
Proof.
  intros Hp.
  destruct (inverse_permutation_spec indices Hp) as (inv & Hinv & Hlen & Hfw).
  assert (Hbw : ∀ t d, inv !! d = Some t → indices !! t = Some d).
  { intros t d Hd.
    assert (d ∈ indices) as Hin.
    { rewrite Hp, elem_of_seq. apply lookup_lt_Some in Hd. lia. }
    apply list_elem_of_lookup in Hin as [t' Ht'].
    pose proof (Hfw _ _ Ht') as Hd'. congruence. }
  assert (Hpi : inv ≡ₚ seq 0 (length inv)).
  { apply NoDup_Permutation.
    - apply NoDup_alt. intros d1 d2 t H1 H2.
      apply Hbw in H1, H2. congruence.
    - apply NoDup_seq.
    - intros t. rewrite elem_of_seq. split.
      + intros Hin. apply list_elem_of_lookup in Hin as [d Hd].
        apply Hbw, lookup_lt_Some in Hd. lia.
      + intros Ht. destruct (lookup_lt_is_Some_2 indices t ltac:(lia)) as [d Hd].
        apply list_elem_of_lookup. exists d. by apply Hfw. }
  exists inv. split_and!; [done|done| |..].
  - intros t d. split; [apply Hfw|apply Hbw].
  - destruct (inverse_permutation_spec inv Hpi) as (inv2 & Hinv2 & Hlen2 & Hfw2).
    rewrite Hinv2. f_equal. apply list_eq. intros t.
    destruct (indices !! t) as [d|] eqn:Hd.
    + apply Hfw2. by apply Hfw.
    + apply lookup_ge_None in Hd. apply lookup_ge_None. lia.
  - intros A a Ha.
    destruct (take_ix_Ok a indices) as (b & Hb & Hlb).
    { rewrite Ha. rewrite Forall_forall. intros d Hin.
      rewrite Hp, elem_of_seq in Hin. lia. }
    exists b. split; [done|].
    destruct (take_ix_Ok b inv) as (c & Hc & Hlc).
    { rewrite Hlb. rewrite Forall_forall. intros t Hin.
      apply list_elem_of_lookup in Hin as [d Hd]. apply Hbw, lookup_lt_Some in Hd. lia. }
    rewrite Hc. f_equal. apply list_eq. intros d.
    destruct (inv !! d) as [t|] eqn:Hd.
    + destruct (take_ix_lookup _ _ _ _ _ Hc Hd) as [_ ->].
      pose proof (Hbw _ _ Hd) as Ht.
      by destruct (take_ix_lookup _ _ _ _ _ Hb Ht) as [_ ->].
    + apply lookup_ge_None in Hd. rewrite (proj2 (lookup_ge_None c d)) by lia.
      symmetry. apply lookup_ge_None. lia.
Qed.

(** An instance. *)
Lemma inverse_permutation_round_trip_witness :
  ∃ inv, inverse_permutation [2; 0; 3; 1] = Ok inv ∧
         length inv = length [2; 0; 3; 1] ∧
         (∀ t d, [2; 0; 3; 1] !! t = Some d ↔ inv !! d = Some t) ∧
         inverse_permutation inv = Ok [2; 0; 3; 1] ∧
         (∀ A (a : list A), length a = length [2; 0; 3; 1] →
            ∃ b, take_ix a [2; 0; 3; 1] = Ok b ∧ take_ix b inv = Ok a).
Proof.
  apply (inverse_permutation_round_trip [2; 0; 3; 1]).
  apply (bool_decide_unpack _). vm_compute. exact I.
Defined.

(** ** Reshaping and the physical density *)

Lemma chunks_spec {A} (r c : nat) (l : list A) :
  length l = r * c →
  mjoin (chunks r c l) = l ∧ length (chunks r c l) = r ∧
  Forall (λ row, length row = c) (chunks r c l).
Proof.
  revert l. induction r as [|r IH]; intros l Hl.
  - destruct l; [|done]. by split_and!.
  - cbn [chunks]. destruct (IH (drop c l)) as (Hj & Hn & Hrows).
    { rewrite length_drop. lia. }
    split_and!.
    + rewrite join_cons, Hj. apply take_drop.
    + simpl. by rewrite Hn.
    + constructor; [|done]. rewrite length_take. lia.
Qed.

Lemma chunks_join {A} (c : nat) (x : list (list A)) :
  Forall (λ row, length row = c) x → chunks (length x) c (mjoin x) = x.
Proof.
  induction 1 as [|row x Hrow Hx IH]; [done|].
  cbn [length chunks]. rewrite join_cons.
  rewrite take_app_length' by done. rewrite drop_app_length' by done.
  by rewrite IH.
Qed.

Lemma exact_division (n c : Z) :
  (0 ≤ n)%Z → (0 < c)%Z → (n mod c = 0)%Z →
  (0 ≤ n / c)%Z ∧ Z.to_nat n = Z.to_nat (n / c) * Z.to_nat c.
Proof.
  intros Hn Hc Hm. apply Z.div_exact in Hm; [|lia].
  assert (0 ≤ n / c)%Z by (apply Z.div_pos; lia).
  split; [done|]. rewrite <- Z2Nat.inj_mul by lia. f_equal. lia.
Qed.

Lemma reshape2_Ok {A} (l : list A) (r c : Z) (x : list (list A)) :
  reshape2 l r c = Ok x →
  mjoin x = l ∧ ∃ rows cols, length x = rows ∧ Forall (λ row, length row = cols) x ∧
                             length l = rows * cols ∧
                             ((0 ≤ r)%Z → rows = Z.to_nat r) ∧
                             ((0 ≤ c)%Z → cols = Z.to_nat c).
Proof.
  unfold reshape2. intros Hr.
  assert (Hchunks : ∀ rows cols, length l = rows * cols →
            ((0 ≤ r)%Z → rows = Z.to_nat r) → ((0 ≤ c)%Z → cols = Z.to_nat c) →
            x = chunks rows cols l →
            mjoin x = l ∧ ∃ rows cols, length x = rows ∧
              Forall (λ row, length row = cols) x ∧ length l = rows * cols ∧
              ((0 ≤ r)%Z → rows = Z.to_nat r) ∧ ((0 ≤ c)%Z → cols = Z.to_nat c)).
  { intros rows cols Hl Hrw Hcl ->.
    destruct (chunks_spec rows cols l Hl) as (Hj & Hn & Hrows).
    split; [done|]. by exists rows, cols. }
  destruct (decide (r = -1 ∧ c = -1)%Z) as [_|_]; [done|].
  destruct (decide (r < -1 ∨ c < -1)%Z) as [_|Hneg]; [done|].
  destruct (decide (r = -1)%Z) as [Hr1|Hr1].
  { destruct (decide (0 < c ∧ Z.of_nat (length l) mod c = 0)%Z) as [[Hc Hm]|_]; [|done].
    injection Hr as <-.
    destruct (exact_division _ _ (Nat2Z.is_nonneg (length l)) Hc Hm) as [Hq Hl].
    rewrite Nat2Z.id in Hl.
    eapply Hchunks; [exact Hl|lia|lia|done]. }
  destruct (decide (c = -1)%Z) as [Hc1|Hc1].
  { destruct (decide (0 < r ∧ Z.of_nat (length l) mod r = 0)%Z) as [[Hc Hm]|_]; [|done].
    injection Hr as <-.
    destruct (exact_division _ _ (Nat2Z.is_nonneg (length l)) Hc Hm) as [Hq Hl].
    rewrite Nat2Z.id in Hl.
    eapply Hchunks; [rewrite Hl; apply Nat.mul_comm|lia|lia|done]. }
  destruct (decide (r * c = Z.of_nat (length l))%Z) as [Hn|_]; [|done].
  injection Hr as <-.
  eapply Hchunks; [|done|done|done].
  apply Nat2Z.inj. rewrite Nat2Z.inj_mul, !Z2Nat.id; lia.
Qed.

Lemma reshape2_flatten {A} (x : list (list A)) (r c : Z) :
  (0 ≤ c)%Z → Z.of_nat (length x) = r → Forall (λ row, length row = Z.to_nat c) x →
  reshape2 (mjoin x) r c = Ok x.
Proof.
  intros Hc Hr Hrows. unfold reshape2.
  rewrite (length_join_uniform x (Z.to_nat c)) by done.
  rewrite !decide_False by lia.
  rewrite decide_True by (rewrite Nat2Z.inj_mul, Z2Nat.id; lia).
  subst r. rewrite Nat2Z.id. f_equal. by apply chunks_join.
Qed.

Lemma reshape2_idempotent {A} (l : list A) (r c : Z) (x : list (list A)) :
  reshape2 l r c = Ok x → reshape2 (mjoin x) r c = Ok x.
Proof. intros Hr. by rewrite (proj1 (reshape2_Ok _ _ _ _ Hr)). Qed.

Lemma reshape2_size_mismatch {A} (l : list A) (r c : Z) :
  (0 ≤ r)%Z → (0 ≤ c)%Z → Z.of_nat (length l) ≠ (r * c)%Z →
  reshape2 l r c = Raise ValueError.
Proof.
  intros Hr Hc Hn. unfold reshape2. rewrite !decide_False by lia. done.
Qed.

Section density.
Context `{Scalar F}.
Variable ndimage_gaussian_filter : list (list F) → F → list (list F).

Lemma map2_join {A B} (f : A → B) (a : list (list A)) :
  mjoin (map2 f a) = f <$> mjoin a.
Proof. unfold map2. by rewrite fmap_join. Qed.

(** X3: when [x] has [nely * nelx] entries, [physical_density] returns
    [nely] rows of [nelx] entries holding [mask * x] in the order of [x],
    passed through the filter with [args.filter_width] when [use_filter]
    is set; when the size differs it raises ValueError, with or without
    filter. *)
Theorem physical_density_reshape (x : list (list F)) (args : Args F) :
  (0 ≤ nely args)%Z → (0 ≤ nelx args)%Z →
  if decide (Z.of_nat (length (mjoin x)) = (nely args * nelx args)%Z)
  then ∃ xp, physical_density ndimage_gaussian_filter x args false = Ok xp ∧
             physical_density ndimage_gaussian_filter x args true
               = Ok (ndimage_gaussian_filter xp (filter_width args)) ∧
             length xp = Z.to_nat (nely args) ∧
             Forall (λ row, length row = Z.to_nat (nelx args)) xp ∧
             mjoin xp = fmul (mask args) <$> mjoin x
  else ∀ use_filter,
         physical_density ndimage_gaussian_filter x args use_filter = Raise ValueError.
Proof.
  intros Hy Hx. unfold physical_density. case_decide as Hn.
  - destruct (reshape2 (mjoin x) (nely args) (nelx args)) as [x'|e] eqn:Hr.
    + destruct (reshape2_Ok _ _ _ _ Hr) as (Hj & rows & cols & Hl & Hrows & _ & Hrw & Hcl).
      rewrite (Hrw Hy) in Hl. rewrite (Hcl Hx) in Hrows.
      exists (map2 (fmul (mask args)) x'). rewrite !bind_ret.
      split_and!; [done|done| | |].
      * unfold map2. by rewrite length_fmap.
      * unfold map2. apply Forall_fmap. eapply Forall_impl; [exact Hrows|].
        intros row Hrow. unfold compose. by rewrite length_fmap.
      * by rewrite map2_join, Hj.
    + unfold reshape2 in Hr. rewrite !decide_False in Hr by lia.
      rewrite decide_True in Hr by lia. done.
  - intros uf. rewrite reshape2_size_mismatch by (done || lia). done.
Qed.

End density.

(** An instance. *)
Lemma physical_density_reshape_witness :
  if decide (Z.of_nat (length (mjoin x_phys_2x1)) = (nely args_2x1 * nelx args_2x1)%Z)
  then ∃ xp, physical_density no_filter x_phys_2x1 args_2x1 false = Ok xp ∧
             physical_density no_filter x_phys_2x1 args_2x1 true
               = Ok (no_filter xp (filter_width args_2x1)) ∧
             length xp = Z.to_nat (nely args_2x1) ∧
             Forall (λ row, length row = Z.to_nat (nelx args_2x1)) xp ∧
             mjoin xp = fmul (mask args_2x1) <$> mjoin x_phys_2x1
  else ∀ use_filter,
         physical_density no_filter x_phys_2x1 args_2x1 use_filter = Raise ValueError.
Proof.
  apply (physical_density_reshape no_filter x_phys_2x1 args_2x1).
  - vm_compute. discriminate.
  - vm_compute. discriminate.
Defined.

(** ** What the driver returns and prints *)

Section driver_more.
Context `{Scalar F}.
Variable splu_solve : list (list F) → list F → pyresult (list F).
Variable ndimage_gaussian_filter : list (list F) → F → list (list F).
Variable autograd_grad : (list F → pyresult F) → list F → pyresult (list F).

Lemma length_recorded_frames (args : Args F) (reqs : list (request F)) :
  length (recorded_frames args reqs) ≤ length (filter is_objective reqs).
Proof.
  induction reqs as [|[x g|x g] reqs IH]; [done| |].
  - unfold recorded_frames. cbn [omap list_omap].
    fold (recorded_frames args reqs). rewrite filter_cons_True by done.
    destruct (reshape2 x (nely args) (nelx args)); cbn [length].
    + lia.
    + lia.
  - unfold recorded_frames. cbn [omap list_omap].
    fold (recorded_frames args reqs). by rewrite filter_cons_False by (by intros ?).
Qed.

Lemma last_recorded_frames (args : Args F) (reqs : list (request F)) fr :
  length (recorded_frames args reqs) = length (filter is_objective reqs) →
  last (recorded_frames args reqs) = Some fr →
  ∃ x grad, last (filter is_objective reqs) = Some (EvalObjective x grad) ∧
            reshape2 x (nely args) (nelx args) = Ok fr.
Proof.
  induction reqs as [|[x g|x g] reqs IH]; [done| |].
  - unfold recorded_frames. cbn [omap list_omap].
    fold (recorded_frames args reqs). rewrite filter_cons_True by done.
    pose proof (length_recorded_frames args reqs) as Hle.
    destruct (reshape2 x (nely args) (nelx args)) as [fr0|e] eqn:Hr;
      cbn [length]; [|lia].
    intros Hl Hlast. rewrite last_cons in Hlast. rewrite last_cons.
    destruct (last (recorded_frames args reqs)) as [fr1|] eqn:Hl1.
    + injection Hlast as ->.
      destruct IH as (x' & g' & -> & Hr'); [lia|done|]. by exists x', g'.
    + injection Hlast as ->. apply last_None in Hl1. rewrite Hl1 in Hl.
      destruct (filter is_objective reqs); [|done]. by exists x, g.
  - unfold recorded_frames. cbn [omap list_omap].
    fold (recorded_frames args reqs). rewrite filter_cons_False by (by intros ?).
    apply IH.
Qed.

Lemma fast_stopt_Ok (args : Args F) (x : option (list (list F)))
    (verbose : bool) (optimizer : list F → list (request F)) (w w' : world F)
    (losses : list F) (last_frame : list (list F)) (frames : list (list (list F))) :
  fast_stopt splu_solve ndimage_gaussian_filter autograd_grad args x verbose optimizer w
    = (Ok (losses, last_frame, frames), w') →
  let reqs := optimizer (mjoin (initial_design args x)) in
  losses = recorded_losses (objective_fn splu_solve ndimage_gaussian_filter args) reqs ∧
  frames = recorded_frames args reqs ∧
  length losses = length (filter is_objective reqs) ∧
  length frames = length (filter is_objective reqs) ∧
  ∃ fr, last frames = Some fr ∧
        reshape2 (mjoin fr) (nely args) (nelx args) = Ok last_frame.
Proof.
  intros Hrun reqs.
  unfold fast_stopt in Hrun. fold reqs in Hrun.
  set (w1 := print _ _) in Hrun.
  destruct (run_callbacks _ _ reqs w1) as [[resp|e] w2] eqn:Hcb; [|done].
  destruct (run_callbacks_heap autograd_grad args verbose
              (objective_fn splu_solve ndimage_gaussian_filter args)
              (constraint ndimage_gaussian_filter args)
              (length (heap w)) (S (length (heap w))) ltac:(lia) reqs w1 resp w2 Hcb)
    as (Hheap & Hl1 & Hl2).
  assert (Hlo : heap w2 !! length (heap w)
                = Some (ItemFloat <$> recorded_losses
                          (objective_fn splu_solve ndimage_gaussian_filter args) reqs)).
  { rewrite Hheap. rewrite list_lookup_alter_ne by lia.
    rewrite list_lookup_alter. unfold w1; simpl.
    rewrite lookup_app_r by lia. rewrite decide_True by done.
    by rewrite Nat.sub_diag. }
  assert (Hfr : heap w2 !! S (length (heap w))
                = Some (ItemArray <$> recorded_frames args reqs)).
  { rewrite Hheap. rewrite list_lookup_alter, decide_True by done.
    rewrite list_lookup_alter_ne by lia. unfold w1; simpl.
    rewrite lookup_app_r by lia.
    by replace (S (length (heap w)) - length (heap w)) with 1 by lia. }
  rewrite Hlo, Hfr in Hrun. simpl in Hrun.
  rewrite float_items_fmap, array_items_fmap in Hrun.
  destruct (last (recorded_frames args reqs)) as [fr|] eqn:Hlast; [|done].
  destruct (reshape2 (mjoin fr) (nely args) (nelx args)) as [fr'|] eqn:Hr; [|done].
  injection Hrun as <- <- <- <-.
  split_and!; try done. by exists fr.
Qed.

Lemma length_recorded_losses (obj_fn : list F → pyresult F) (reqs : list (request F)) :
  length (recorded_losses obj_fn reqs) ≤ length (filter is_objective reqs).
Proof.
  induction reqs as [|[x g|x g] reqs IH]; [done| |].
  - unfold recorded_losses. cbn [omap list_omap].
    fold (recorded_losses obj_fn reqs). rewrite filter_cons_True by done.
    destruct (obj_fn x); cbn [length]; lia.
  - unfold recorded_losses. cbn [omap list_omap].
    fold (recorded_losses obj_fn reqs). by rewrite filter_cons_False by (by intros ?).
Qed.

Lemma last_recorded_losses (obj_fn : list F → pyresult F) (reqs : list (request F))
    px grad :
  length (recorded_losses obj_fn reqs) = length (filter is_objective reqs) →
  last (filter is_objective reqs) = Some (EvalObjective px grad) →
  ∃ v, obj_fn px = Ok v ∧ last (recorded_losses obj_fn reqs) = Some v.
Proof.
  induction reqs as [|[y g|y g] reqs IH]; [done| |].
  - unfold recorded_losses. cbn [omap list_omap].
    fold (recorded_losses obj_fn reqs). rewrite filter_cons_True by done.
    pose proof (length_recorded_losses obj_fn reqs) as Hle.
    destruct (obj_fn y) as [v0|e] eqn:Hy; cbn [length]; [|lia].
    intros Hl Hlq. rewrite last_cons in Hlq. rewrite last_cons.
    destruct (last (filter is_objective reqs)) as [q|] eqn:Hq.
    + injection Hlq as ->.
      destruct IH as (v & Hv & ->); [lia|done|]. by exists v.
    + injection Hlq as -> ->. apply last_None in Hq. rewrite Hq in Hl.
      destruct (recorded_losses obj_fn reqs); [|done]. by exists v0.
  - unfold recorded_losses. cbn [omap list_omap].
    fold (recorded_losses obj_fn reqs). rewrite filter_cons_False by (by intros ?).
    apply IH.
Qed.

(** X4: when [fast_stopt] returns, the design it returns is the last frame,
    which is the point of the optimizer's last objective evaluation,
    reshaped; the last loss is the objective value there, and there are as
    many losses as frames. *)
Theorem fast_stopt_returns_last_evaluated (args : Args F) (x : option (list (list F)))
    (verbose : bool) (optimizer : list F → list (request F)) (w w' : world F)
    (losses : list F) (last_frame : list (list F)) (frames : list (list (list F))) :
  fast_stopt splu_solve ndimage_gaussian_filter autograd_grad args x verbose optimizer w
    = (Ok (losses, last_frame, frames), w') →
  last frames = Some last_frame ∧
  length losses = length frames ∧
  ∃ px grad v,
    last (filter is_objective (optimizer (mjoin (initial_design args x))))
      = Some (EvalObjective px grad) ∧
    reshape2 px (nely args) (nelx args) = Ok last_frame ∧
    objective_fn splu_solve ndimage_gaussian_filter args px = Ok v ∧
    last losses = Some v.
Proof.
  intros Hrun.
  destruct (fast_stopt_Ok _ _ _ _ _ _ _ _ _ Hrun) as (Hlo & Hfr & Hl1 & Hl2 & fr & Hlast & Hr).
  cbv zeta in *.
  rewrite Hfr in Hlast, Hl2. rewrite Hlo in Hl1.
  destruct (last_recorded_frames _ _ _ Hl2 Hlast) as (px & grad & Hlq & Hpx).
  destruct (last_recorded_losses _ _ _ _ Hl1 Hlq) as (v & Hv & Hlv).
  rewrite (proj1 (reshape2_Ok _ _ _ _ Hpx)) in Hr.
  assert (fr = last_frame) as -> by congruence.
  split_and!; [by rewrite Hfr|by rewrite Hlo, Hl1, Hfr, Hl2|].
  exists px, grad, v. by rewrite Hlo.
Qed.


End driver_more.

(** An instance. *)
Lemma fast_stopt_returns_last_evaluated_witness :
  last [[[(2 # 5)%Q; (2 # 5)%Q]]] = Some [[(2 # 5)%Q; (2 # 5)%Q]] ∧
  length [(10100000000000 # 24000000351)%Q] = length [[[(2 # 5)%Q; (2 # 5)%Q]]] ∧
  ∃ px grad v,
    last (filter is_objective (two_calls (mjoin (initial_design args_2x1 None))))
      = Some (EvalObjective px grad) ∧
    reshape2 px (nely args_2x1) (nelx args_2x1) = Ok [[(2 # 5)%Q; (2 # 5)%Q]] ∧
    objective_fn gauss_solve no_filter args_2x1 px = Ok v ∧
    last [(10100000000000 # 24000000351)%Q] = Some v.
Proof.
  apply (fast_stopt_returns_last_evaluated gauss_solve no_filter (fd_grad (1 # 100)%Q)
           args_2x1 None true two_calls (mk_world [] [] [])
           (mk_world [[ItemFloat (10100000000000 # 24000000351)%Q];
                      [ItemArray [[(2 # 5)%Q; (2 # 5)%Q]]]]
                     [OutNodes 12] [])
           [(10100000000000 # 24000000351)%Q] [[(2 # 5)%Q; (2 # 5)%Q]]
           [[[(2 # 5)%Q; (2 # 5)%Q]]]).
  vm_compute. reflexivity.
Defined.


Section wrapper_more.
Context `{Scalar F}.
Variable splu_solve : list (list F) → list F → pyresult (list F).
Variable ndimage_gaussian_filter : list (list F) → F → list (list F).
Variable autograd_grad : (list F → pyresult F) → list F → pyresult (list F).

(** X6: when [func] raises, the callback raises the same exception and
    records nothing: the gradient buffer, the lists and the output are as
    before. *)
Theorem wrapper_failed_evaluation (args : Args F) (verbose : bool)
    (func : list F → pyresult F) (losses frames : option nat)
    (x grad : list F) (w : world F) (e : exn) :
  func x = Raise e →
  let res := wrap_autograd_func autograd_grad args verbose func losses frames x grad w in
  res.1.1 = Raise e ∧ res.1.2 = grad ∧
  heap res.2 = heap w ∧ stdout res.2 = stdout w.
Proof.
  intros Hf res. subst res. unfold wrap_autograd_func, wrapper_evaluate, value_and_grad.
  rewrite Hf. by case_decide.
Qed.

Lemma wrapper_evaluate_stdout func x grad (w : world F) :
  stdout (wrapper_evaluate autograd_grad func x grad w).2 = stdout w.
Proof.
  unfold wrapper_evaluate, value_and_grad. case_decide; [|done].
  destruct (func x) as [v|e]; [|done]. rewrite bind_ret.
  destruct (autograd_grad func x) as [g|e]; [|done]. rewrite bind_ret.
  by destruct (assign_slice grad g).
Qed.

Lemma wrap_quiet (args : Args F) func losses frames x grad (w : world F) :
  stdout (wrap_autograd_func autograd_grad args false func losses frames x grad w).2
  = stdout w.
Proof.
  rewrite wrap_autograd_func_unfold.
  pose proof (wrapper_evaluate_stdout func x grad w) as Hs.
  destruct (wrapper_evaluate autograd_grad func x grad w) as [[[v|e] g1] w1];
    cbn [fst snd] in *; [|done].
  unfold wrapper_record.
  destruct frames as [fl|]; [|by destruct losses].
  destruct (reshape2 x (nely args) (nelx args)); by destruct losses.
Qed.

Lemma run_callbacks_quiet
    (obj con : list F → list F → world F → pyresult F * list F * world F) reqs w :
  (∀ x g w0, stdout (obj x g w0).2 = stdout w0) →
  (∀ x g w0, stdout (con x g w0).2 = stdout w0) →
  stdout (run_callbacks obj con reqs w).2 = stdout w.
Proof.
  intros Ho Hc. revert w. induction reqs as [|req reqs IH]; intros w; [done|].
  cbn [run_callbacks].
  assert (∀ cb : list F → list F → world F → pyresult F * list F * world F,
            (∀ x g w0, stdout (cb x g w0).2 = stdout w0) → ∀ x g,
            stdout (let '(r, grad', w') := cb x g w in
                    match r with
                    | Raise e => (Raise e, w')
                    | Ok v => let '(rs, w'') := run_callbacks obj con reqs w' in
                              (resp ← rs; Ok ((v, grad') :: resp), w'')
                    end).2 = stdout w) as Hstep.
  { intros cb Hcb x g. specialize (Hcb x g w).
    destruct (cb x g w) as [[[v|e] g1] w1]; cbn [snd] in *; [|done].
    specialize (IH w1). destruct (run_callbacks obj con reqs w1) as [rs w2].
    cbn [snd] in *. congruence. }
  destruct req as [x g|x g]; by apply Hstep.
Qed.

(** X7: with [verbose=False] the only [print] that [fast_stopt] executes,
    whatever the optimizer does and whether or not the run fails, is the
    opening line with [len(args.forces)]. *)
Theorem fast_stopt_quiet (args : Args F) (x : option (list (list F)))
    (optimizer : list F → list (request F)) (w : world F) :
  stdout (fast_stopt splu_solve ndimage_gaussian_filter autograd_grad args x false
            optimizer w).2
  = stdout w ++ [OutNodes (length (forces args))].
Proof.
  unfold fast_stopt.
  set (w1 := print _ _).
  pose proof (run_callbacks_quiet
                (wrap_autograd_func autograd_grad args false
                   (objective_fn splu_solve ndimage_gaussian_filter args)
                   (Some (length (heap w))) (Some (S (length (heap w)))))
                (wrap_autograd_func autograd_grad args false
                   (constraint ndimage_gaussian_filter args) None None)
                (optimizer (mjoin (initial_design args x))) w1
                ltac:(intros; apply wrap_quiet) ltac:(intros; apply wrap_quiet)) as Hq.
  destruct (run_callbacks _ _ _ w1) as [[resp|e] w2]; cbn [snd] in *; [|done].
  destruct (last _); [|done].
  by destruct (reshape2 _ _ _).
Qed.

(** X8: a verbose objective callback asked for no gradient appends the
    value to [losses] and the reshaped point to [frames]; it then prints the
    progress line exactly when the new length of [frames] is a multiple
    of [print_every], and raises ZeroDivisionError, after both appends, when
    [print_every] is 0. *)
Theorem wrapper_progress_line (args : Args F) (func : list F → pyresult F)
    (l fl : nat) (x : list F) (w : world F) (v : F) (fr : list (list F))
    (items : list (pyitem F)) :
  func x = Ok v →
  reshape2 x (nely args) (nelx args) = Ok fr →
  l ≠ fl → heap w !! fl = Some items →
  let res := wrap_autograd_func autograd_grad args true func (Some l) (Some fl) x [] w in
  let n := S (length items) in
  heap res.2 = alter (λ its, its ++ [ItemArray fr]) fl
                 (alter (λ its, its ++ [ItemFloat v]) l (heap w)) ∧
  if decide (print_every args = 0) then
    res.1.1 = Raise ZeroDivisionError ∧ stdout res.2 = stdout w
  else
    res.1.1 = Ok v ∧
    stdout res.2 = if decide (n mod print_every args = 0)
                   then stdout w ++ [OutStep n v] else stdout w.
Proof.
  intros Hf Hr Hne Hit res n. subst res.
  unfold wrap_autograd_func, wrapper_evaluate. cbn [length].
  rewrite decide_False by lia. rewrite Hf.
  unfold wrapper_record. rewrite Hr.
  assert (list_len fl (list_append fl (ItemArray fr) (list_append l (ItemFloat v) w)) = n)
    as Hn.
  { unfold list_len, list_append. cbn [heap].
    rewrite list_lookup_alter, decide_True by done.
    rewrite list_lookup_alter_ne by done. rewrite Hit. simpl.
    rewrite length_app. simpl. lia. }
  rewrite Hn.
  destruct (decide (print_every args = 0)) as [Hp|Hp]; [done|].
  by destruct (decide (n mod print_every args = 0)).
Qed.

End wrapper_more.

(** An instance. *)
Lemma wrapper_failed_evaluation_witness :
  let res := wrap_autograd_func (fd_grad (1 # 100)%Q) args_2x1 true
               (objective_fn gauss_solve no_filter args_2x1) (Some 0) (Some 1)
               [1%Q] [] (mk_world [[]; []] [] []) in
  res.1.1 = Raise ValueError ∧ res.1.2 = [] ∧
  heap res.2 = heap (mk_world (F:=Q) [[]; []] [] []) ∧
  stdout res.2 = stdout (mk_world (F:=Q) [[]; []] [] []).
Proof.
  apply (wrapper_failed_evaluation (fd_grad (1 # 100)%Q) args_2x1 true
           (objective_fn gauss_solve no_filter args_2x1) (Some 0) (Some 1)
           [1%Q] [] (mk_world [[]; []] [] []) ValueError).
  reflexivity.
Defined.

(** An instance. *)
Lemma wrapper_progress_line_witness :
  let w := mk_world (F:=Q) [[]; replicate 9 (ItemArray [])] [] [] in
  let res := wrap_autograd_func (fd_grad (1 # 100)%Q) args_2x1 true
               (constraint no_filter args_2x1) (Some 0) (Some 1)
               [(2 # 5)%Q; (2 # 5)%Q] [] w in
  let n := S (length (replicate 9 (ItemArray (F:=Q) []))) in
  heap res.2 = alter (λ its, its ++ [ItemArray [[(2 # 5)%Q; (2 # 5)%Q]]]) 1
                 (alter (λ its, its ++ [ItemFloat 0%Q]) 0 (heap w)) ∧
  if decide (print_every args_2x1 = 0) then
    res.1.1 = Raise ZeroDivisionError ∧ stdout res.2 = stdout w
  else
    res.1.1 = Ok 0%Q ∧
    stdout res.2 = if decide (n mod print_every args_2x1 = 0)
                   then stdout w ++ [OutStep n 0%Q] else stdout w.
Proof.
  apply (wrapper_progress_line (fd_grad (1 # 100)%Q) args_2x1
           (constraint no_filter args_2x1) 0 1 [(2 # 5)%Q; (2 # 5)%Q]
           (mk_world [[]; replicate 9 (ItemArray [])] [] []) 0%Q
           [[(2 # 5)%Q; (2 # 5)%Q]] (replicate 9 (ItemArray []))).
  - reflexivity.
  - reflexivity.
  - lia.
  - reflexivity.
Defined.

(** ** The textbook beam *)

Lemma foldl_insert_Some {A} (f : nat → nat) (v : A) (js : list nat) (a : list A) i y :
  (foldl (λ a j, <[f j := v]> a) a js) !! i = Some y ↔
    (i ∈ f <$> js ∧ y = v ∧ i < length a) ∨ ((i ∉ f <$> js) ∧ a !! i = Some y).
Proof.
  revert a. induction js as [|j js IH]; intros a.
  - simpl. rewrite elem_of_nil. tauto.
  - cbn [foldl]. rewrite IH, length_insert, list_lookup_insert_Some.
    rewrite fmap_cons, elem_of_cons.
    assert (v = y ↔ y = v) as Hvy by (split; congruence).
    assert (f j = i ↔ i = f j) as Hji by (split; congruence).
    destruct (decide (i ∈ f <$> js)), (decide (i = f j)); tauto.
Qed.

Lemma foldl_insert_length {A} (f : nat → nat) (v : A) (js : list nat) (a : list A) :
  length (foldl (λ a j, <[f j := v]> a) a js) = length a.
Proof.
  revert a. induction js as [|j js IH]; intros a; [done|].
  cbn [foldl]. by rewrite IH, length_insert.
Qed.

Section beam.
Context `{Scalar F}.

Lemma elem_of_flatnonzero_from (i : nat) (a : list F) (d : nat) :
  d ∈ flatnonzero_from i a ↔
    ∃ v, i ≤ d ∧ a !! (d - i) = Some v ∧ fnonzero v = true.
Proof.
  revert i. induction a as [|v a IH]; intros i.
  - simpl. rewrite elem_of_nil. split; [done|].
    intros (v & _ & Hl & _). by rewrite lookup_nil in Hl.
  - cbn [flatnonzero_from].
    assert (d ∈ flatnonzero_from (S i) a ↔
            ∃ v0, i ≤ d ∧ d ≠ i ∧ (v :: a) !! (d - i) = Some v0 ∧ fnonzero v0 = true)
      as Htl.
    { rewrite IH. split.
      - intros (v0 & Hd & Hl & Hn). exists v0. split_and!; [lia|lia| |done].
        by replace (d - i) with (S (d - S i)) by lia.
      - intros (v0 & Hd & Hne & Hl & Hn). exists v0. split_and!; [lia| |done].
        by replace (d - i) with (S (d - S i)) in Hl by lia. }
    destruct (fnonzero v) eqn:Hv.
    + rewrite elem_of_cons, Htl. split.
      * intros [->|(v0 & ? & ? & ? & ?)]; [|by exists v0].
        exists v. by rewrite Nat.sub_diag.
      * intros (v0 & Hd & Hl & Hn). destruct (decide (d = i)) as [->|]; [by left|].
        right. by exists v0.
    + rewrite Htl. split.
      * intros (v0 & ? & ? & ? & ?). by exists v0.
      * intros (v0 & Hd & Hl & Hn). exists v0. split_and!; [done| |done..].
        intros ->. rewrite Nat.sub_diag in Hl. injection Hl as <-. congruence.
Qed.

Lemma doubles_sorted (i n : nat) :
  StronglySorted lt ((λ j, 2 * j) <$> seq i n).
Proof.
  revert i. induction n as [|m IH]; intros i; [constructor|].
  cbn [seq]. rewrite fmap_cons. constructor; [apply IH|].
  apply Forall_forall. intros d Hd. apply list_elem_of_fmap in Hd as (j & -> & Hj).
  apply elem_of_seq in Hj. lia.
Qed.

Lemma supports_sorted (w h : nat) :
  StronglySorted lt (((λ j, 2 * j) <$> seq 0 (h + 1)) ++ [2 * (w + 1) * (h + 1) - 1]).
Proof.
  apply StronglySorted_app_2.
  - intros x1 x2 Hx1 Hx2. apply list_elem_of_fmap in Hx1 as (j & -> & Hj).
    apply elem_of_seq in Hj. apply list_elem_of_singleton in Hx2 as ->. nia.
  - apply doubles_sorted.
  - repeat constructor.
Qed.

(** X9: [get_args] on the arrays of [mbb_beam] with the default axes
    (y = 1, x = 0): [nelx] and [nely] are the width and the height, the
    fixed DOFs are the horizontal DOFs 0, 2, .., 2*height of the left edge
    followed by the vertical DOF of the last node, the free DOFs are all
    others, and the load is -1 at DOF 1 and zero elsewhere. *)
Theorem mbb_beam_setup (width height : nat) (density_ : F) :
  fnonzero fzero = false → fnonzero (fint 1) = true →
  let b := mbb_beam width height density_ 1 0 in
  let a := get_args b.1.1 b.1.2 b.2 in
  let n := 2 * (width + 1) * (height + 1) in
  nelx a = Z.of_nat width ∧ nely a = Z.of_nat height ∧ density a = density_ ∧
  wf_ndarray3 b.1.1 ∧ wf_ndarray3 b.1.2 ∧
  fixdofs a = ((λ j, 2 * j) <$> seq 0 (height + 1)) ++ [n - 1] ∧
  (∀ d, d ∈ freedofs a ↔ d < n ∧ d ∉ fixdofs a) ∧
  forces a = <[1 := fopp (fint 1)]> (replicate n fzero).
Proof.
  intros Hz Ho b a n.
  assert (Hsize : (width + 1) * (height + 1) * 2 = n) by (unfold n; lia).
  assert (Hfix : fixdofs a = ((λ j, 2 * j) <$> seq 0 (height + 1)) ++ [n - 1]).
  { apply (StronglySorted_unique_strong lt); [intros; lia|..].
    - apply flatnonzero_from_sorted.
    - apply supports_sorted.
    - apply NoDup_Permutation.
      + apply StronglySorted_lt_NoDup, flatnonzero_from_sorted.
      + apply StronglySorted_lt_NoDup, supports_sorted.
      + intros d. unfold a, get_args, flatnonzero. cbn [fixdofs].
        rewrite elem_of_flatnonzero_from, Nat.sub_0_r.
        unfold b, mbb_beam. cbn [fst snd ravel].
        rewrite elem_of_app, list_elem_of_singleton, list_elem_of_fmap.
        setoid_rewrite (foldl_insert_Some
                          (λ j, (0 * (height + 1) + j) * 2 + 0) (fint 1)).
        setoid_rewrite list_lookup_insert_Some.
        setoid_rewrite lookup_replicate.
        setoid_rewrite length_insert. setoid_rewrite length_replicate.
        setoid_rewrite list_elem_of_fmap. setoid_rewrite elem_of_seq.
        rewrite Hsize. split.
        * intros (v & _ & [((j & -> & Hj) & -> & Hlt)|(Hnot & [(<- & <- & Hlt)|(Hne & -> & Hlt)])] & Hnz).
          -- left. exists j. split; [lia|done].
          -- right. unfold n. lia.
          -- congruence.
        * intros [(j & -> & Hj)| ->].
          -- exists (fint 1). split_and!; [lia| |done].
             left. split_and!; [|done|unfold n; nia]. exists j. split; [lia|done].
          -- exists (fint 1). split_and!; [lia| |done].
             right. split.
             ++ intros (j & Hj & Hr). unfold n in Hj. nia.
             ++ left. split_and!; [unfold n; lia|done|unfold n; lia]. }
  split_and!.
  - unfold a, get_args, b, mbb_beam. cbn. lia.
  - unfold a, get_args, b, mbb_beam. cbn. lia.
  - done.
  - unfold wf_ndarray3, b, mbb_beam. cbn [fst snd shape3 ravel].
    by rewrite foldl_insert_length, length_insert, length_replicate.
  - unfold wf_ndarray3, b, mbb_beam. cbn [fst snd shape3 ravel].
    by rewrite length_insert, length_replicate.
  - done.
  - intros d. rewrite Hfix. unfold a at 1, get_args. cbn [freedofs].
    rewrite sorted_difference_elem. rewrite <- Hfix.
    unfold arange. rewrite elem_of_seq. cbn [shape3 fst snd b mbb_beam].
    replace (Z.to_nat _) with n by (unfold n; lia).
    split; intros [? ?]; split; (lia || done).
  - unfold a, get_args, b, mbb_beam. cbn [forces fst snd ravel].
    rewrite Hsize. done.
Qed.

End beam.

(** An instance. *)
Lemma mbb_beam_setup_witness :
  let b := mbb_beam 2 1 (4 # 10)%Q 1 0 in
  let a := get_args b.1.1 b.1.2 b.2 in
  let n := 2 * (2 + 1) * (1 + 1) in
  nelx a = Z.of_nat 2 ∧ nely a = Z.of_nat 1 ∧ density a = (4 # 10)%Q ∧
  wf_ndarray3 b.1.1 ∧ wf_ndarray3 b.1.2 ∧
  fixdofs a = ((λ j, 2 * j) <$> seq 0 (1 + 1)) ++ [n - 1] ∧
  (∀ d, d ∈ freedofs a ↔ d < n ∧ d ∉ fixdofs a) ∧
  forces a = <[1 := fopp (fint 1)]> (replicate n fzero).
Proof.
  apply (mbb_beam_setup 2 1 (4 # 10)%Q).
  - reflexivity.
  - reflexivity.
Defined.

(** X10: wherever [1 - nu**2] is not zero (Python's division raises
    there), [get_stiffness_matrix] is an 8 by 8 table, symmetric, with one
    value on the whole diagonal. *)
Theorem get_stiffness_matrix_8x8_symmetric `{Scalar F} (e nu : F) :
  fnonzero (fsub (fint 1) (fpow nu (fint 2))) = true →
  length (get_stiffness_matrix e nu) = 8 ∧
  Forall (λ r, length r = 8) (get_stiffness_matrix e nu) ∧
  (∀ a b, lookup2 (get_stiffness_matrix e nu) a b
          = lookup2 (get_stiffness_matrix e nu) b a) ∧
  (∀ a, a < 8 → lookup2 (get_stiffness_matrix e nu) a a
                = lookup2 (get_stiffness_matrix e nu) 0 0).
Proof.
  intros _. destruct (get_stiffness_matrix_shape e nu) as [Hl Hr].
  split_and!; [done|done|apply get_stiffness_matrix_symmetric|].
  intros a Ha. unfold get_stiffness_matrix.
  do 8 (destruct a as [|a]; [reflexivity|]). lia.
Qed.

Lemma Qred_zero (x : Q) : (x == 0)%Q → Qred x = 0%Q.
Proof. intros Hx. by rewrite (Qred_complete _ _ Hx). Qed.

(** X11: in exact rational arithmetic every row of the element matrix
    sums to zero over the four horizontal DOFs and over the four vertical
    DOFs: a rigid translation of the element produces no force. *)
Theorem get_stiffness_matrix_rigid_translation (e nu : Q) (a : nat) (row : list Q) :
  fnonzero (fsub (fint 1) (fpow nu (fint 2))) = true →
  get_stiffness_matrix e nu !! a = Some row →
  fsum (zip_with fmul row [1; 0; 1; 0; 1; 0; 1; 0]%Q) = 0%Q ∧
  fsum (zip_with fmul row [0; 1; 0; 1; 0; 1; 0; 1]%Q) = 0%Q.
Proof.
  intros _. unfold get_stiffness_matrix.
  generalize (fdiv e (fsub (fint 1) (fpow nu (fint 2)))) as scale. intros scale.
  unfold stiffness_layout, map2, stiffness_coeffs.
  cbn [fmap list_fmap lookup list_lookup default].
  intros Hrow.
  do 8 (destruct a as [|a];
        [cbn [lookup list_lookup] in Hrow; injection Hrow as <-;
         cbn [zip_with]; unfold fsum; cbn [foldl];
         split; apply Qred_zero;
         unfold fadd, fmul, fsub, fdiv, fopp, fzero, fint, Q_scalar;
         rewrite !Qred_correct; unfold id, inject_Z; field|]).
  done.
Qed.

(** An instance. *)
Lemma get_stiffness_matrix_rigid_translation_witness :
  fsum (zip_with fmul (default [] (ke_2x1 !! 2)) [1; 0; 1; 0; 1; 0; 1; 0]%Q) = 0%Q ∧
  fsum (zip_with fmul (default [] (ke_2x1 !! 2)) [0; 1; 0; 1; 0; 1; 0; 1]%Q) = 0%Q.
Proof.
  apply (get_stiffness_matrix_rigid_translation 1%Q (3 # 10)%Q 2).
  - reflexivity.
  - reflexivity.
Defined.

(** An instance. *)
Lemma get_stiffness_matrix_8x8_symmetric_witness :
  length ke_2x1 = 8 ∧
  Forall (λ r, length r = 8) ke_2x1 ∧
  (∀ a b, lookup2 ke_2x1 a b = lookup2 ke_2x1 b a) ∧
  (∀ a, a < 8 → lookup2 ke_2x1 a a = lookup2 ke_2x1 0 0).
Proof.
  apply (get_stiffness_matrix_8x8_symmetric 1%Q (3 # 10)%Q). reflexivity.
Defined.

Lemma transpose2_lookup {A} (n : nat) (a : list (list A)) (i j : nat) :
  Forall (λ r, length r = n) a →
  lookup2 (transpose2 n a) i j = lookup2 a j i.
Proof.
  intros Ha. revert j. induction Ha as [|row a Hrow Ha IH]; intros j.
  - cbn [transpose2]. unfold lookup2. rewrite lookup_nil.
    destruct (replicate n [] !! i) as [c|] eqn:Hc; [|done].
    apply lookup_replicate in Hc as [-> _]. done.
  - cbn [transpose2]. destruct (transpose2_shape n a Ha) as [Hl Hf].
    unfold lookup2 at 1. rewrite lookup_zip_with.
    destruct (row !! i) as [x|] eqn:Hx; cbn [mbind option_bind].
    + destruct (transpose2 n a !! i) as [c|] eqn:Hc; cbn [mbind option_bind].
      * destruct j as [|j]; [by unfold lookup2; simpl; rewrite Hx|].
        specialize (IH j). unfold lookup2 in IH at 1. rewrite Hc in IH.
        simpl. exact IH.
      * apply lookup_ge_None in Hc. apply lookup_lt_Some in Hx. lia.
    + destruct j as [|j]; [by unfold lookup2; simpl; rewrite Hx|].
      change (lookup2 (row :: a) (S j) i) with (lookup2 a j i).
      rewrite <- IH. unfold lookup2.
      apply lookup_ge_None in Hx.
      by rewrite (proj2 (lookup_ge_None (transpose2 n a) i)) by lia.
Qed.

(** X12: on a [nely] by [nelx] field [get_k] returns three arrays of
    [64 * nelx * nely] entries; every DOF number in them is below
    [2 * (nelx+1) * (nely+1)]; and the value at position
    [(i*nely + j)*64 + a*8 + b] is [stiffness[j, i] * ke[a, b]]. *)
Theorem get_k_triplet_values `{Scalar F} (stiffness ke : list (list F))
    (nely nelx i j a b : nat) :
  shape2 stiffness = (nely, nelx) →
  Forall (λ r, length r = nelx) stiffness →
  length ke = 8 → Forall (λ r, length r = 8) ke →
  i < nelx → j < nely → a < 8 → b < 8 →
  let k := get_k stiffness ke in
  length k.1.1 = 64 * nelx * nely ∧
  length k.1.2 = 64 * nelx * nely ∧
  length k.2 = 64 * nelx * nely ∧
  Forall (λ d, d < 2 * (nelx + 1) * (nely + 1)) k.1.2 ∧
  Forall (λ d, d < 2 * (nelx + 1) * (nely + 1)) k.2 ∧
  ∃ s kab, lookup2 stiffness j i = Some s ∧ lookup2 ke a b = Some kab ∧
           k.1.1 !! ((i * nely + j) * 64 + a * 8 + b) = Some (fmul s kab).
Proof.
  intros Hsh Hrect Hke Hrows Hi Hj Ha Hb k.
  destruct (length_get_k stiffness ke nely nelx Hsh Hrect Hke Hrows) as (Hl1 & Hl2 & Hl3).
  destruct (get_k_dofs_bound stiffness ke nely nelx Hsh) as [Hb1 Hb2].
  fold k in Hl1, Hl2, Hl3, Hb1, Hb2.
  split_and!; [lia|lia|lia|done|done|].
  assert (length stiffness = nely) as Hlen by (by injection Hsh).
  destruct (lookup_lt_is_Some_2 stiffness j ltac:(lia)) as [srow Hsrow].
  assert (length srow = nelx) as Hsl.
  { rewrite Forall_forall in Hrect. apply Hrect. by eapply list_elem_of_lookup_2. }
  destruct (lookup_lt_is_Some_2 srow i ltac:(lia)) as [s Hs].
  destruct (lookup_lt_is_Some_2 ke a ltac:(lia)) as [krow Hkrow].
  assert (length krow = 8) as Hkl.
  { rewrite Forall_forall in Hrows. apply Hrows. by eapply list_elem_of_lookup_2. }
  destruct (lookup_lt_is_Some_2 krow b ltac:(lia)) as [kab Hkab].
  exists s, kab. split_and!.
  - unfold lookup2. by rewrite Hsrow.
  - unfold lookup2. by rewrite Hkrow.
  - unfold k, get_k. rewrite Hsh. cbn [fst snd].
    replace ((i * nely + j) * 64 + a * 8 + b) with ((i * nely + j) * 64 + (a * 8 + b))
      by lia.
    rewrite (lookup_bind_uniform _ _ 64); [| |lia].
    + destruct (transpose2_shape nelx stiffness Hrect) as [Htl Htf].
      rewrite Hlen in Htf.
      rewrite (lookup_join_uniform _ nely) by done.
      rewrite transpose2_lookup by done.
      unfold lookup2 at 1. rewrite Hsrow, Hs.
      rewrite (lookup_join_uniform _ 8); [| |done].
      * unfold map2. rewrite lookup2_fmap, Hkrow, list_lookup_fmap, Hkab. done.
      * unfold map2. apply Forall_fmap. eapply Forall_impl; [exact Hrows|].
        intros r Hr. unfold compose. by rewrite length_fmap.
    + apply Forall_forall. intros s0 _.
      rewrite (length_join_uniform _ 8).
      * unfold map2. rewrite length_fmap. lia.
      * unfold map2. apply Forall_fmap. eapply Forall_impl; [exact Hrows|].
        intros r Hr. unfold compose. by rewrite length_fmap.
Qed.

(** An instance. *)
Lemma get_k_triplet_values_witness :
  let k := get_k x_phys_2x1 ke_2x1 in
  length k.1.1 = 64 * 2 * 1 ∧
  length k.1.2 = 64 * 2 * 1 ∧
  length k.2 = 64 * 2 * 1 ∧
  Forall (λ d, d < 2 * (2 + 1) * (1 + 1)) k.1.2 ∧
  Forall (λ d, d < 2 * (2 + 1) * (1 + 1)) k.2 ∧
  ∃ s kab, lookup2 x_phys_2x1 0 1 = Some s ∧ lookup2 ke_2x1 2 5 = Some kab ∧
           k.1.1 !! ((1 * 1 + 0) * 64 + 2 * 8 + 5) = Some (fmul s kab).
Proof.
  apply (get_k_triplet_values x_phys_2x1 ke_2x1 1 2 1 0 2 5).
  - reflexivity.
  - repeat constructor.
  - reflexivity.
  - repeat constructor.
  - lia.
  - lia.
  - lia.
  - lia.
Defined.

(** ** Index bounds in [compliance], [displace] and [objective] *)

Lemma mapM_py_Forall {A B} (f : A → pyresult B) (l : list A) :
  Forall (λ x, ∃ y, f x = Ok y) l → ∃ r, mapM_py f l = Ok r.
Proof.
  induction 1 as [|x l [y Hy] _ [r Hr]]; [by exists []|].
  exists (y :: r). simpl. by rewrite Hy, bind_ret, Hr.
Qed.

Lemma mapM_py_raises {A B} (f : A → pyresult B) (l : list A) (e0 e : exn) :
  (∀ x e, f x = Raise e → e = e0) → mapM_py f l = Raise e → e = e0.
Proof.
  intros Hf. induction l as [|x l IH]; [done|]. simpl.
  destruct (f x) as [y|e1] eqn:Hx; [|intros [= <-]; by eapply Hf].
  rewrite bind_ret. destruct (mapM_py f l) as [r|e2]; [done|].
  intros [= <-]. by apply IH.
Qed.

Lemma take_ix_raises {A} (a : list A) (ix : list nat) (e : exn) :
  take_ix a ix = Raise e → e = IndexError.
Proof.
  induction ix as [|i ix IH]; [done|]. simpl.
  destruct (a !! i); [|by intros [= <-]].
  destruct (take_ix a ix); [done|]. intros [= <-]. by apply IH.
Qed.

Lemma dof_funs_bound (nely nelx : nat) :
  Forall (λ h : nat → nat → nat,
            ∀ x y, x < nelx → y < nely → h x y < 2 * (nelx + 1) * (nely + 1))
         (dof_funs nely).
Proof. unfold dof_funs. simpl. repeat constructor; intros x y Hx Hy; nia. Qed.

Lemma all_ixs_bound (nely nelx : nat) :
  Forall (Forall (Forall (λ d, d < 2 * (nelx + 1) * (nely + 1)))) (all_ixs nely nelx).
Proof.
  rewrite all_ixs_closed. apply Forall_fmap.
  eapply Forall_impl; [apply (dof_funs_bound nely nelx)|].
  intros h Hh. unfold compose. apply Forall_fmap, Forall_forall. intros x Hx.
  apply elem_of_seq in Hx. unfold compose. apply Forall_fmap, Forall_forall.
  intros y Hy. apply elem_of_seq in Hy. unfold compose. apply Hh; lia.
Qed.

Section compliance_bounds.
Context `{Scalar F}.

Lemma compliance_defined (x_phys : list (list F)) (u : list F)
    (ke : list (list F)) (penal e_min e_0 : F) (nely nelx : nat) :
  shape2 x_phys = (nely, nelx) →
  2 * (nelx + 1) * (nely + 1) ≤ length u →
  ∃ c, compliance x_phys u ke penal e_min e_0 = Ok c.
Proof.
  intros Hsh Hu. unfold compliance. rewrite Hsh.
  destruct (mapM_py_Forall (mapM_py (take_ix u)) (all_ixs nely nelx)) as [us Hus].
  { eapply Forall_impl; [apply all_ixs_bound|]. intros p Hp.
    apply mapM_py_Forall. eapply Forall_impl; [exact Hp|]. intros row Hrow.
    destruct (take_ix_Ok u row) as (r & Hr & _); [|by exists r].
    eapply Forall_impl; [exact Hrow|]. intros d Hd. simpl in Hd. lia. }
  rewrite Hus, bind_ret. by eexists.
Qed.

(** X13: on a non-empty grid [compliance] returns a value when [u] has at
    least [2 * (nelx+1) * (nely+1)] entries, and raises IndexError
    otherwise. *)
Theorem compliance_index_bounds (x_phys : list (list F)) (u : list F)
    (ke : list (list F)) (penal e_min e_0 : F) (nely nelx : nat) :
  shape2 x_phys = (nely, nelx) → 0 < nely → 0 < nelx →
  Forall (λ r, length r = nelx) x_phys →
  length ke = 8 → Forall (λ r, length r = 8) ke →
  if decide (2 * (nelx + 1) * (nely + 1) ≤ length u)
  then ∃ c, compliance x_phys u ke penal e_min e_0 = Ok c
  else compliance x_phys u ke penal e_min e_0 = Raise IndexError.
Proof.
  intros Hsh Hy Hx _ _ _. case_decide as Hu; [by eapply compliance_defined|].
  unfold compliance. rewrite Hsh.
  destruct (mapM_py (mapM_py (take_ix u)) (all_ixs nely nelx)) as [us|e] eqn:Hus.
  - exfalso.
    assert (lookup3 (all_ixs nely nelx) 5 (nelx - 1) (nely - 1)
            = Some (2 * ((nely + 1) * (nelx - 1 + 1) + (nely - 1 + 1)) + 1)) as Hl.
    { apply (all_ixs_lookup nely nelx (nelx - 1) (nely - 1) 5
               (λ x y, 2 * ((nely + 1) * (x + 1) + (y + 1)) + 1)); [lia|lia|done]. }
    destruct (mapM_py_take_ix_lookup3 _ _ _ _ _ _ _ Hus Hl) as [[v Hv] _].
    apply lookup_lt_Some in Hv. nia.
  - simpl. f_equal. eapply mapM_py_raises; [|exact Hus].
    intros p e1 Hp. eapply mapM_py_raises; [|exact Hp].
    intros row e2. apply take_ix_raises.
Qed.

End compliance_bounds.

(** An instance. *)
Lemma compliance_index_bounds_witness :
  if decide (2 * (2 + 1) * (1 + 1) ≤ length (replicate 11 0%Q))
  then ∃ c, compliance x_phys_2x1 (replicate 11 0%Q) ke_2x1 3%Q (1 # 1000000000)%Q 1%Q
            = Ok c
  else compliance x_phys_2x1 (replicate 11 0%Q) ke_2x1 3%Q (1 # 1000000000)%Q 1%Q
       = Raise IndexError.
Proof.
  apply (compliance_index_bounds x_phys_2x1 (replicate 11 0%Q) ke_2x1 3%Q
           (1 # 1000000000)%Q 1%Q 1 2).
  - reflexivity.
  - lia.
  - lia.
  - repeat constructor.
  - reflexivity.
  - repeat constructor.
Defined.

Lemma take_ix_out_of_range {A} (a : list A) (ix : list nat) :
  Exists (λ d, length a ≤ d) ix → take_ix a ix = Raise IndexError.
Proof.
  intros Hex. destruct (take_ix a ix) as [r|e] eqn:Ht.
  - apply Exists_exists in Hex as (d & Hin & Hd).
    apply list_elem_of_lookup in Hin as [t Hd'].
    destruct (take_ix_lookup _ _ _ _ _ Ht Hd') as [[v Hv] _].
    apply lookup_lt_Some in Hv. lia.
  - f_equal. by eapply take_ix_raises.
Qed.

Section displace_more.
Context `{Scalar F}.
Variable splu_solve : list (list F) → list F → pyresult (list F).

(** X14: with a valid partition, [displace] raises IndexError when some
    free DOF is not below [len(forces)]: [forces[freedofs]] is evaluated
    before the solve. *)
Theorem displace_short_forces (x_phys ke : list (list F)) (forces_ : list F)
    (free fixed : list nat) (penal_ e_min e_0 : F) (nely nelx : nat) :
  shape2 x_phys = (nely, nelx) →
  Forall (λ r, length r = nelx) x_phys →
  length ke = 8 → Forall (λ r, length r = 8) ke →
  valid_partition (2 * (nelx + 1) * (nely + 1)) free fixed →
  Exists (λ d, length forces_ ≤ d) free →
  displace splu_solve x_phys ke forces_ free fixed penal_ e_min e_0 = Raise IndexError.
Proof.
  intros Hsh Hrect Hke Hrows Hvp Hshort.
  set (n := 2 * (nelx + 1) * (nely + 1)) in *.
  set (k := get_k (map2 (λ x, young_modulus x e_0 e_min penal_) x_phys) ke).
  set (stiffness := map2 (λ x, young_modulus x e_0 e_min penal_) x_phys) in *.
  assert (Hshs : shape2 stiffness = (nely, nelx)) by (by unfold stiffness; rewrite shape2_map2).
  assert (Hrects : Forall (λ r, length r = nelx) stiffness).
  { unfold stiffness, map2. apply Forall_fmap. eapply Forall_impl; [exact Hrect|].
    intros r Hr. unfold compose. by rewrite length_fmap. }
  destruct (get_k_dofs_bound _ ke _ _ Hshs) as [Hky Hkx]. fold k in Hky, Hkx.
  destruct (length_get_k _ ke _ _ Hshs Hrects Hke Hrows) as (Hlv & Hly & Hlx).
  fold k in Hlv, Hly, Hlx.
  destruct (get_dof_indices_spec free fixed (k.1.2) (k.2) n) as (im & Himl & Himx & Hgd);
    [done..|lia|].
  cbv zeta in Hgd.
  set (keep := zip_with andb (isin (k.1.2) free) (isin (k.2) free)) in *.
  assert (Hkl : length keep = length (k.1.1)).
  { unfold keep, isin. rewrite length_zip_with, !length_fmap. lia. }
  unfold displace. fold stiffness. fold k.
  clearbody k. destruct k as [[kv ky] kx]. cbn [fst snd] in *.
  rewrite Hgd, bind_ret, select_mask_Ok, bind_ret by done.
  by rewrite take_ix_out_of_range.
Qed.

End displace_more.

(** An instance. *)
Lemma displace_short_forces_witness :
  displace gauss_solve x_phys_2x1 ke_2x1 (replicate 10 0%Q) (freedofs args_2x1)
    (fixdofs args_2x1) 3%Q (1 # 1000000000)%Q 1%Q = Raise IndexError.
Proof.
  apply (displace_short_forces gauss_solve x_phys_2x1 ke_2x1 (replicate 10 0%Q)
           (freedofs args_2x1) (fixdofs args_2x1) 3%Q (1 # 1000000000)%Q 1%Q 1 2).
  - reflexivity.
  - repeat constructor.
  - reflexivity.
  - repeat constructor.
  - exact valid_partition_2x1.
  - apply (bool_decide_unpack _). vm_compute. exact I.
Defined.

Lemma take_ix_length {A} (a : list A) (ix : list nat) (r : list A) :
  take_ix a ix = Ok r → length r = length ix.
Proof.
  revert r. induction ix as [|i ix IH]; intros r; simpl; [by intros [= <-]|].
  destruct (a !! i); [|done]. destruct (take_ix a ix) as [r'|]; [|done].
  intros [= <-]. simpl. by rewrite (IH r').
Qed.

Lemma get_dof_indices_length (free fixed xs ys : list nat) im keep ind :
  _get_dof_indices free fixed xs ys = Ok (im, keep, ind) →
  length im = length free + length fixed.
Proof.
  unfold _get_dof_indices, inverse_permutation. intros Hg.
  destruct (scatter_arange _ _ _) as [im0|] eqn:Hs; [|done].
  apply scatter_arange_length in Hs. rewrite length_replicate, length_app in Hs.
  rewrite bind_ret in Hg.
  repeat (apply bind_Ok in Hg as (? & _ & Hg)). by injection Hg as <- _ _.
Qed.

Section objective_more.
Context `{Scalar F}.
Variable splu_solve : list (list F) → list F → pyresult (list F).
Variable ndimage_gaussian_filter : list (list F) → F → list (list F).

Lemma displace_length (x_phys ke : list (list F)) (forces_ : list F)
    (free fixed : list nat) (penal_ e_min e_0 : F) (u : list F) :
  displace splu_solve x_phys ke forces_ free fixed penal_ e_min e_0 = Ok u →
  length u = length free + length fixed.
Proof.
  unfold displace. destruct (get_k _ ke) as [[k_entries k_ylist] k_xlist].
  intros Hd.
  destruct (_get_dof_indices free fixed k_ylist k_xlist) as [[[im keep] ind]|] eqn:Hg;
    [|done].
  apply get_dof_indices_length in Hg. rewrite bind_ret in Hd.
  repeat (apply bind_Ok in Hd as (? & _ & Hd)).
  apply take_ix_length in Hd. lia.
Qed.

Lemma shape2_rect {A} (x : list (list A)) (r k : nat) :
  0 < r → length x = r → Forall (λ row, length row = k) x → shape2 x = (r, k).
Proof.
  intros Hr Hl Hrows. unfold shape2. destruct x as [|row x]; [simpl in Hl; lia|].
  apply Forall_cons in Hrows as [Hrow _]. simpl. by rewrite <- Hl, Hrow.
Qed.

Hypothesis filter_shape : ∀ (x : list (list F)) (w : F) (r k : nat),
  length x = r → Forall (λ row, length row = k) x →
  length (ndimage_gaussian_filter x w) = r ∧
  Forall (λ row, length row = k) (ndimage_gaussian_filter x w).

Lemma physical_density_shape (x : list (list F)) (args : Args F) (use_filter : bool)
    (x_phys : list (list F)) :
  (0 < nely args)%Z → (0 ≤ nelx args)%Z →
  physical_density ndimage_gaussian_filter x args use_filter = Ok x_phys →
  shape2 x_phys = (Z.to_nat (nely args), Z.to_nat (nelx args)).
Proof.
  intros Hy Hx. unfold physical_density. intros Hp.
  apply bind_Ok in Hp as (x' & Hr & Hp). injection Hp as <-.
  destruct (reshape2_Ok _ _ _ _ Hr) as (_ & rows & cols & Hl & Hrows & _ & Hrw & Hcl).
  rewrite (Hrw ltac:(lia)) in Hl. rewrite (Hcl Hx) in Hrows.
  assert (length (map2 (fmul (mask args)) x') = Z.to_nat (nely args)) as Hl2
    by (unfold map2; by rewrite length_fmap).
  assert (Forall (λ row, length row = Z.to_nat (nelx args))
            (map2 (fmul (mask args)) x')) as Hrows2.
  { unfold map2. apply Forall_fmap. eapply Forall_impl; [exact Hrows|].
    intros row Hrow. unfold compose. by rewrite length_fmap. }
  destruct (filter_shape _ (filter_width args) _ _ Hl2 Hrows2) as [Hl3 Hrows3].
  destruct use_filter; apply shape2_rect; (lia || done).
Qed.

(** X15: where [1 - poisson**2] is not zero (there [get_stiffness_matrix]
    raises ZeroDivisionError), with a shape-preserving filter and at least
    as many DOFs in the partition as the grid has, [objective] raises only
    what [physical_density] or [displace] raise: the vector [displace]
    returns has one entry per DOF of the partition, and [compliance] finds
    every displacement it reads. *)
Theorem objective_raises_only_upstream (x : list (list F)) (args : Args F)
    (use_filter : bool) :
  (0 < nely args)%Z → (0 ≤ nelx args)%Z →
  fnonzero (fsub (fint 1) (fpow (poisson args) (fint 2))) = true →
  total_dofs (nelx args) (nely args) ≤ length (freedofs args) + length (fixdofs args) →
  let ke := get_stiffness_matrix (young args) (poisson args) in
  match physical_density ndimage_gaussian_filter x args use_filter with
  | Raise e => objective splu_solve ndimage_gaussian_filter x args use_filter = Raise e
  | Ok x_phys =>
      match displace splu_solve x_phys ke (forces args) (freedofs args) (fixdofs args)
              (penal args) (young_min args) (young args) with
      | Raise e => objective splu_solve ndimage_gaussian_filter x args use_filter = Raise e
      | Ok u =>
          length u = length (freedofs args) + length (fixdofs args) ∧
          ∃ c, compliance x_phys u ke (penal args) (young_min args) (young args) = Ok c ∧
               objective splu_solve ndimage_gaussian_filter x args use_filter = Ok c
      end
  end.
Proof.
  intros Hy Hx _ Hn ke. unfold objective. fold ke.
  destruct (physical_density _ x args use_filter) as [x_phys|e] eqn:Hp; [|done].
  rewrite bind_ret.
  destruct (displace _ x_phys ke _ _ _ _ _ _) as [u|e] eqn:Hd; [|done].
  rewrite bind_ret. pose proof (displace_length _ _ _ _ _ _ _ _ _ Hd) as Hu.
  split; [done|].
  destruct (compliance_defined x_phys u ke (penal args) (young_min args) (young args)
              (Z.to_nat (nely args)) (Z.to_nat (nelx args))) as [c Hc].
  - by apply (physical_density_shape x args use_filter).
  - unfold total_dofs in Hn. rewrite Hu. 
    replace (2 * (Z.to_nat (nelx args) + 1) * (Z.to_nat (nely args) + 1))
      with (Z.to_nat (2 * (nelx args + 1) * (nely args + 1))) by lia.
    done.
  - exists c. by rewrite Hc.
Qed.

End objective_more.

(** An instance. *)
Lemma objective_raises_only_upstream_witness :
  let ke := get_stiffness_matrix (young args_2x1) (poisson args_2x1) in
  match physical_density no_filter x_phys_2x1 args_2x1 true with
  | Raise e => objective gauss_solve no_filter x_phys_2x1 args_2x1 true = Raise e
  | Ok x_phys =>
      match displace gauss_solve x_phys ke (forces args_2x1) (freedofs args_2x1)
              (fixdofs args_2x1) (penal args_2x1) (young_min args_2x1) (young args_2x1) with
      | Raise e => objective gauss_solve no_filter x_phys_2x1 args_2x1 true = Raise e
      | Ok u =>
          length u = length (freedofs args_2x1) + length (fixdofs args_2x1) ∧
          ∃ c, compliance x_phys u ke (penal args_2x1) (young_min args_2x1)
                 (young args_2x1) = Ok c ∧
               objective gauss_solve no_filter x_phys_2x1 args_2x1 true = Ok c
      end
  end.
Proof.
  apply (objective_raises_only_upstream gauss_solve no_filter
           (λ x w r k Hl Hr, conj Hl Hr) x_phys_2x1 args_2x1 true).
  - vm_compute. reflexivity.
  - vm_compute. discriminate.
  - reflexivity.
  - vm_compute. lia.
Defined.

(** ** Range of the material model *)

Lemma Qpower_nat_le_1 (x : Q) (n : nat) :
  (0 <= x)%Q → (x <= 1)%Q → (0 <= x ^ Z.of_nat n <= 1)%Q.
Proof.
  intros H0 H1. split; [by apply Qpower_0_le|].
  rewrite <- (Qpower_1 (Z.of_nat n)). by apply Qpower_nat_mono.
Qed.

(** X16: over the rationals and for a whole exponent [n], a density in
    [0, 1] gives a modulus between [e_min] and [e_0] when [e_min <= e_0];
    density 1 gives [e_0], density 0 gives [e_min] for [n > 0], and the
    exponent 0 gives [e_0] at every density. *)
Theorem young_modulus_range (x e_0 e_min : Q) (n : nat) :
  (0 <= x)%Q → (x <= 1)%Q → (e_min <= e_0)%Q →
  (e_min <= young_modulus x e_0 e_min (inject_Z (Z.of_nat n)))%Q ∧
  (young_modulus x e_0 e_min (inject_Z (Z.of_nat n)) <= e_0)%Q ∧
  (young_modulus 1 e_0 e_min (inject_Z (Z.of_nat n)) == e_0)%Q ∧
  (0 < n → (young_modulus 0 e_0 e_min (inject_Z (Z.of_nat n)) == e_min)%Q) ∧
  (n = 0 → (young_modulus x e_0 e_min (inject_Z (Z.of_nat n)) == e_0)%Q).
Proof.
  intros H0 H1 He. rewrite !young_modulus_Q.
  destruct (Qpower_nat_le_1 x n H0 H1) as [Hp0 Hp1].
  assert (0 <= e_0 - e_min)%Q as Hd.
  { unfold Qminus. rewrite <- (Qplus_opp_r e_min).
    apply Qplus_le_compat; [done|apply Qle_refl]. }
  split_and!.
  - rewrite <- (Qplus_0_r e_min) at 1.
    apply Qplus_le_compat; [apply Qle_refl|]. by apply Qmult_le_0_compat.
  - assert (x ^ Z.of_nat n * (e_0 - e_min) <= 1 * (e_0 - e_min))%Q as Hm
      by (by apply Qmult_le_compat_r).
    apply (Qle_trans _ (e_min + 1 * (e_0 - e_min))).
    + apply Qplus_le_compat; [apply Qle_refl|done].
    + apply Qle_lteq. right. ring.
  - rewrite Qpower_1. ring.
  - intros Hn. rewrite Qpower_0 by lia. ring.
  - intros ->. simpl. ring.
Qed.

(** An instance. *)
Lemma young_modulus_range_witness :
  ((1 # 1000000000) <= young_modulus (1 # 2) 1 (1 # 1000000000) (inject_Z (Z.of_nat 3)))%Q ∧
  (young_modulus (1 # 2) 1 (1 # 1000000000) (inject_Z (Z.of_nat 3)) <= 1)%Q ∧
  (young_modulus 1 1 (1 # 1000000000) (inject_Z (Z.of_nat 3)) == 1)%Q ∧
  (0 < 3 → (young_modulus 0 1 (1 # 1000000000) (inject_Z (Z.of_nat 3))
            == (1 # 1000000000))%Q) ∧
  (3 = 0 → (young_modulus (1 # 2) 1 (1 # 1000000000) (inject_Z (Z.of_nat 3)) == 1)%Q).
Proof.
  apply (young_modulus_range (1 # 2)%Q 1%Q (1 # 1000000000)%Q 3).
  - discriminate.
  - discriminate.
  - discriminate.
Defined.

(** ** The rule registered for [a_entries] *)

Section vjp_more.
Context `{Scalar F}.
Variable splu_solve : list (list F) → list F → pyresult (list F).

(** X17: the rule registered for argument 0 of [solve_coo] is reached:
    called the way autograd calls it, with [sym_pos] as keyword, as fourth
    positional argument, or left out (then False), it yields
    [grad_solve_coo_entries].  No rule is registered from argument 3 on:
    NotImplementedError. *)
Theorem solve_coo_vjp_entries (ans a_entries : list F) (a_indices : list (list nat))
    (b g : list F) (sym_pos : bool) (out : list (output F)) :
  solve_coo_vjp splu_solve 0 ans [VFloats a_entries; VIndices a_indices; VFloats b]
    [("sym_pos", VBool sym_pos)] g out
    = (grad_solve_coo_entries splu_solve ans a_entries a_indices b sym_pos g, out) ∧
  solve_coo_vjp splu_solve 0 ans
    [VFloats a_entries; VIndices a_indices; VFloats b; VBool sym_pos] [] g out
    = (grad_solve_coo_entries splu_solve ans a_entries a_indices b sym_pos g, out) ∧
  solve_coo_vjp splu_solve 0 ans [VFloats a_entries; VIndices a_indices; VFloats b]
    [] g out
    = (grad_solve_coo_entries splu_solve ans a_entries a_indices b false g, out) ∧
  (∀ argnum args kwargs, 3 ≤ argnum →
     solve_coo_vjp splu_solve argnum ans args kwargs g out
     = (Raise NotImplementedError, out)).
Proof.
  split_and!; [reflexivity..|].
  intros argnum args kwargs Hn. unfold solve_coo_vjp.
  do 3 (destruct argnum as [|argnum]; [lia|]). done.
Qed.

End vjp_more.

(** ** Constant density fields *)

Section filter_constant.
Import Scipy.
Local Open Scope R_scope.

Lemma reflect_lt (n : nat) (z : Z) : (0 < n)%nat → (reflect n z < n)%nat.
Proof.
  intros Hn. unfold reflect.
  pose proof (Z.mod_pos_bound z (2 * Z.of_nat n) ltac:(lia)) as Hm.
  destruct (Z.ltb_spec (z mod (2 * Z.of_nat n)) (Z.of_nat n)); lia.
Qed.

Lemma fmap_seq_const {A} (v : A) (i n : nat) : (λ _, v) <$> seq i n = replicate n v.
Proof. revert i. induction n as [|n IH]; intros i; [done|]. simpl. by rewrite IH. Qed.

Lemma correlate1d_constant (w : list R) (n : nat) (c : R) :
  correlate1d w (replicate n c) = replicate n (Rsum w * c).
Proof.
  unfold correlate1d. rewrite length_replicate.
  destruct n as [|n]; [done|].
  rewrite <- (fmap_seq_const (Rsum w * c) 0 (S n)).
  apply list_fmap_ext. intros _ i _.
  rewrite <- Rsum_scale. f_equal.
  rewrite <- imap_const. apply imap_ext. intros j wj _. unfold const. f_equal.
  apply nth_lookup_Some. apply lookup_replicate. split; [done|].
  apply reflect_lt. lia.
Qed.

Lemma gaussian_filter1d_constant (sigma : R) (n : nat) (c : R) :
  ndimage_gaussian_filter1d sigma (replicate n c) = replicate n c.
Proof.
  unfold ndimage_gaussian_filter1d. rewrite correlate1d_constant.
  rewrite Rsum_reverse, kernel_sum. f_equal. ring.
Qed.

Lemma transpose2_constant {A} (r k : nat) (c : A) :
  transpose2 k (replicate r (replicate k c)) = replicate k (replicate r c).
Proof.
  induction r as [|r IH]; [done|].
  cbn [replicate transpose2]. rewrite IH. by rewrite zip_with_replicate.
Qed.

(** X18: with scipy's filter, a constant field is returned unchanged at
    every width: the weights sum to 1 and reflection reads values of the
    field only. *)
Theorem gaussian_filter_constant_field (r k : nat) (c sigma : R) :
  gaussian_filter Scipy.ndimage_gaussian_filter (replicate r (replicate k c)) sigma
  = replicate r (replicate k c).
Proof.
  unfold gaussian_filter, Scipy.ndimage_gaussian_filter.
  destruct (Rlt_dec (/ 1000000000000000) sigma) as [_|_]; [|done].
  destruct r as [|r]; [done|].
  unfold shape2. rewrite length_replicate. cbn [replicate head default].
  unfold id. rewrite ?length_replicate. change (replicate k c :: replicate r (replicate k c))
    with (replicate (S r) (replicate k c)).
  rewrite transpose2_constant, fmap_replicate, gaussian_filter1d_constant.
  rewrite transpose2_constant, fmap_replicate, gaussian_filter1d_constant.
  done.
Qed.

End filter_constant.

Lemma fsum_replicate_Q (acc c : Q) (N : nat) :
  (foldl fadd acc (replicate N c) == acc + inject_Z (Z.of_nat N) * c)%Q.
Proof.
  revert acc. induction N as [|N IH]; intros acc.
  - simpl. ring.
  - cbn [replicate foldl]. rewrite IH. unfold fadd, Q_scalar.
    rewrite Qred_correct. rewrite Nat2Z.inj_succ. unfold Z.succ.
    rewrite inject_Z_plus. ring.
Qed.

Lemma join_replicate_replicate {A} (r k : nat) (c : A) :
  mjoin (replicate r (replicate k c)) = replicate (r * k) c.
Proof.
  induction r as [|r IH]; [done|].
  cbn [replicate]. rewrite join_cons, IH. by rewrite <- replicate_add.
Qed.

Section start.
Variable ndimage_gaussian_filter : list (list Q) → Q → list (list Q).
Hypothesis filter_constant : ∀ r k c w,
  ndimage_gaussian_filter (replicate r (replicate k c)) w = replicate r (replicate k c).

(** X19: in exact rational arithmetic, with a filter that leaves constant
    fields unchanged, the volume constraint is 0 at the default starting
    design of [fast_stopt], for the arguments [get_args] builds on a grid
    with at least one element each way. *)
Theorem constraint_at_initial_design (normals forces_ : ndarray3 Q) (density_ : Q) :
  1 < (shape3 normals).1.1 → 1 < (shape3 normals).1.2 →
  let args := get_args normals forces_ density_ in
  constraint ndimage_gaussian_filter args (mjoin (initial_design args None)) = Ok 0%Q.
Proof.
  intros Hw Hh args.
  set (r := Z.to_nat (nely args)). set (k := Z.to_nat (nelx args)).
  assert (Hr : nely args = Z.of_nat r) by (unfold r, args, get_args; cbn [nely]; lia).
  assert (Hk : nelx args = Z.of_nat k) by (unfold k, args, get_args; cbn [nelx]; lia).
  assert (0 < r * k) as HN by (unfold r, k, args, get_args; cbn [nely nelx]; nia).
  unfold constraint, mean_density, physical_density, gaussian_filter, initial_design.
  fold r k. set (c := fmul fone (density args)).
  assert (Hresh : reshape2 (mjoin (replicate r (replicate k c))) (nely args) (nelx args)
                  = Ok (replicate r (replicate k c))).
  { apply reshape2_flatten; [lia|by rewrite length_replicate|].
    apply Forall_replicate. by rewrite length_replicate, Hk, Nat2Z.id. }
  rewrite Hresh, !bind_ret, Hresh, !bind_ret.
  assert (map2 (fmul (mask args)) (replicate r (replicate k c))
          = replicate r (replicate k (fmul (mask args) c))) as ->.
  { unfold map2. by rewrite !fmap_replicate. }
  rewrite filter_constant. f_equal.
  unfold fsub, Q_scalar. rewrite <- (Qred_complete 0%Q); [done|].
  unfold mean2. rewrite join_replicate_replicate, length_replicate.
  unfold fsum, fdiv, fint, Q_scalar. rewrite !Qred_correct.
  rewrite fsum_replicate_Q.
  unfold c, fmul, fone, fzero, mask, density, args, get_args, flit, Q_scalar.
  rewrite !Qred_correct.
  assert (¬ (inject_Z (Z.of_nat (r * k)) == 0)%Q) as Hnz.
  { unfold Qeq. simpl. lia. }
  field. exact Hnz.
Qed.

End start.

(** An instance. *)
Lemma constraint_at_initial_design_witness :
  constraint no_filter (get_args beam_2x1.1.1 beam_2x1.1.2 beam_2x1.2)
    (mjoin (initial_design (get_args beam_2x1.1.1 beam_2x1.1.2 beam_2x1.2) None))
  = Ok 0%Q.
Proof.
  apply (constraint_at_initial_design no_filter (λ _ _ _ _, eq_refl)
           beam_2x1.1.1 beam_2x1.1.2 beam_2x1.2).
  - vm_compute. lia.
  - vm_compute. lia.
Defined.

(** ** Compliance as a sum over the elements *)

Lemma mapM_py_length {A B} (f : A → pyresult B) (l : list A) (r : list B) :
  mapM_py f l = Ok r → length r = length l.
Proof.
  revert r. induction l as [|x l IH]; intros r; simpl; [by intros [= <-]|].
  destruct (f x) as [y|]; [|done]. rewrite bind_ret.
  destruct (mapM_py f l) as [r'|]; [|done]. rewrite bind_ret.
  intros [= <-]. simpl. by rewrite (IH r').
Qed.

Lemma zip_with_fmap_seq {A B C D} (f : B → C → D) (g : A → B) (h : nat → C)
    (l : list A) (k : nat) :
  zip_with f (g <$> l) (h <$> seq k (length l)) = imap (λ i x, f (g x) (h (k + i))) l.
Proof.
  revert k. induction l as [|x l IH]; intros k; [done|].
  cbn [length seq]. rewrite !fmap_cons, imap_cons. cbn [zip_with].
  rewrite Nat.add_0_r. f_equal. rewrite IH. apply imap_ext.
  intros i y _. unfold compose. by rewrite Nat.add_succ_r.
Qed.

Lemma edof_row (nely nelx i j : nat) :
  i < nelx → j < nely →
  edof nely nelx !! (i * nely + j) = Some ((λ h : nat → nat → nat, h i j) <$> dof_funs nely).
Proof.
  intros Hi Hj. rewrite edof_closed, list_lookup_fmap.
  by rewrite element_coords_lookup.
Qed.

Section compliance_value.
Context `{Scalar F}.

Lemma compliance_value (x_phys : list (list F)) (u : list F) (ke : list (list F))
    (penal e_min e_0 : F) (nely nelx : nat) :
  shape2 x_phys = (nely, nelx) →
  Forall (λ r, length r = nelx) x_phys →
  length ke = 8 → Forall (λ r, length r = 8) ke →
  2 * (nelx + 1) * (nely + 1) ≤ length u →
  compliance x_phys u ke penal e_min e_0
  = Ok (compliance_by_elements x_phys u ke penal e_min e_0).
Proof.
  intros Hsh Hrect Hke Hrows Hu.
  unfold compliance, compliance_by_elements. rewrite Hsh.
  destruct (mapM_py_Forall (mapM_py (take_ix u)) (all_ixs nely nelx)) as [us Hus].
  { eapply Forall_impl; [apply all_ixs_bound|]. intros p Hp.
    apply mapM_py_Forall. eapply Forall_impl; [exact Hp|]. intros row Hrow.
    destruct (take_ix_Ok u row) as (r & Hr & _); [|by exists r].
    eapply Forall_impl; [exact Hrow|]. intros d Hd. simpl in Hd. lia. }
  rewrite Hus, bind_ret. do 3 f_equal.
  assert (Hlus : length us = 8).
  { rewrite (mapM_py_length _ _ _ Hus), all_ixs_closed, length_fmap.
    apply dof_funs_length. }
  assert (Hat : ∀ a i j h, i < nelx → j < nely → dof_funs nely !! a = Some h →
            at3 us a i j = default fzero (u !! h i j)).
  { intros a i j h Hi Hj Hh. unfold at3.
    pose proof (all_ixs_lookup nely nelx i j a h Hi Hj Hh) as Hl.
    by destruct (mapM_py_take_ix_lookup3 _ _ _ _ _ _ _ Hus Hl) as [_ ->]. }
  set (ue := λ i j, element_displacements u
                      (default [] (edof nely nelx !! (i * nely + j)))).
  assert (Hue : ∀ i j, i < nelx → j < nely →
            length (ue i j) = 8 ∧
            ∀ a, a < 8 → default fzero (ue i j !! a) = at3 us a i j).
  { intros i j Hi Hj. unfold ue, element_displacements.
    rewrite (edof_row nely nelx i j Hi Hj). cbn [default]. unfold id.
    split; [by rewrite !length_fmap, dof_funs_length|].
    intros a Ha. destruct (dof_funs_lookup nely a Ha) as [h Hh].
    rewrite !list_lookup_fmap, Hh. cbn [fmap option_fmap option_map default].
    symmetry. by apply Hat. }
  assert (Hlen : length x_phys = nely) by (by injection Hsh).
  (* the table of element energies *)
  match goal with
  | |- zip2 fmul _ (transpose2 nely ?ce) = _ =>
      assert (ce = (λ i, (λ j, quadratic_form ke (ue i j)) <$> seq 0 nely)
                     <$> seq 0 nelx) as ->
  end.
  { apply list_fmap_ext. intros i i' Hki. apply lookup_seq in Hki as [-> Hi].
    apply list_fmap_ext. intros j j' Hkj. apply lookup_seq in Hkj as [-> Hj].
    cbn [Nat.add]. destruct (Hue i j Hi Hj) as [Hl8 Hv].
    unfold quadratic_form. rewrite Hlus, Hl8. f_equal.
    apply list_fmap_ext. intros a a' Hka. apply lookup_seq in Hka as [-> Ha].
    cbn [Nat.add]. rewrite (Hv a Ha). f_equal.
    destruct (lookup_lt_is_Some_2 ke a ltac:(lia)) as [kerow Hkerow].
    assert (length kerow = 8) as Hk8.
    { rewrite Forall_forall in Hrows. apply Hrows. by eapply list_elem_of_lookup_2. }
    unfold at3 at 1, lookup3, lookup2. rewrite list_lookup_fmap, Hkerow.
    cbn [fmap option_fmap option_map].
    rewrite lookup_fmap_seq by done. rewrite lookup_fmap_seq by done.
    cbn [default]. unfold id. f_equal. apply imap_ext. intros b keab Hb.
    apply lookup_lt_Some in Hb. rewrite Hv by lia. done. }
  pose proof (transpose2_table (λ i j, quadratic_form ke (ue i j)) (seq 0 nely)
                (seq 0 nelx)) as Ht.
  rewrite length_seq in Ht. rewrite Ht. clear Ht.
  unfold zip2, map2. rewrite <- Hlen.
  rewrite (zip_with_fmap_seq (zip_with fmul)).
  apply imap_ext. intros j xrow Hj.
  assert (length xrow = nelx) as Hxl.
  { rewrite Forall_forall in Hrect. apply Hrect. by eapply list_elem_of_lookup_2. }
  cbn [Nat.add]. rewrite <- Hxl. rewrite (zip_with_fmap_seq fmul).
  by rewrite Hxl, Hlen.
Qed.

End compliance_value.

(** C9: on a grid of shape (nely, nelx), for a displacement vector with an
    entry for every DOF, [compliance] is the sum over the elements of the
    modulus of [x_phys[j, i]] times the quadratic form of [ke] on the eight
    displacements read at the DOFs of row [i * nely + j] of [edof]; and
    that row holds, position by position, the DOFs [compliance] finds in
    [all_ixs] for the element and the row and column DOFs of the
    element's 64 triplets in [get_k]. *)
Theorem compliance_reads_assembled_dofs `{Scalar F} (x_phys ke : list (list F))
    (u : list F) (penal e_min e_0 : F) (nely nelx : nat) :
  shape2 x_phys = (nely, nelx) →
  Forall (λ r, length r = nelx) x_phys →
  length ke = 8 → Forall (λ r, length r = 8) ke →
  2 * (nelx + 1) * (nely + 1) ≤ length u →
  let k := get_k (map2 (λ x, young_modulus x e_0 e_min penal) x_phys) ke in
  compliance x_phys u ke penal e_min e_0
    = Ok (compliance_by_elements x_phys u ke penal e_min e_0) ∧
  ∀ i j a b, i < nelx → j < nely → a < 8 → b < 8 →
    let e := i * nely + j in
    ∃ row da db,
      edof nely nelx !! e = Some row ∧
      row !! a = Some da ∧ row !! b = Some db ∧
      lookup3 (all_ixs nely nelx) a i j = Some da ∧
      lookup3 (all_ixs nely nelx) b i j = Some db ∧
      k.2 !! (e * 64 + a * 8 + b) = Some da ∧
      k.1.2 !! (e * 64 + a * 8 + b) = Some db ∧
      element_displacements u row !! a = u !! da ∧
      element_displacements u row !! b = u !! db.
Proof.
  intros Hsh Hrect Hke Hrows Hu k.
  split; [by apply (compliance_value _ _ _ _ _ _ nely nelx)|].
  intros i j a b Hi Hj Ha Hb e.
  assert (Hshs : shape2 (map2 (λ x, young_modulus x e_0 e_min penal) x_phys)
                 = (nely, nelx)) by (by rewrite shape2_map2).
  destruct (all_ixs_match_edof _ ke nely nelx i j a b Hshs Hi Hj Ha Hb)
    as (da & db & Hia & Hib & Hea & Heb & Hka & Hkb & _).
  fold e in Hea, Heb, Hka, Hkb. fold k in Hka, Hkb.
  pose proof (edof_row nely nelx i j Hi Hj) as Hrow. fold e in Hrow.
  unfold lookup2 in Hea, Heb. rewrite Hrow in Hea, Heb.
  assert (Hbound : ∀ c d, lookup3 (all_ixs nely nelx) c i j = Some d → d < length u).
  { intros c d Hc. pose proof (all_ixs_bound nely nelx) as Hall.
    unfold lookup3, lookup2 in Hc.
    destruct (all_ixs nely nelx !! c) as [p|] eqn:Hp; [|done].
    destruct (p !! i) as [r|] eqn:Hr; [|done].
    rewrite Forall_forall in Hall.
    specialize (Hall p (list_elem_of_lookup_2 _ _ _ Hp)).
    rewrite Forall_forall in Hall.
    specialize (Hall r (list_elem_of_lookup_2 _ _ _ Hr)).
    rewrite Forall_forall in Hall.
    specialize (Hall d (list_elem_of_lookup_2 _ _ _ Hc)). simpl in Hall. lia. }
  eexists _, da, db. split_and!; [done..| |].
  - unfold element_displacements. rewrite list_lookup_fmap, Hea.
    destruct (lookup_lt_is_Some_2 u da (Hbound a da Hia)) as [v Hv].
    cbn [fmap option_fmap option_map]. by rewrite Hv.
  - unfold element_displacements. rewrite list_lookup_fmap, Heb.
    destruct (lookup_lt_is_Some_2 u db (Hbound b db Hib)) as [v Hv].
    cbn [fmap option_fmap option_map]. by rewrite Hv.
Qed.

(** C9 on the 2 by 1 beam, for the displacement [d] at every DOF [d]. *)
Lemma compliance_reads_assembled_dofs_witness :
  let u := inject_Z <$> [0; 1; 2; 3; 4; 5; 6; 7; 8; 9; 10; 11]%Z in
  let k := get_k (map2 (λ x, young_modulus x 1%Q (1 # 1000000000)%Q 3%Q) x_phys_2x1)
             ke_2x1 in
  compliance x_phys_2x1 u ke_2x1 3%Q (1 # 1000000000)%Q 1%Q
    = Ok (compliance_by_elements x_phys_2x1 u ke_2x1 3%Q (1 # 1000000000)%Q 1%Q) ∧
  ∀ i j a b, i < 2 → j < 1 → a < 8 → b < 8 →
    let e := i * 1 + j in
    ∃ row da db,
      edof 1 2 !! e = Some row ∧
      row !! a = Some da ∧ row !! b = Some db ∧
      lookup3 (all_ixs 1 2) a i j = Some da ∧
      lookup3 (all_ixs 1 2) b i j = Some db ∧
      k.2 !! (e * 64 + a * 8 + b) = Some da ∧
      k.1.2 !! (e * 64 + a * 8 + b) = Some db ∧
      element_displacements u row !! a = u !! da ∧
      element_displacements u row !! b = u !! db.
Proof.
  apply (compliance_reads_assembled_dofs x_phys_2x1 ke_2x1
           (inject_Z <$> [0; 1; 2; 3; 4; 5; 6; 7; 8; 9; 10; 11]%Z)
           3%Q (1 # 1000000000)%Q 1%Q 1 2).
  - reflexivity.
  - repeat constructor.
  - reflexivity.
  - repeat constructor.
  - vm_compute. lia.
Defined.
